(** * geojson2vectortile: the MVT encoder and the tile pipeline

    A shallow embedding of [geojson2vectortile.js].  JavaScript numbers are
    IEEE-754 binary64 values, modelled by Rocq's primitive floats; the values
    that only ever hold integers (tags, lengths, results of the 32-bit
    bitwise operators) are modelled in [Z] with the [ToInt32] wrap-around
    written out.  A JavaScript array of numbers is a [list Z] that grows at
    its end ([push]). *)

From Stdlib Require Import ZArith List Lia Bool String Ascii Reals Lra.
From Stdlib Require Import Floats.
From Equations Require Import Equations.
Import ListNotations.

Set Warnings "-inexact-float,-register-all".

Local Open Scope list_scope.
Local Open Scope Z_scope.

(** ** 32-bit integer operators of JavaScript *)

Module Int32.

(** [ToInt32]: reduction modulo 2^32 into the signed range. *)
Definition wrap (v : Z) : Z := (v + 2147483648) mod 4294967296 - 2147483648.

(** [a & b], [a | b], [a ^ b]. *)
Definition and (a b : Z) : Z := Z.land (wrap a) (wrap b).
Definition or (a b : Z) : Z := Z.lor (wrap a) (wrap b).
Definition xor (a b : Z) : Z := Z.lxor (wrap a) (wrap b).

(** [a << n]: the shift count is taken modulo 32, the result wraps. *)
Definition shl (a n : Z) : Z := wrap (Z.shiftl (wrap a) (n mod 32)).

(** [a >> n]: sign-propagating right shift. *)
Definition sar (a n : Z) : Z := Z.shiftr (wrap a) (n mod 32).

Lemma wrap_small (v : Z) : -2147483648 <= v < 2147483648 -> wrap v = v.
Proof. intros H. unfold wrap. rewrite Z.mod_small by lia. lia. Qed.

Lemma wrap_range (v : Z) : -2147483648 <= wrap v < 2147483648.
Proof.
  unfold wrap.
  pose proof (Z.mod_pos_bound (v + 2147483648) 4294967296 ltac:(lia)). lia.
Qed.

(** One round of the varint loop shortens the value. *)
Lemma sar7_log2 (val : Z) :
  val > 127 -> 0 <= Z.log2 (sar val 7) < Z.log2 val.
Proof.
  intros Hgt. split; [apply Z.log2_nonneg|].
  unfold sar. change (7 mod 32) with 7.
  pose proof (wrap_range val) as Hr.
  assert (H7 : 7 <= Z.log2 val) by (apply (Z.log2_le_pow2 val 7); lia).
  destruct (Z_lt_dec val 2147483648) as [Hs|Hb].
  - rewrite wrap_small by lia. rewrite Z.log2_shiftr by lia. lia.
  - assert (H31 : 31 <= Z.log2 val) by (apply (Z.log2_le_pow2 val 31); lia).
    rewrite Z.shiftr_div_pow2 by lia. change (2 ^ 7) with 128.
    assert (Hlt : wrap val / 128 < 2 ^ 24)
      by (apply Z.div_lt_upper_bound; lia).
    destruct (Z_le_dec (wrap val / 128) 0) as [Hn|Hp].
    + rewrite (Z.log2_nonpos _ Hn). lia.
    + apply Z.log2_lt_pow2 in Hlt; lia.
Qed.

End Int32.

(** ** JavaScript numbers *)

Module JsNum.

(** The number that an integer converts to (round to nearest, ties to
    even; exact below 2^53 in magnitude). *)
Definition of_Z (v : Z) : float := SF2Prim (binary_normalize prec emax v 0 false).

(** The integer part of a finite number, truncated toward zero; NaN, the
    zeros and the infinities give 0 (the first steps of [ToInt32]). *)
Definition to_integer (x : float) : Z :=
  match Prim2SF x with
  | S754_finite s m e =>
      let a := if 0 <=? e then Zpos m * 2 ^ e else Zpos m / 2 ^ (- e) in
      if s then - a else a
  | _ => 0
  end.

(** [ToInt32], applied by the bitwise operators to their operands. *)
Definition ToInt32 (x : float) : Z := Int32.wrap (to_integer x).

(** [Math.floor]: NaN, zeros, infinities and integers are returned as
    they are; otherwise the largest integer below. *)
Definition Math_floor (x : float) : float :=
  match Prim2SF x with
  | S754_finite s m e =>
      if 0 <=? e then x
      else if Zpos m mod 2 ^ (- e) =? 0 then x
      else if s then of_Z (- (Zpos m / 2 ^ (- e) + 1))
      else of_Z (Zpos m / 2 ^ (- e))
  | _ => x
  end.

(** [Math.max(a, b)] and [Math.min(a, b)]: NaN if either is NaN, and +0
    counts as larger than -0. *)
Definition Math_max (a b : float) : float :=
  if is_nan a || is_nan b then nan
  else if (a <? b)%float then b
  else if (b <? a)%float then a
  else if get_sign a then b else a.

Definition Math_min (a b : float) : float :=
  if is_nan a || is_nan b then nan
  else if (a <? b)%float then a
  else if (b <? a)%float then b
  else if get_sign a then a else b.

(** [Math.pow(2, z)] at an integer [z]: the power of two itself,
    [Infinity] above the range and 0 below it. *)
Definition pow2 (z : Z) : float := Z.ldexp 1 z.

(** [Math.PI]. *)
Definition PI : float := 3.141592653589793.

(** The functions that ECMAScript leaves implementation-approximated. *)
Record Libm : Type := {
  Math_log : float -> float;
  Math_tan : float -> float;
  Math_atan : float -> float;
  Math_exp : float -> float;
  Math_cos : float -> float
}.

End JsNum.

(** ** Protobuf primitives *)

(** [writeVarint(arr, val)]: the loop runs while [val > 0x7F]; each round
    pushes [(val & 0x7F) | 0x80] and replaces [val] by [val >> 7]; the
    final [val] is pushed as it is.  The array is returned in place of the
    in-place update. *)
Equations? writeVarint (arr : list Z) (val : Z) : list Z
  by wf (Z.to_nat (Z.log2 val)) lt :=
  writeVarint arr val with Z_gt_dec val 127 := {
    | left _ => writeVarint (arr ++ [Int32.or (Int32.and val 127) 128])
                            (Int32.sar val 7)
    | right _ => arr ++ [val] }.
Proof. pose proof (Int32.sar7_log2 val). lia. Qed.

(** The bytes of an ASCII string, as [Buffer.from(str, 'utf8')] gives them. *)
Definition utf8 (s : string) : list Z :=
  map (fun c => Z.of_nat (nat_of_ascii c)) (list_ascii_of_string s).

(** [writeString(arr, fieldNumber, str)]. *)
Definition writeString (arr : list Z) (fieldNumber : Z) (str : string) : list Z :=
  let arr := writeVarint arr (Int32.or (Int32.shl fieldNumber 3) 2) in
  let arr := writeVarint arr (Z.of_nat (List.length (utf8 str))) in
  arr ++ utf8 str.

(** [zigZagEncode(num)]: both shifts convert [num] with [ToInt32]. *)
Definition zigZagEncode (num : float) : Z :=
  Int32.xor (Int32.shl (JsNum.ToInt32 num) 1) (Int32.sar (JsNum.ToInt32 num) 31).

(** [createPointGeometryCommand(x, y)]. *)
Definition createPointGeometryCommand (x y : float) : list Z :=
  let commandMoveTo := Int32.or (Int32.and 1 7) (Int32.shl 1 3) in
  let dx := zigZagEncode x in
  let dy := zigZagEncode y in
  [commandMoveTo; dx; dy].

(** ** A reference reading of base-128 varints *)

Module Varint.

(** A byte of a JavaScript byte array. *)
Definition is_byte (b : Z) : Prop := 0 <= b <= 255.

(** Well-formed: every element is a byte, the continuation bit [0x80] is
    set on every byte but the last, and clear on the last. *)
Fixpoint well_formed (bs : list Z) : Prop :=
  match bs with
  | [] => False
  | [b] => 0 <= b <= 127
  | b :: rest => 128 <= b <= 255 /\ well_formed rest
  end.

(** The value: 7 data bits per byte, low-order group first. *)
Fixpoint decode (bs : list Z) : Z :=
  match bs with
  | [] => 0
  | b :: rest => Z.land b 127 + 128 * decode rest
  end.

(** The canonical encoder of a natural number, by structural recursion on
    a bound of the number of groups. *)
Fixpoint encode_fuel (fuel : nat) (n : Z) : list Z :=
  match fuel with
  | O => [n]
  | S fuel' =>
      if n <=? 127 then [n]
      else (n mod 128 + 128) :: encode_fuel fuel' (n / 128)
  end.

Definition encode (n : Z) : list Z := encode_fuel (Z.to_nat (Z.log2 n)) n.

End Varint.

(** ** Facts on the 32-bit operators *)

Lemma lor_high_bit (r : Z) : 0 <= r < 128 -> Z.lor r 128 = r + 128.
Proof.
  intros Hr.
  assert (Hd : Z.land r 128 = 0).
  { apply Z.bits_inj'. intros k Hk. rewrite Z.land_spec, Z.bits_0.
    change 128 with (2 ^ 7). rewrite Z.pow2_bits_eqb by lia.
    destruct (Z.eqb_spec 7 k) as [<-|Hne]; [|apply andb_false_r].
    rewrite andb_true_r.
    destruct (Z.eq_dec r 0) as [->|Hnz]; [apply Z.bits_0|].
    apply Z.bits_above_log2; [lia|].
    apply Z.log2_lt_pow2; lia. }
  rewrite <- Z.lxor_lor by exact Hd.
  symmetry. apply Z.add_nocarry_lxor. exact Hd.
Qed.

Lemma land_low_bits (v : Z) : Z.land v 127 = v mod 128.
Proof. change 127 with (Z.ones 7). rewrite Z.land_ones by lia. reflexivity. Qed.

Lemma continuation_byte (n : Z) :
  0 <= n < 2147483648 ->
  Int32.or (Int32.and n 127) 128 = n mod 128 + 128.
Proof.
  intros Hn. unfold Int32.or, Int32.and.
  rewrite (Int32.wrap_small n) by lia.
  change (Int32.wrap 127) with 127. change (Int32.wrap 128) with 128.
  rewrite land_low_bits.
  pose proof (Z.mod_pos_bound n 128 ltac:(lia)).
  rewrite Int32.wrap_small by lia.
  apply lor_high_bit; lia.
Qed.

Lemma sar7_small (n : Z) :
  0 <= n < 2147483648 -> Int32.sar n 7 = n / 128.
Proof.
  intros Hn. unfold Int32.sar. rewrite Int32.wrap_small by lia.
  change (7 mod 32) with 7. rewrite Z.shiftr_div_pow2 by lia. reflexivity.
Qed.

(** The loop of [writeVarint], one round at a time. *)
Lemma writeVarint_continue (arr : list Z) (val : Z) :
  val > 127 ->
  writeVarint arr val =
  writeVarint (arr ++ [Int32.or (Int32.and val 127) 128]) (Int32.sar val 7).
Proof.
  intros H. rewrite writeVarint_equation_1.
  destruct (Z_gt_dec val 127); [reflexivity|lia].
Qed.

Lemma writeVarint_stop (arr : list Z) (val : Z) :
  val <= 127 -> writeVarint arr val = arr ++ [val].
Proof.
  intros H. rewrite writeVarint_equation_1.
  destruct (Z_gt_dec val 127); [lia|reflexivity].
Qed.

(** What [writeVarint] appends for a value below 2^31: a well-formed varint
    that decodes to the value. *)
Lemma writeVarint_appends (n : Z) :
  0 <= n < 2147483648 ->
  forall arr, exists bs,
    writeVarint arr n = arr ++ bs /\ Varint.well_formed bs /\ Varint.decode bs = n.
Proof.
  intros Hn. assert (H0 : 0 <= n) by lia.
  revert Hn. pattern n. apply Z_lt_induction; [|exact H0]. clear n H0.
  intros n IH Hn arr.
  destruct (Z_gt_dec n 127) as [Hgt|Hle].
  - rewrite writeVarint_continue by exact Hgt.
    rewrite continuation_byte, sar7_small by lia.
    assert (Hq : 0 <= n / 128 < n).
    { split; [apply Z.div_pos; lia | apply Z.div_lt; lia]. }
    destruct (IH (n / 128) ltac:(lia) ltac:(lia) (arr ++ [n mod 128 + 128]))
      as (bs & Hw & Hwf & Hd).
    exists ((n mod 128 + 128) :: bs).
    pose proof (Z.mod_pos_bound n 128 ltac:(lia)) as Hm.
    split; [|split].
    + rewrite Hw, <- app_assoc. reflexivity.
    + destruct bs as [|b bs']; [contradiction|]. simpl. split; [lia|exact Hwf].
    + cbn [Varint.decode]. rewrite Hd, land_low_bits.
      replace ((n mod 128 + 128) mod 128) with (n mod 128)
        by (rewrite <- Z.add_mod_idemp_r, Z.mod_same, Z.add_0_r, Z.mod_mod by lia; reflexivity).
      pose proof (Z.div_mod n 128 ltac:(lia)). lia.
  - rewrite writeVarint_stop by lia.
    exists [n]. split; [reflexivity|]. split; [simpl; lia|].
    cbn [Varint.decode]. rewrite land_low_bits, Z.mod_small by lia. lia.
Qed.

(** ** Data model *)

(** A JSON value, for the free-form [properties] of a feature. *)
Inductive Json : Type :=
| JNull
| JBool (b : bool)
| JNum (v : float)
| JStr (s : string)
| JArr (items : list Json)
| JObj (fields : list (string * Json)).

(** A point feature of the input: [feat.geometry.coordinates] is
    [[lon, lat]]. *)
Record Feature : Type := {
  properties : Json;
  longitude : float;
  latitude : float
}.

(** The parsed input: [geojson.features]. *)
Record GeoJson : Type := { features : list Feature }.

(** The feature that [generateTilePbf] builds for a surviving point: its
    coordinates are tile-local. *)
Record TileFeature : Type := {
  tf_properties : Json;
  tf_coordinates : float * float
}.

(** [v || {}]: the empty object replaces a falsy value. *)
Definition or_empty_object (v : Json) : Json :=
  match v with
  | JNull => JObj []
  | JBool false => JObj []
  | JNum x => if is_nan x || is_zero x then JObj [] else v
  | JStr EmptyString => JObj []
  | _ => v
  end.

(** [Buffer.from(array)]: every entry is reduced to a byte. *)
Definition Buffer_from (arr : list Z) : list Z := map (fun v => Z.land v 255) arr.

(** ** Feature and layer messages *)

(** [encodeFeature(feature)]. *)
Definition encodeFeature (feature : TileFeature) : list Z :=
  let '(x, y) := tf_coordinates feature in
  let geomCmds := createPointGeometryCommand x y in
  let geomTypePoint := 1 in
  let bytes := [] in
  let bytes := writeVarint bytes (Int32.or (Int32.shl 3 3) 0) in
  let bytes := writeVarint bytes geomTypePoint in
  let bytes := writeVarint bytes (Int32.or (Int32.shl 4 3) 2) in
  let geomBuffer := fold_left writeVarint geomCmds [] in
  let bytes := writeVarint bytes (Z.of_nat (List.length geomBuffer)) in
  let bytes := bytes ++ geomBuffer in
  let featureWrapper := [] in
  let featureWrapper := writeVarint featureWrapper (Int32.or (Int32.shl 2 3) 2) in
  let featureWrapper := writeVarint featureWrapper (Z.of_nat (List.length bytes)) in
  featureWrapper ++ bytes.

(** [encodeLayer(features, layerName, extent)]. *)
Definition encodeLayer (feats : list TileFeature) (layerName : string)
    (extent : Z) : list Z :=
  let layerBytes := [] in
  let layerBytes := writeString layerBytes 1 layerName in
  let layerBytes := writeVarint layerBytes (Int32.or (Int32.shl 5 3) 0) in
  let layerBytes := writeVarint layerBytes extent in
  let layerBytes :=
    fold_left (fun acc f => acc ++ encodeFeature f) feats layerBytes in
  let layerWrapper := [] in
  let layerWrapper := writeVarint layerWrapper (Int32.or (Int32.shl 3 3) 2) in
  let layerWrapper := writeVarint layerWrapper (Z.of_nat (List.length layerBytes)) in
  layerWrapper ++ layerBytes.

(** ** Projection, tile boxes and the tile builder *)

Section Tiles.

Import JsNum.

(** The run-time's [Math.log], [Math.tan], [Math.atan], [Math.exp] and
    [Math.cos]. *)
Variable libm : Libm.

Local Open Scope float_scope.

(** [tile2lon(x, z)]. *)
Definition tile2lon (x : float) (z : Z) : float :=
  (x / pow2 z) * 360 - 180.

(** [tile2lat(y, z)]. *)
Definition tile2lat (y : float) (z : Z) : float :=
  let n := PI - 2 * PI * y / pow2 z in
  (180 / PI) * Math_atan libm (0.5 * (Math_exp libm n - Math_exp libm (- n))).

(** [tileBbox(z, x, y)]: [[west, south, east, north]]. *)
Definition tileBbox (z : Z) (x y : float) : float * float * float * float :=
  let west := tile2lon x z in
  let east := tile2lon (x + 1) z in
  let south := tile2lat (y + 1) z in
  let north := tile2lat y z in
  (west, south, east, north).

(** [lonLatToMeters(lon, lat)]. *)
Definition lonLatToMeters (lon lat : float) : float * float :=
  let x := lon * 20037508.34 / 180 in
  let y := Math_log libm (Math_tan libm ((90 + lat) * PI / 360)) / (PI / 180) in
  let y := y * 20037508.34 / 180 in
  (x, y).

(** [tileBboxMeters(z, x, y)]: [[minX, minY, maxX, maxY]]. *)
Definition tileBboxMeters (z : Z) (x y : float) : float * float * float * float :=
  let '(lonMin, latMin, lonMax, latMax) := tileBbox z x y in
  let '(minX, minY) := lonLatToMeters lonMin latMin in
  let '(maxX, maxY) := lonLatToMeters lonMax latMax in
  (minX, minY, maxX, maxY).

(** [projectToTileCoordinates(lon, lat, extent, bboxMerc)]. *)
Definition projectToTileCoordinates (lon lat extent : float)
    (bboxMerc : float * float * float * float) : float * float :=
  let '(minX, minY, maxX, maxY) := bboxMerc in
  let '(mx, my) := lonLatToMeters lon lat in
  let width := maxX - minX in
  let height := maxY - minY in
  let xRel := (mx - minX) / width in
  let yRel := (maxY - my) / height in
  let xTile := xRel * extent in
  let yTile := yRel * extent in
  (Math_floor xTile, Math_floor yTile).

(** The containment test of [generateTilePbf]:
    [lon >= w && lon <= e && lat >= s && lat <= n]. *)
Definition in_bbox (lon lat w s e n : float) : bool :=
  (w <=? lon) && (lon <=? e) && (s <=? lat) && (lat <=? n).

(** The loop of [generateTilePbf] that clips and projects. *)
Fixpoint filterFeatures (feats : list Feature)
    (w s e n : float) (bboxMerc : float * float * float * float)
    (filteredFeatures : list TileFeature) : list TileFeature :=
  match feats with
  | [] => filteredFeatures
  | feat :: rest =>
      let lon := longitude feat in
      let lat := latitude feat in
      if in_bbox lon lat w s e n then
        let '(xt, yt) := projectToTileCoordinates lon lat 4096 bboxMerc in
        let newFeature := {| tf_properties := or_empty_object (properties feat);
                             tf_coordinates := (xt, yt) |} in
        filterFeatures rest w s e n bboxMerc (filteredFeatures ++ [newFeature])
      else filterFeatures rest w s e n bboxMerc filteredFeatures
  end.

(** [generateTilePbf(geojson, z, x, y)]: the bytes of the returned
    [Buffer]. *)
Definition generateTilePbf (geojson : GeoJson) (z : Z) (x y : float) : list Z :=
  let '(w, s, e, n) := tileBbox z x y in
  let bboxMerc := tileBboxMeters z x y in
  let filteredFeatures := filterFeatures (features geojson) w s e n bboxMerc [] in
  match filteredFeatures with
  | [] => Buffer_from []
  | _ :: _ =>
      let layerBytes := encodeLayer filteredFeatures "myLayer" 4096 in
      let tileBytes := layerBytes in
      Buffer_from tileBytes
  end.

(** [getGeoJsonBBox(geojson)]. *)
Definition getGeoJsonBBox (geojson : GeoJson) : float * float * float * float :=
  fold_left
    (fun '(west, south, east, north) feat =>
       let lon := longitude feat in
       let lat := latitude feat in
       let west := if lon <? west then lon else west in
       let east := if east <? lon then lon else east in
       let south := if lat <? south then lat else south in
       let north := if north <? lat then lat else north in
       (west, south, east, north))
    (features geojson) (180, 90, -180, -90).

(** [long2tileX(lon, zoom)]. *)
Definition long2tileX (lon : float) (zoom : Z) : float :=
  Math_floor ((lon + 180) / 360 * pow2 zoom).

(** [lat2tileY(lat, zoom)]. *)
Definition lat2tileY (lat : float) (zoom : Z) : float :=
  let rad := lat * PI / 180 in
  Math_floor
    ((1 - Math_log libm (Math_tan libm rad + 1 / Math_cos libm rad) / PI) / 2
     * pow2 zoom).

(** [getTileRangeFromBBox(bbox, z)]: [[xMin, xMax, yMin, yMax]]. *)
Definition getTileRangeFromBBox (bbox : float * float * float * float) (z : Z)
    : float * float * float * float :=
  let '(west, south, east, north) := bbox in
  let xMin := long2tileX west z in
  let xMax := long2tileX east z in
  let yMin := lat2tileY north z in
  let yMax := lat2tileY south z in
  let maxIndex := of_Z (Int32.shl 1 z - 1)%Z in
  let xMin := Math_max 0 (Math_min xMin maxIndex) in
  let xMax := Math_max 0 (Math_min xMax maxIndex) in
  let yMin := Math_max 0 (Math_min yMin maxIndex) in
  let yMax := Math_max 0 (Math_min yMax maxIndex) in
  (xMin, xMax, yMin, yMax).

End Tiles.

(** ** One run-time for the examples

    Series evaluated in binary64, with the usual range reductions.  The
    theorems below hold for every [Libm]; this instance serves to run the
    program on concrete inputs. *)

Module RefMath.

Import JsNum.
Local Open Scope float_scope.

Definition LN2 : float := 0.6931471805599453.
Definition PIO2_HI : float := 1.5707963267948966.
Definition PIO2_LO : float := 6.123233995736766e-17.

(** [acc + term*r/k + term*r^2/(k(k+1)) + ...], [fuel] terms. *)
Fixpoint taylor (fuel : nat) (k term acc r : float) : float :=
  match fuel with
  | O => acc
  | S fuel' =>
      let term' := term * r / k in
      taylor fuel' (k + 1) term' (acc + term') r
  end.

Definition exp (x : float) : float :=
  if is_nan x then nan
  else if 709.8 <? x then infinity
  else if x <? -745.2 then 0
  else
    let k := to_integer (Math_floor (x / LN2 + 0.5)) in
    let r := x - of_Z k * LN2 in
    Z.ldexp (taylor 22 1 1 1 r) k.

(** [1/k + s2/(k+2) + s2^2/(k+4) + ...], [fuel] terms. *)
Fixpoint odd_series (fuel : nat) (k pw acc s2 : float) : float :=
  match fuel with
  | O => acc
  | S fuel' => odd_series fuel' (k + 2) (pw * s2) (acc + pw / k) s2
  end.

Definition log (x : float) : float :=
  if is_nan x || (x <? 0) then nan
  else if x =? 0 then neg_infinity
  else if x =? infinity then infinity
  else
    let '(m, e) := Z.frexp x in
    let '(m, e) := if m <? 0.7071067811865476 then (2 * m, (e - 1)%Z) else (m, e) in
    let s := (m - 1) / (m + 1) in
    of_Z e * LN2 + 2 * s * odd_series 14 1 1 0 (s * s).

Definition atan_unit (t : float) : float :=
  let t := t / (1 + sqrt (1 + t * t)) in
  let t := t / (1 + sqrt (1 + t * t)) in
  4 * (t * odd_series 16 1 1 0 (- (t * t))).

Definition atan (x : float) : float :=
  if is_nan x then nan
  else
    let a := abs x in
    let r := if 1 <? a then PIO2_HI - atan_unit (1 / a) else atan_unit a in
    if get_sign x then - r else r.

(** [acc - term*r2/(k(k+1)) + ...], alternating, [fuel] terms. *)
Fixpoint trig_series (fuel : nat) (k term acc r2 : float) : float :=
  match fuel with
  | O => acc
  | S fuel' =>
      let term' := - (term * r2 / (k * (k + 1))) in
      trig_series fuel' (k + 2) term' (acc + term') r2
  end.

(** Sine and cosine together, after reduction to a quadrant. *)
Definition sincos (x : float) : float * float :=
  if is_nan x || is_infinity x then (nan, nan)
  else
    let k := to_integer (Math_floor (x / PIO2_HI + 0.5)) in
    let r := (x - of_Z k * PIO2_HI) - of_Z k * PIO2_LO in
    let sn := trig_series 13 2 r r (r * r) in
    let cs := trig_series 13 1 1 1 (r * r) in
    match (k mod 4)%Z with
    | 0%Z => (sn, cs)
    | 1%Z => (cs, - sn)
    | 2%Z => (- sn, - cs)
    | _ => (- cs, sn)
    end.

Definition cos (x : float) : float := snd (sincos x).
Definition tan (x : float) : float := let '(sn, cs) := sincos x in sn / cs.

Definition libm : Libm :=
  {| Math_log := log; Math_tan := tan; Math_atan := atan;
     Math_exp := exp; Math_cos := cos |}.

End RefMath.

(** ** Inputs for the examples *)

Module Examples.

Local Open Scope float_scope.

(** Tokyo, with and without properties. *)
Definition tokyo : Feature :=
  {| properties := JObj [("name"%string, JStr "Tokyo")];
     longitude := 139.767; latitude := 35.681 |}.

Definition tokyo_bare : Feature :=
  {| properties := JNull; longitude := 139.767; latitude := 35.681 |}.

(** A point outside the Tokyo tile. *)
Definition osaka : Feature :=
  {| properties := JNull; longitude := 135.502; latitude := 34.693 |}.

(** Malformed points. *)
Definition nan_point : Feature :=
  {| properties := JNull; longitude := nan; latitude := 35.681 |}.

Definition beyond_pole : Feature :=
  {| properties := JNull; longitude := 139.767; latitude := 95 |}.

End Examples.

(** * Definitions of the statements

    What the theorems below speak about: the features a tile keeps, a
    reference reading of the wire format, and the real number a binary64
    number stands for. *)

(** ** The features a tile keeps *)

(** The features that pass the containment test, in input order. *)
Definition survivors (feats : list Feature) (w s e n : float) : list Feature :=
  filter (fun feat => in_bbox (longitude feat) (latitude feat) w s e n) feats.

(** The feature built for a surviving point. *)
Definition project_feature (libm : JsNum.Libm)
    (bboxMerc : float * float * float * float) (feat : Feature) : TileFeature :=
  {| tf_properties := or_empty_object (properties feat);
     tf_coordinates :=
       projectToTileCoordinates libm (longitude feat) (latitude feat) 4096 bboxMerc |}.


(** The containment test of [generateTilePbf] at tile [(z, x, y)], for one
    feature. *)
Definition in_tile (libm : JsNum.Libm) (z : Z) (x y : float) (feat : Feature)
    : bool :=
  let '(w, s, e, n) := tileBbox libm z x y in
  in_bbox (longitude feat) (latitude feat) w s e n.

(** The features [generateTilePbf] keeps at tile [(z, x, y)]. *)
Definition tile_survivors (libm : JsNum.Libm) (geojson : GeoJson) (z : Z)
    (x y : float) : list Feature :=
  let '(w, s, e, n) := tileBbox libm z x y in
  survivors (features geojson) w s e n.

(** Two input features with the same coordinates. *)
Definition same_point (f g : Feature) : Prop :=
  longitude f = longitude g /\ latitude f = latitude g.

(** ** A reference reading of the wire format

    The protobuf subset of the Mapbox Vector Tile schema that the tile
    payload is meant to follow, written from the schema: tags, varint and
    length-delimited fields, packed varints, and the Layer and Feature
    messages of a tile of points. *)

Module Wire.

Definition varint (n : Z) : list Z := Varint.encode n.

Definition tag (field wire_type : Z) : list Z :=
  varint (Z.lor (Z.shiftl field 3) wire_type).

Definition varint_field (field v : Z) : list Z := tag field 0 ++ varint v.

Definition length_delimited (field : Z) (payload : list Z) : list Z :=
  tag field 2 ++ varint (Z.of_nat (List.length payload)) ++ payload.

Definition string_field (field : Z) (s : string) : list Z :=
  length_delimited field (utf8 s).

Definition packed (vs : list Z) : list Z := List.concat (map varint vs).

(** ZigZag of a 32-bit signed integer, as an unsigned value. *)
Definition zigzag (n : Z) : Z := Z.lxor (Z.shiftl n 1) (Z.shiftr n 31).

(** MoveTo (id 1) with count 1, then the zigzag-encoded vertex. *)
Definition point_geometry (xt yt : Z) : list Z :=
  [Z.lor (Z.land 1 7) (Z.shiftl 1 3); zigzag xt; zigzag yt].

(** A Feature: field 3 [type] = 1 (POINT), field 4 [geometry]. *)
Definition feature (xt yt : Z) : list Z :=
  varint_field 3 1 ++ length_delimited 4 (packed (point_geometry xt yt)).



End Wire.

(** ** Ranges *)


(** A tile-local coordinate whose zigzag value fits a signed 32-bit
    integer. *)
Definition fits_zigzag (v : float) : Prop :=
  -1073741824 <= JsNum.ToInt32 v < 1073741824.

(** An index within the columns (or rows) of zoom [z]. *)
Definition in_index_range (r : float) (z : Z) : Prop :=
  (0 <=? r)%float = true /\ (r <=? JsNum.of_Z (2 ^ z - 1))%float = true.

(** [(1 << z) - 1] is [2^z - 1], a number that is not below 0. *)
Definition maxIndex_check (z : Z) : bool :=
  (Int32.shl 1 z - 1 =? 2 ^ z - 1)
  && negb (is_nan (JsNum.of_Z (2 ^ z - 1)))
  && (0 <=? JsNum.of_Z (2 ^ z - 1))%float.

(** What the clamp does to one unclamped index [raw]. *)
Definition clamped (raw idx : float) (z : Z) : Prop :=
  (is_nan raw = false -> in_index_range idx z)
  /\ (is_nan raw = true -> is_nan idx = true).


(** ** Binary64 numbers as real numbers *)

Module Binary64.

(** Powers of two as real numbers. *)
Definition bpow (e : Z) : R := powerRZ 2 e.

(** Where a positive real [v] lies with respect to the grid of step
    [2^e]: at [m * 2^e], or strictly between it and its successor, below,
    at or above the middle. *)
Definition located (v : R) (m e : Z) (l : location) : Prop :=
  match l with
  | loc_Exact => v = (IZR m * bpow e)%R
  | loc_Inexact Lt => (IZR m * bpow e < v < (IZR m + 1 / 2) * bpow e)%R
  | loc_Inexact Eq => v = ((IZR m + 1 / 2) * bpow e)%R
  | loc_Inexact Gt => ((IZR m + 1 / 2) * bpow e < v < (IZR m + 1) * bpow e)%R
  end.

(** The exponent of the binary64 grid at magnitude [k]. *)
Definition fexp64 (k : Z) : Z := Z.max (k - 53) (-1074).

(** [k] is the magnitude of [v]: [2^(k-1) <= v < 2^k]. *)
Definition mag_rel (v : R) (k : Z) : Prop := (bpow (k - 1) <= v < bpow k)%R.

(** The truncation of [v] on the binary64 grid of its magnitude. *)
Definition trunc (v : R) (m e : Z) (l : location) : Prop :=
  located v m e l /\ 0 <= m /\ exists k, mag_rel v k /\ e = fexp64 k.

(** The second half of [binary_round_aux]: round the truncation to
    nearest even and renormalise. *)
Definition round_canon (s : bool) (m e : Z) (l : location) : spec_float :=
  let '(mrs, e') := shr_fexp prec emax (round_nearest_even m l) e loc_Exact in
  match shr_m mrs with
  | Z0 => S754_zero s
  | Zpos p => if e' <=? emax - prec then S754_finite s p e' else S754_infinity s
  | Zneg _ => S754_nan
  end.

(** The real number that a float stands for in comparisons; the
    infinities stand for [2^1024] and its opposite. *)
Definition key (x : spec_float) : R :=
  match x with
  | S754_zero _ => 0%R
  | S754_infinity s => if s then (- bpow 1024)%R else bpow 1024
  | S754_nan => 0%R
  | S754_finite s m e =>
      if s then (- (IZR (Zpos m) * bpow e))%R else (IZR (Zpos m) * bpow e)%R
  end.

(** [r] is the binary64 rounding of the real number [w]. *)
Definition rounds (w : R) (r : spec_float) : Prop :=
  (w = 0%R /\ exists s, r = S754_zero s)
  \/ ((0 < w)%R /\ exists m e l, trunc w m e l /\ r = round_canon false m e l)
  \/ ((w < 0)%R /\ exists m e l, trunc (- w) m e l /\ r = round_canon true m e l).

(** The order of two real numbers, as a comparison. *)
Definition Rcmp (c : comparison) (a b : R) : Prop :=
  match c with
  | Lt => (a < b)%R
  | Eq => a = b
  | Gt => (b < a)%R
  end.

(** The key of a primitive float. *)
Definition FR (x : float) : R := key (Prim2SF x).

(** Zeros and finite numbers: neither infinite nor NaN. *)
Definition SFfinite (x : spec_float) : Prop :=
  match x with
  | S754_zero _ | S754_finite _ _ _ => True
  | _ => False
  end.

(** A finite float. *)
Definition finite (x : float) : Prop := SFfinite (Prim2SF x).

(** The same, as a test that evaluates. *)
Definition finiteb (x : float) : bool :=
  match Prim2SF x with
  | S754_zero _ | S754_finite _ _ _ => true
  | _ => false
  end.

(** [x] is a finite number between [a] and [b]. *)
Definition between (a x b : float) : Prop :=
  finite x /\ (FR a <= FR x <= FR b)%R.

End Binary64.

(** * Further definitions of the statements *)

(** The reader's side of ZigZag: [(u >>> 1) ^ -(u & 1)] on an unsigned
    32-bit value. *)
Definition unzigzag (u : Z) : Z := Z.lxor (Z.shiftr u 1) (- Z.land u 1).

(** The number of 7-bit groups of a natural number. *)
Definition varint_size (n : Z) : nat := Z.to_nat (Z.log2 n / 7) + 1.

(** The loop of [getGeoJsonBBox], from any box. *)
Definition bbox_from (init : float * float * float * float)
    (feats : list Feature) : float * float * float * float :=
  fold_left
    (fun '(west, south, east, north) feat =>
       let lon := longitude feat in
       let lat := latitude feat in
       let west := if (lon <? west)%float then lon else west in
       let east := if (east <? lon)%float then lon else east in
       let south := if (lat <? south)%float then lat else south in
       let north := if (north <? lat)%float then lat else north in
       (west, south, east, north))
    feats init.

(** A box without NaN whose edges are on the right side of the initial
    ones. *)
Definition proper_box (box : float * float * float * float) : Prop :=
  let '(w, s, e, n) := box in
  (w <=? 180)%float = true /\ (s <=? 90)%float = true
  /\ (-180 <=? e)%float = true /\ (-90 <=? n)%float = true.

(** The box holds the coordinates of a feature that are numbers. *)
Definition box_holds (box : float * float * float * float) (f : Feature) : Prop :=
  let '(w, s, e, n) := box in
  (is_nan (longitude f) = false ->
   (w <=? longitude f)%float = true /\ (longitude f <=? e)%float = true)
  /\ (is_nan (latitude f) = false ->
      (s <=? latitude f)%float = true /\ (latitude f <=? n)%float = true).

(** Every edge of the box is the initial value or a coordinate of some
    feature. *)
Definition box_attained (box : float * float * float * float)
    (feats : list Feature) : Prop :=
  let '(w, s, e, n) := box in
  (w = 180%float \/ exists f, In f feats /\ w = longitude f)
  /\ (s = 90%float \/ exists f, In f feats /\ s = latitude f)
  /\ (e = (-180)%float \/ exists f, In f feats /\ e = longitude f)
  /\ (n = (-90)%float \/ exists f, In f feats /\ n = latitude f).

(** One box inside another. *)
Definition box_grows (b b' : float * float * float * float) : Prop :=
  let '(w, s, e, n) := b in
  let '(w', s', e', n') := b' in
  (w' <=? w)%float = true /\ (s' <=? s)%float = true
  /\ (e <=? e')%float = true /\ (n <=? n')%float = true.

(** The clamp of [getTileRangeFromBBox]:
    [Math.max(0, Math.min(v, (1 << z) - 1))]. *)
Definition clamp_index (v : float) (z : Z) : float :=
  JsNum.Math_max 0 (JsNum.Math_min v (JsNum.of_Z (Int32.shl 1 z - 1))).

(** ** The script

    The body of the file after the functions: it reads and parses
    [map.geojson], then for every zoom from [minzoom] to [maxzoom] and
    every tile of the range of the collection's box it creates the
    directory of the column and writes the tiles that are not empty.
    The model starts from the parsed collection and returns the calls to
    [fs.mkdirSync] and [fs.writeFileSync], in order.  A path is kept as the
    numbers it is built from. *)

Inductive FsCall : Type :=
| mkdirSync (z : Z) (x : float)
    (* [path.join('output_tiles', String(z), String(x))], recursive *)
| writeFileSync (z : Z) (x y : float) (data : list Z).
    (* [path.join(zxDir, `${y}.pbf`)] and the buffer *)

(** [for (let v = from; v <= to; v++) body(v)]: the calls of the rounds,
    in order; [None] when [fuel] rounds were not enough. *)
Fixpoint for_number (fuel : nat) (v to : float)
    (body : float -> option (list FsCall)) : option (list FsCall) :=
  match fuel with
  | O => None
  | S fuel' =>
      if (v <=? to)%float then
        match body v with
        | None => None
        | Some calls =>
            match for_number fuel' (v + 1)%float to body with
            | None => None
            | Some rest => Some (calls ++ rest)
            end
        end
      else Some []
  end.

Definition minzoom : Z := 9.
Definition maxzoom : Z := 18.

(** The values of [z] in [for (let z = minzoom; z <= maxzoom; z++)]. *)
Definition zooms : list Z := [9; 10; 11; 12; 13; 14; 15; 16; 17; 18].

(** The rounds of the loop on [z], one after the other. *)
Fixpoint each_zoom (zs : list Z) (body : Z -> option (list FsCall))
    : option (list FsCall) :=
  match zs with
  | [] => Some []
  | z :: rest =>
      match body z with
      | None => None
      | Some calls =>
          match each_zoom rest body with
          | None => None
          | Some more => Some (calls ++ more)
          end
      end
  end.

Section Script.

Variable libm : JsNum.Libm.

(** The body of the loop on [y]: an empty buffer is skipped. *)
Definition tile_calls (geojson : GeoJson) (z : Z) (x y : float) : list FsCall :=
  let pbfBuffer := generateTilePbf libm geojson z x y in
  if (Z.of_nat (List.length pbfBuffer) =? 0) then []
  else [writeFileSync z x y pbfBuffer].

(** The body of the loop on [x]. *)
Definition column_calls (fuel : nat) (geojson : GeoJson) (z : Z)
    (yMin yMax x : float) : option (list FsCall) :=
  match for_number fuel yMin yMax (fun y => Some (tile_calls geojson z x y)) with
  | None => None
  | Some calls => Some (mkdirSync z x :: calls)
  end.

(** The body of the loop on [z]; the loops on [x] and [y] are given
    [2^z + 1] rounds each. *)
Definition zoom_calls (geojson : GeoJson) (bbox : float * float * float * float)
    (z : Z) : option (list FsCall) :=
  let '(xMin, xMax, yMin, yMax) := getTileRangeFromBBox libm bbox z in
  let fuel := Z.to_nat (2 ^ z + 1) in
  for_number fuel xMin xMax (column_calls fuel geojson z yMin yMax).

(** The script, from the parsed collection. *)
Definition main (geojson : GeoJson) : option (list FsCall) :=
  let '(west, south, east, north) := getGeoJsonBBox geojson in
  each_zoom zooms (zoom_calls geojson (west, south, east, north)).

End Script.

(** What the script may do: a directory or a file of a zoom from
    [minzoom] to [maxzoom], a file holding the payload of its tile, which
    is not empty. *)
Definition call_ok (libm : JsNum.Libm) (geojson : GeoJson) (c : FsCall) : Prop :=
  match c with
  | mkdirSync z x => minzoom <= z <= maxzoom
  | writeFileSync z x y data =>
      minzoom <= z <= maxzoom
      /\ data = generateTilePbf libm geojson z x y /\ data <> []
  end.

(** Every file is written after the directory of its column was made. *)
Fixpoint dirs_first (made : list (Z * float)) (calls : list FsCall) : Prop :=
  match calls with
  | [] => True
  | mkdirSync z x :: rest => dirs_first ((z, x) :: made) rest
  | writeFileSync z x y _ :: rest => In (z, x) made /\ dirs_first made rest
  end.

(** * Theorems *)

(** ** Varints: what [writeVarint] appends *)

(** C1, as stated, fails at 2^31: [val >>= 7] is the signed shift, so the
    value pushed last is negative, not a byte; once [Buffer.from] has
    reduced the array to bytes, it decodes to 0. *)
Lemma writeVarint_2p31_counterexample :
  writeVarint [] 2147483648 = [128; -16777216]
  /\ ~ Varint.well_formed [128; -16777216]
  /\ Varint.decode (Buffer_from (writeVarint [] 2147483648)) = 0.
Proof.
  assert (E : writeVarint [] 2147483648 = [128; -16777216]) by (vm_compute; reflexivity).
  rewrite E. split; [reflexivity|]. split; [|reflexivity].
  simpl. lia.
Qed.

(** C1 (amended): for every integer [n] in [0, 2^31 - 1], [writeVarint]
    appends to the array a well-formed base-128 varint (bytes only, the
    continuation bit on every byte but the last, low-order group first)
    that decodes to [n]. *)
Theorem writeVarint_roundtrip (buf : list Z) (n : Z) :
  0 <= n <= 2147483647 ->
  exists bs,
    writeVarint buf n = buf ++ bs
    /\ Varint.well_formed bs
    /\ Varint.decode bs = n.
Proof. intros Hn. apply writeVarint_appends. lia. Qed.

Lemma writeVarint_roundtrip_witness :
  exists bs,
    writeVarint [7] 300 = [7] ++ bs
    /\ Varint.well_formed bs
    /\ Varint.decode bs = 300.
Proof. apply (writeVarint_roundtrip [7] 300). lia. Defined.

(** ** The bounding box of an empty collection *)

(** C10: on a collection without features [getGeoJsonBBox] returns its
    initial values [[180, 90, -180, -90]], a box with west > east and
    south > north; it returns normally. *)
Theorem getGeoJsonBBox_empty :
  getGeoJsonBBox {| features := [] |} = (180, 90, -180, -90)%float
  /\ (let '(west, south, east, north) := getGeoJsonBBox {| features := [] |} in
      (east <? west)%float = true /\ (north <? south)%float = true
      /\ (west <=? east)%float = false /\ (south <=? north)%float = false).
Proof. split; [reflexivity|]. vm_compute. repeat split. Qed.

(** ** The array only grows *)

Lemma writeVarint_app (val : Z) :
  forall arr, writeVarint arr val = arr ++ writeVarint [] val.
Proof.
  remember (Z.to_nat (Z.log2 val)) as k eqn:Hk. revert val Hk.
  induction k as [k IH] using lt_wf_ind. intros val Hk arr.
  destruct (Z_gt_dec val 127) as [Hgt|Hle].
  - rewrite (writeVarint_continue arr), (writeVarint_continue []) by exact Hgt.
    pose proof (Int32.sar7_log2 val Hgt) as Hlog.
    rewrite (IH (Z.to_nat (Z.log2 (Int32.sar val 7))) ltac:(lia) _ eq_refl (arr ++ _)).
    rewrite (IH (Z.to_nat (Z.log2 (Int32.sar val 7))) ltac:(lia) _ eq_refl ([] ++ _)).
    rewrite <- app_assoc. reflexivity.
  - rewrite !writeVarint_stop by lia. reflexivity.
Qed.

Lemma writeVarint_nonempty (val : Z) : writeVarint [] val <> [].
Proof.
  destruct (Z_gt_dec val 127) as [Hgt|Hle].
  - rewrite writeVarint_continue, writeVarint_app by exact Hgt. discriminate.
  - rewrite writeVarint_stop by lia. discriminate.
Qed.

(** ** The clipping loop as a filter *)

Section Clipping.

Variable libm : JsNum.Libm.

Lemma filterFeatures_survivors (feats : list Feature) (w s e n : float)
    (bboxMerc : float * float * float * float) :
  forall acc,
    filterFeatures libm feats w s e n bboxMerc acc
    = acc ++ map (project_feature libm bboxMerc) (survivors feats w s e n).
Proof.
  induction feats as [|feat rest IH]; intros acc;
    unfold survivors; cbn [filterFeatures filter].
  - rewrite app_nil_r. reflexivity.
  - fold (survivors rest w s e n).
    destruct (in_bbox (longitude feat) (latitude feat) w s e n) eqn:Hin.
    + destruct (projectToTileCoordinates libm (longitude feat) (latitude feat)
                  4096 bboxMerc) as [xt yt] eqn:Hp.
      rewrite IH, <- app_assoc. cbn [map app].
      unfold project_feature at 2. rewrite Hp. reflexivity.
    + apply IH.
Qed.

End Clipping.

Lemma encodeLayer_nonempty (feats : list TileFeature) (name : string) (extent : Z) :
  encodeLayer feats name extent <> [].
Proof.
  unfold encodeLayer. intros H. apply app_eq_nil in H. destruct H as [H _].
  rewrite writeVarint_app in H. apply app_eq_nil in H. destruct H as [H _].
  exact (writeVarint_nonempty _ H).
Qed.

Lemma Buffer_from_nil_iff (arr : list Z) : Buffer_from arr = [] <-> arr = [].
Proof.
  unfold Buffer_from. split; [apply map_eq_nil|intros ->; reflexivity].
Qed.

(** [generateTilePbf] in terms of the survivors. *)
Lemma generateTilePbf_survivors (libm : JsNum.Libm) (geojson : GeoJson)
    (z : Z) (x y : float) :
  generateTilePbf libm geojson z x y =
  let '(w, s, e, n) := tileBbox libm z x y in
  match survivors (features geojson) w s e n with
  | [] => []
  | _ :: _ =>
      Buffer_from
        (encodeLayer
           (map (project_feature libm (tileBboxMeters libm z x y))
                (survivors (features geojson) w s e n))
           "myLayer" 4096)
  end.
Proof.
  unfold generateTilePbf.
  destruct (tileBbox libm z x y) as [[[w s] e] n].
  rewrite filterFeatures_survivors. simpl.
  destruct (survivors (features geojson) w s e n); reflexivity.
Qed.

(** ** Empty payload *)

(** C3: [generateTilePbf] returns the zero-length payload exactly when no
    feature passes the inclusive test [w <= lon <= e], [s <= lat <= n] of
    the tile's box; if some feature passes, the payload is non-empty. *)
Theorem generateTilePbf_empty_iff (libm : JsNum.Libm) (geojson : GeoJson)
    (z : Z) (x y : float) :
  let '(w, s, e, n) := tileBbox libm z x y in
  (generateTilePbf libm geojson z x y = []
   <-> forall feat, In feat (features geojson) ->
         in_bbox (longitude feat) (latitude feat) w s e n = false)
  /\ ((exists feat, In feat (features geojson)
         /\ in_bbox (longitude feat) (latitude feat) w s e n = true)
      -> generateTilePbf libm geojson z x y <> []).
Proof.
  rewrite generateTilePbf_survivors.
  destruct (tileBbox libm z x y) as [[[w s] e] n].
  assert (Hiff :
    match survivors (features geojson) w s e n with
    | [] => []
    | _ :: _ =>
        Buffer_from
          (encodeLayer
             (map (project_feature libm (tileBboxMeters libm z x y))
                  (survivors (features geojson) w s e n))
             "myLayer" 4096)
    end = []
    <-> forall feat, In feat (features geojson) ->
          in_bbox (longitude feat) (latitude feat) w s e n = false).
  { destruct (survivors (features geojson) w s e n) as [|f0 fs] eqn:Hs.
    - split; [|reflexivity]. intros _ feat Hin.
      destruct (in_bbox (longitude feat) (latitude feat) w s e n) eqn:Hb;
        [|reflexivity].
      assert (Hf : In feat (survivors (features geojson) w s e n))
        by (apply filter_In; split; assumption).
      rewrite Hs in Hf. destruct Hf.
    - split.
      + intros H. apply (proj1 (Buffer_from_nil_iff _)) in H.
        exfalso. exact (encodeLayer_nonempty _ _ _ H).
      + intros H. exfalso.
        assert (Hf : In f0 (survivors (features geojson) w s e n))
          by (rewrite Hs; left; reflexivity).
        apply filter_In in Hf. destruct Hf as [Hin Hb].
        rewrite (H f0 Hin) in Hb. discriminate. }
  split; [exact Hiff|].
  intros (feat & Hin & Hb) Hnil.
  rewrite (proj1 Hiff Hnil feat Hin) in Hb. discriminate.
Qed.

(** ** Properties never reach the bytes *)

Lemma encodeFeature_coordinates (f g : TileFeature) :
  tf_coordinates f = tf_coordinates g -> encodeFeature f = encodeFeature g.
Proof. intros H. unfold encodeFeature. rewrite H. reflexivity. Qed.

Lemma encodeLayer_coordinates (fs gs : list TileFeature) (name : string) (extent : Z) :
  Forall2 (fun f g => tf_coordinates f = tf_coordinates g) fs gs ->
  encodeLayer fs name extent = encodeLayer gs name extent.
Proof.
  intros H. unfold encodeLayer.
  set (init := writeVarint _ extent). clearbody init.
  assert (E : fold_left (fun acc f => acc ++ encodeFeature f) fs init
              = fold_left (fun acc f => acc ++ encodeFeature f) gs init).
  { revert init. induction H as [|f g fs' gs' Hfg _ IH]; intros init; simpl.
    - reflexivity.
    - rewrite (encodeFeature_coordinates f g Hfg). apply IH. }
  rewrite E. reflexivity.
Qed.

Lemma survivors_same_points (fs gs : list Feature) (w s e n : float) :
  Forall2 same_point fs gs ->
  Forall2 same_point (survivors fs w s e n) (survivors gs w s e n).
Proof.
  induction 1 as [|f g fs' gs' [Hlon Hlat] _ IH]; unfold survivors; simpl.
  - constructor.
  - rewrite Hlon, Hlat.
    destruct (in_bbox (longitude g) (latitude g) w s e n).
    + constructor; [split; assumption|exact IH].
    + exact IH.
Qed.

Lemma project_same_points (libm : JsNum.Libm)
    (bboxMerc : float * float * float * float) (fs gs : list Feature) :
  Forall2 same_point fs gs ->
  Forall2 (fun f g => tf_coordinates f = tf_coordinates g)
          (map (project_feature libm bboxMerc) fs)
          (map (project_feature libm bboxMerc) gs).
Proof.
  induction 1 as [|f g fs' gs' [Hlon Hlat] _ IH]; simpl; constructor.
  - simpl. rewrite Hlon, Hlat. reflexivity.
  - exact IH.
Qed.

(** C9: two collections with the same points in the same order, whatever
    their [properties], give the same bytes for every tile. *)
Theorem generateTilePbf_ignores_properties (libm : JsNum.Libm)
    (g1 g2 : GeoJson) (z : Z) (x y : float) :
  Forall2 same_point (features g1) (features g2) ->
  generateTilePbf libm g1 z x y = generateTilePbf libm g2 z x y.
Proof.
  intros H. rewrite !generateTilePbf_survivors.
  destruct (tileBbox libm z x y) as [[[w s] e] n].
  pose proof (survivors_same_points _ _ w s e n H) as Hs.
  pose proof (project_same_points libm (tileBboxMeters libm z x y) _ _ Hs) as Hp.
  rewrite (encodeLayer_coordinates _ _ "myLayer" 4096 Hp).
  inversion Hs; reflexivity.
Qed.

(** ** [writeVarint] against the reference encoder *)

Lemma encode_fuel_enough (fuel : nat) :
  forall n, 0 <= n < 2147483648 -> Z.log2 n <= Z.of_nat fuel ->
    writeVarint [] n = Varint.encode_fuel fuel n.
Proof.
  induction fuel as [|fuel IH]; intros n Hn Hlog.
  - assert (n <= 1).
    { destruct (Z_le_dec n 1); [assumption|].
      assert (1 <= Z.log2 n) by (apply (Z.log2_le_pow2 n 1); lia). lia. }
    simpl. rewrite writeVarint_stop by lia. reflexivity.
  - cbn [Varint.encode_fuel]. destruct (Z.leb_spec n 127) as [Hle|Hgt].
    + rewrite writeVarint_stop by lia. reflexivity.
    + rewrite writeVarint_continue, writeVarint_app by lia.
      rewrite continuation_byte, sar7_small by lia. simpl. f_equal.
      apply IH.
      * split; [apply Z.div_pos; lia | apply Z.div_lt_upper_bound; lia].
      * change 128 with (2 ^ 7). rewrite <- Z.shiftr_div_pow2 by lia.
        rewrite Z.log2_shiftr by lia.
        assert (7 <= Z.log2 n) by (apply (Z.log2_le_pow2 n 7); lia). lia.
Qed.

Lemma writeVarint_encode (n : Z) :
  0 <= n < 2147483648 -> writeVarint [] n = Wire.varint n.
Proof.
  intros Hn. unfold Wire.varint, Varint.encode.
  apply encode_fuel_enough; [exact Hn|].
  rewrite Z2Nat.id by apply Z.log2_nonneg. lia.
Qed.

Lemma writeVarint_wire (arr : list Z) (n : Z) :
  0 <= n < 2147483648 -> writeVarint arr n = arr ++ Wire.varint n.
Proof. intros Hn. rewrite writeVarint_app, writeVarint_encode by exact Hn. reflexivity. Qed.

(** The reference encoder emits bytes. *)
Lemma varint_bytes (n : Z) :
  0 <= n < 2147483648 -> Forall Varint.is_byte (Wire.varint n).
Proof.
  intros Hn. destruct (writeVarint_appends n Hn []) as (bs & Hw & Hwf & _).
  rewrite <- writeVarint_encode by exact Hn. rewrite Hw. simpl.
  clear Hw. induction bs as [|b bs IH]; [constructor|].
  destruct bs as [|b' bs'].
  - constructor; [simpl in Hwf; unfold Varint.is_byte; lia|constructor].
  - destruct Hwf as [Hb Hwf]. constructor; [unfold Varint.is_byte; lia|].
    apply IH. exact Hwf.
Qed.


(** ** The payload against the reference reading *)

Lemma zigZagEncode_wire (v : float) :
  fits_zigzag v ->
  zigZagEncode v = Wire.zigzag (JsNum.ToInt32 v)
  /\ 0 <= Wire.zigzag (JsNum.ToInt32 v) < 2147483648.
Proof.
  unfold fits_zigzag, zigZagEncode, Wire.zigzag.
  set (n := JsNum.ToInt32 v). intros Hn.
  unfold Int32.xor, Int32.shl, Int32.sar.
  change (1 mod 32) with 1. change (31 mod 32) with 31.
  rewrite (Int32.wrap_small n) by lia.
  rewrite Z.shiftl_mul_pow2, Z.shiftr_div_pow2 by lia.
  change (2 ^ 1) with 2. change (2 ^ 31) with 2147483648.
  rewrite !(Int32.wrap_small (n * 2)) by lia.
  destruct (Z_lt_dec n 0) as [Hneg|Hpos].
  - assert (Hq : n / 2147483648 = -1).
    { symmetry. apply (Z.div_unique n 2147483648 (-1) (n + 2147483648)); lia. }
    rewrite Hq. change (Int32.wrap (-1)) with (-1).
    rewrite Z.lxor_m1_r. unfold Z.lnot. split; [reflexivity|lia].
  - rewrite Z.div_small by lia. change (Int32.wrap 0) with 0.
    rewrite Z.lxor_0_r. split; [reflexivity|lia].
Qed.


Lemma bytes_app (l1 l2 : list Z) :
  Forall Varint.is_byte l1 -> Forall Varint.is_byte l2 -> Forall Varint.is_byte (l1 ++ l2).
Proof. intros H1 H2. apply Forall_app. split; assumption. Qed.



Lemma utf8_bytes (s : string) : Forall Varint.is_byte (utf8 s).
Proof.
  unfold utf8. apply Forall_map. apply Forall_forall. intros c _.
  pose proof (nat_ascii_bounded c). unfold Varint.is_byte. lia.
Qed.





(** Closed goals over concrete inputs, by evaluation. *)
Ltac by_evaluation :=
  vm_compute;
  repeat match goal with
         | |- _ /\ _ => split
         | |- _ <> _ => discriminate
         | |- _ = _ => reflexivity
         | |- _ -> False => let H := fresh in intros H; discriminate H
         end.


Lemma generateTilePbf_ignores_properties_witness :
  generateTilePbf RefMath.libm {| features := [Examples.tokyo] |} 10 909 403
  = generateTilePbf RefMath.libm {| features := [Examples.tokyo_bare] |} 10 909 403.
Proof.
  apply (generateTilePbf_ignores_properties RefMath.libm
           {| features := [Examples.tokyo] |}
           {| features := [Examples.tokyo_bare] |} 10 909 403).
  repeat constructor.
Defined.

(** ** Comparisons of binary64 numbers *)

Module FloatFacts.

Lemma is_nan_Prim2SF (x : float) : is_nan x = true -> Prim2SF x = S754_nan.
Proof. intros H. unfold Prim2SF. rewrite H. reflexivity. Qed.

Lemma not_nan_Prim2SF (x : float) : is_nan x = false -> Prim2SF x <> S754_nan.
Proof.
  intros H. unfold Prim2SF. rewrite H.
  destruct (is_zero x); [discriminate|].
  destruct (is_infinity x); [discriminate|].
  destruct (Z.frexp x) as [r ex].
  destruct (shr_fexp prec emax _ _ _) as [sh e'].
  destruct (shr_m sh); discriminate.
Qed.

Lemma SFcompare_nan_l (y : spec_float) : SFcompare S754_nan y = None.
Proof. reflexivity. Qed.

Lemma SFcompare_nan_r (x : spec_float) : SFcompare x S754_nan = None.
Proof. destruct x; reflexivity. Qed.

Lemma leb_nan_l (x y : float) : is_nan x = true -> (x <=? y)%float = false.
Proof. intros H. rewrite leb_spec, (is_nan_Prim2SF x H). reflexivity. Qed.

Lemma leb_nan_r (x y : float) : is_nan y = true -> (x <=? y)%float = false.
Proof.
  intros H. rewrite leb_spec, (is_nan_Prim2SF y H).
  unfold SFleb. rewrite SFcompare_nan_r. reflexivity.
Qed.

Lemma SFcompare_antisym (a b : spec_float) :
  SFcompare b a = option_map CompOpp (SFcompare a b).
Proof.
  destruct a as [sa|sa| |sa ma ea], b as [sb|sb| |sb mb eb]; simpl;
    try reflexivity;
    try (destruct sa; reflexivity); try (destruct sb; reflexivity);
    try (destruct sa, sb; reflexivity).
  destruct sa, sb; simpl; try reflexivity;
    rewrite (Z.compare_antisym ea eb);
    destruct (ea ?= eb); simpl; try reflexivity;
    rewrite (Pos.compare_cont_antisym ma mb Eq); simpl;
    try rewrite CompOpp_involutive; reflexivity.
Qed.

Lemma SFcompare_total (a b : spec_float) :
  a <> S754_nan -> b <> S754_nan -> exists c, SFcompare a b = Some c.
Proof.
  intros Ha Hb.
  destruct a as [sa|sa| |sa ma ea], b as [sb|sb| |sb mb eb]; simpl;
    try contradiction; eexists; reflexivity.
Qed.

Lemma SFcompare_refl (a : spec_float) :
  a <> S754_nan -> SFcompare a a = Some Eq.
Proof.
  intros Ha. destruct a as [sa|sa| |sa ma ea]; simpl; try contradiction.
  - reflexivity.
  - destruct sa; reflexivity.
  - rewrite Z.compare_refl, Pos.compare_cont_refl. destruct sa; reflexivity.
Qed.

Lemma ltb_leb (a b : float) : (a <? b)%float = true -> (a <=? b)%float = true.
Proof.
  rewrite ltb_spec, leb_spec. unfold SFltb, SFleb.
  destruct (SFcompare _ _) as [[| |]|]; congruence.
Qed.

Lemma ltb_false_leb (a b : float) :
  is_nan a = false -> is_nan b = false ->
  (a <? b)%float = false -> (b <=? a)%float = true.
Proof.
  intros Ha Hb. rewrite ltb_spec, leb_spec. unfold SFltb, SFleb.
  rewrite (SFcompare_antisym (Prim2SF a) (Prim2SF b)).
  destruct (SFcompare_total _ _ (not_nan_Prim2SF a Ha) (not_nan_Prim2SF b Hb))
    as [c ->].
  destruct c; simpl; congruence.
Qed.

Lemma leb_refl (a : float) : is_nan a = false -> (a <=? a)%float = true.
Proof.
  intros Ha. rewrite leb_spec. unfold SFleb.
  rewrite SFcompare_refl by (apply not_nan_Prim2SF; exact Ha). reflexivity.
Qed.

Lemma leb_not_nan (a b : float) :
  (a <=? b)%float = true -> is_nan a = false /\ is_nan b = false.
Proof.
  intros H. split.
  - destruct (is_nan a) eqn:E; [|reflexivity]. rewrite leb_nan_l in H by exact E. discriminate.
  - destruct (is_nan b) eqn:E; [|reflexivity]. rewrite leb_nan_r in H by exact E. discriminate.
Qed.

End FloatFacts.

(** ** Malformed coordinates *)

Lemma in_bbox_nan (lon lat w s e n : float) :
  is_nan lon = true \/ is_nan lat = true -> in_bbox lon lat w s e n = false.
Proof.
  unfold in_bbox. intros [H|H].
  - rewrite (FloatFacts.leb_nan_r w lon H). reflexivity.
  - rewrite (FloatFacts.leb_nan_r s lat H).
    destruct (w <=? lon)%float, (lon <=? e)%float; reflexivity.
Qed.

Lemma survivors_drop (fs1 fs2 : list Feature) (f : Feature) (w s e n : float) :
  in_bbox (longitude f) (latitude f) w s e n = false ->
  survivors (fs1 ++ f :: fs2) w s e n = survivors (fs1 ++ fs2) w s e n.
Proof.
  intros H. unfold survivors. rewrite !filter_app. cbn [filter].
  rewrite H. reflexivity.
Qed.

(** C4, as stated, fails: a point with a NaN longitude and a point at
    latitude 95 are left out without any signal; the payload is the one of
    the collection without them, and it is a regular payload. *)
Lemma malformed_points_counterexample :
  generateTilePbf RefMath.libm
    {| features := [Examples.nan_point; Examples.beyond_pole; Examples.tokyo] |}
    10 909 403
  = generateTilePbf RefMath.libm {| features := [Examples.tokyo] |} 10 909 403
  /\ generateTilePbf RefMath.libm {| features := [Examples.tokyo] |} 10 909 403 <> []
  /\ generateTilePbf RefMath.libm
       {| features := [Examples.nan_point; Examples.beyond_pole] |} 0 0 0 = [].
Proof. by_evaluation. Qed.

(** C4 (amended): a feature whose longitude or latitude is NaN, and any
    other feature that fails the containment test of the tile, is left out
    silently: [generateTilePbf] returns what it returns for the collection
    without that feature. *)
Theorem generateTilePbf_drops_malformed (libm : JsNum.Libm)
    (fs1 fs2 : list Feature) (f : Feature) (z : Z) (x y : float) :
  (is_nan (longitude f) = true
   \/ is_nan (latitude f) = true
   \/ (let '(w, s, e, n) := tileBbox libm z x y in
       in_bbox (longitude f) (latitude f) w s e n = false)) ->
  generateTilePbf libm {| features := fs1 ++ f :: fs2 |} z x y
  = generateTilePbf libm {| features := fs1 ++ fs2 |} z x y.
Proof.
  intros H. rewrite !generateTilePbf_survivors. cbn [features].
  destruct (tileBbox libm z x y) as [[[w s] e] n].
  assert (Hout : in_bbox (longitude f) (latitude f) w s e n = false).
  { destruct H as [H|[H|H]]; [apply in_bbox_nan; left; exact H
                             |apply in_bbox_nan; right; exact H|exact H]. }
  rewrite (survivors_drop fs1 fs2 f w s e n Hout). reflexivity.
Qed.

Lemma generateTilePbf_drops_malformed_witness :
  generateTilePbf RefMath.libm
    {| features := [Examples.osaka] ++ Examples.nan_point :: [Examples.tokyo] |}
    10 909 403
  = generateTilePbf RefMath.libm
      {| features := [Examples.osaka] ++ [Examples.tokyo] |} 10 909 403.
Proof.
  apply (generateTilePbf_drops_malformed RefMath.libm
           [Examples.osaka] [Examples.tokyo] Examples.nan_point 10 909 403).
  left. reflexivity.
Defined.

(** ** The tile range is clamped *)

Lemma maxIndex_facts (z : Z) :
  0 <= z <= 24 ->
  Int32.shl 1 z - 1 = 2 ^ z - 1
  /\ is_nan (JsNum.of_Z (2 ^ z - 1)) = false
  /\ (0 <=? JsNum.of_Z (2 ^ z - 1))%float = true.
Proof.
  intros Hz.
  assert (H : maxIndex_check z = true).
  { rewrite <- (Z2Nat.id z) by lia.
    assert (Hn : (Z.to_nat z <= 24)%nat) by lia.
    revert Hn. generalize (Z.to_nat z). intros n.
    do 25 (destruct n as [|n]; [intros _; vm_compute; reflexivity|]).
    intros Hn. lia. }
  unfold maxIndex_check in H.
  apply andb_prop in H. destruct H as [H H3].
  apply andb_prop in H. destruct H as [H1 H2].
  apply Z.eqb_eq in H1. apply negb_true_iff in H2. auto.
Qed.

Lemma Math_min_not_nan (v m : float) :
  is_nan v = false -> is_nan m = false ->
  is_nan (JsNum.Math_min v m) = false /\ (JsNum.Math_min v m <=? m)%float = true.
Proof.
  intros Hv Hm. unfold JsNum.Math_min. rewrite Hv, Hm. cbn [orb].
  destruct (v <? m)%float eqn:E1.
  - split; [exact Hv|apply FloatFacts.ltb_leb; exact E1].
  - destruct (m <? v)%float eqn:E2.
    + split; [exact Hm|apply FloatFacts.leb_refl; exact Hm].
    + destruct (get_sign v).
      * split; [exact Hv|apply FloatFacts.ltb_false_leb; assumption].
      * split; [exact Hm|apply FloatFacts.leb_refl; exact Hm].
Qed.

Lemma Math_max_zero (u m : float) :
  is_nan u = false -> (u <=? m)%float = true -> (0 <=? m)%float = true ->
  (0 <=? JsNum.Math_max 0 u)%float = true /\ (JsNum.Math_max 0 u <=? m)%float = true.
Proof.
  intros Hu Hle H0. unfold JsNum.Math_max. rewrite Hu.
  change (is_nan 0) with false. cbn [orb]. change (get_sign 0) with false.
  destruct (0 <? u)%float eqn:E1.
  - split; [apply FloatFacts.ltb_leb; exact E1|exact Hle].
  - destruct (u <? 0)%float; split; try reflexivity; exact H0.
Qed.

Lemma clamp_range (v : float) (z : Z) :
  0 <= z <= 24 -> is_nan v = false ->
  in_index_range
    (JsNum.Math_max 0 (JsNum.Math_min v (JsNum.of_Z (Int32.shl 1 z - 1)))) z.
Proof.
  intros Hz Hv. destruct (maxIndex_facts z Hz) as (E & Hm & H0).
  rewrite E. destruct (Math_min_not_nan v _ Hv Hm) as [Hu Hle].
  exact (Math_max_zero _ _ Hu Hle H0).
Qed.

Lemma clamp_nan (v m : float) :
  is_nan v = true -> JsNum.Math_max 0 (JsNum.Math_min v m) = nan.
Proof.
  intros Hv. unfold JsNum.Math_min. rewrite Hv. cbn [orb]. reflexivity.
Qed.

Lemma clamp_clamped (raw : float) (z : Z) :
  0 <= z <= 24 ->
  clamped raw
    (JsNum.Math_max 0 (JsNum.Math_min raw (JsNum.of_Z (Int32.shl 1 z - 1)))) z.
Proof.
  intros Hz. split; intros Hraw.
  - apply clamp_range; assumption.
  - rewrite clamp_nan by exact Hraw. reflexivity.
Qed.

(** C7, as stated, fails: [Math.min] and [Math.max] return NaN on NaN, so
    a NaN west edge, or a north edge beyond the pole (where [Math.log]
    receives a negative number), gives a NaN index. *)
Lemma getTileRangeFromBBox_counterexample :
  (let '(xMin, _, _, _) :=
     getTileRangeFromBBox RefMath.libm (nan, 35.6, 139.8, 35.7)%float 10 in
   is_nan xMin = true /\ (0 <=? xMin)%float = false)
  /\ (let '(_, _, yMin, _) :=
        getTileRangeFromBBox RefMath.libm (139.7, 35.6, 139.8, 100)%float 10 in
      is_nan yMin = true /\ (0 <=? yMin)%float = false).
Proof. by_evaluation. Qed.

(** C7 (amended): for a zoom level from 0 to 24, each of the four indices
    returned by [getTileRangeFromBBox] lies in [0, 2^z - 1] whenever its
    unclamped value ([long2tileX] or [lat2tileY] of the box edge) is a
    number; when that value is NaN the index is NaN. *)
Theorem getTileRangeFromBBox_clamped (libm : JsNum.Libm)
    (west south east north : float) (z : Z) :
  0 <= z <= 24 ->
  let '(xMin, xMax, yMin, yMax) :=
    getTileRangeFromBBox libm (west, south, east, north) z in
  clamped (long2tileX west z) xMin z
  /\ clamped (long2tileX east z) xMax z
  /\ clamped (lat2tileY libm north z) yMin z
  /\ clamped (lat2tileY libm south z) yMax z.
Proof.
  intros Hz. unfold getTileRangeFromBBox.
  split; [|split; [|split]]; apply clamp_clamped; exact Hz.
Qed.

Lemma getTileRangeFromBBox_clamped_witness :
  let '(xMin, xMax, yMin, yMax) :=
    getTileRangeFromBBox RefMath.libm (139.7, 35.6, 139.8, 35.7)%float 10 in
  clamped (long2tileX 139.7 10) xMin 10
  /\ clamped (long2tileX 139.8 10) xMax 10
  /\ clamped (lat2tileY RefMath.libm 35.7 10) yMin 10
  /\ clamped (lat2tileY RefMath.libm 35.6 10) yMax 10.
Proof.
  apply (getTileRangeFromBBox_clamped RefMath.libm 139.7 35.6 139.8 35.7 10).
  lia.
Defined.

(** * Binary64 arithmetic

    What the operations of JavaScript numbers compute, from the
    specification of the primitive floats: every operation on finite
    numbers returns the rounding to nearest (ties to even) of the exact
    result, and rounding is monotone. *)

Module Binary64Facts.

Import Binary64.

Lemma bpow_pos (e : Z) : (0 < bpow e)%R.
Proof. apply powerRZ_lt. lra. Qed.

Lemma bpow_add (a b : Z) : bpow (a + b) = (bpow a * bpow b)%R.
Proof. apply powerRZ_add. lra. Qed.

Lemma bpow_0 : bpow 0 = 1%R.
Proof. reflexivity. Qed.

Lemma bpow_1 : bpow 1 = 2%R.
Proof. unfold bpow. simpl. lra. Qed.

Lemma bpow_succ (e : Z) : bpow (e + 1) = (2 * bpow e)%R.
Proof. rewrite bpow_add, bpow_1. lra. Qed.

Lemma bpow_IZR (n : Z) : 0 <= n -> bpow n = IZR (2 ^ n).
Proof.
  intros Hn. pattern n. apply natlike_ind; [reflexivity| |exact Hn].
  intros k Hk IH. unfold Z.succ. rewrite bpow_succ, IH.
  rewrite Z.pow_add_r by lia. change (2 ^ 1) with 2.
  rewrite mult_IZR. lra.
Qed.

Lemma bpow_le (a b : Z) : a <= b -> (bpow a <= bpow b)%R.
Proof.
  intros H. replace b with (a + (b - a)) by lia. rewrite bpow_add.
  rewrite (bpow_IZR (b - a)) by lia.
  assert (1 <= IZR (2 ^ (b - a)))%R.
  { apply IZR_le. pose proof (Z.pow_pos_nonneg 2 (b - a)). lia. }
  pose proof (bpow_pos a). nra.
Qed.

Lemma bpow_lt (a b : Z) : a < b -> (bpow a < bpow b)%R.
Proof.
  intros H. replace b with (a + 1 + (b - a - 1)) by lia.
  rewrite bpow_add, bpow_succ.
  pose proof (bpow_le 0 (b - a - 1) ltac:(lia)) as H1. rewrite bpow_0 in H1.
  pose proof (bpow_pos a). nra.
Qed.

Lemma bpow_lt_inv (a b : Z) : (bpow a < bpow b)%R -> a < b.
Proof.
  intros H. destruct (Z_lt_dec a b); [assumption|].
  pose proof (bpow_le b a ltac:(lia)). lra.
Qed.

(** The number of binary digits. *)
Lemma digits2_pos_bounds (m : positive) :
  2 ^ (Zpos (digits2_pos m) - 1) <= Zpos m < 2 ^ Zpos (digits2_pos m).
Proof.
  induction m as [m IH|m IH|]; cbn [digits2_pos].
  - rewrite Pos2Z.inj_succ. unfold Z.succ.
    replace (Z.pos (digits2_pos m) + 1 - 1) with (Z.pos (digits2_pos m) - 1 + 1) by lia.
    rewrite !Z.pow_add_r by lia. change (2 ^ 1) with 2. lia.
  - rewrite Pos2Z.inj_succ. unfold Z.succ.
    replace (Z.pos (digits2_pos m) + 1 - 1) with (Z.pos (digits2_pos m) - 1 + 1) by lia.
    rewrite !Z.pow_add_r by lia. change (2 ^ 1) with 2. lia.
  - simpl. lia.
Qed.

Lemma digits_bpow (m : positive) :
  (bpow (Zpos (digits2_pos m) - 1) <= IZR (Zpos m) < bpow (Zpos (digits2_pos m)))%R.
Proof.
  pose proof (digits2_pos_bounds m) as [H1 H2].
  rewrite !bpow_IZR by lia. split; [apply IZR_le|apply IZR_lt]; assumption.
Qed.

Lemma located_bounds (v : R) (m e : Z) (l : location) :
  located v m e l -> (IZR m * bpow e <= v < (IZR m + 1) * bpow e)%R.
Proof.
  pose proof (bpow_pos e).
  destruct l as [|[| |]]; unfold located; intros; lra.
Qed.

Lemma located_unique (v : R) (m1 m2 e : Z) (l1 l2 : location) :
  located v m1 e l1 -> located v m2 e l2 -> m1 = m2 /\ l1 = l2.
Proof.
  intros H1 H2.
  pose proof (located_bounds _ _ _ _ H1) as B1.
  pose proof (located_bounds _ _ _ _ H2) as B2.
  pose proof (bpow_pos e) as He.
  assert (Hm : m1 = m2).
  { assert (IZR m1 < IZR m2 + 1)%R by nra.
    assert (IZR m2 < IZR m1 + 1)%R by nra.
    rewrite <- plus_IZR in *. apply lt_IZR in H, H0. lia. }
  subst m2. split; [reflexivity|].
  destruct l1 as [|[| |]], l2 as [|[| |]]; unfold located in *;
    try reflexivity; exfalso; lra.
Qed.

Lemma IZR_xO (p : positive) : IZR (Zpos p~0) = (2 * IZR (Zpos p))%R.
Proof. rewrite Pos2Z.inj_xO, mult_IZR. reflexivity. Qed.

Lemma IZR_xI (p : positive) : IZR (Zpos p~1) = (2 * IZR (Zpos p) + 1)%R.
Proof. rewrite Pos2Z.inj_xI, plus_IZR, mult_IZR. reflexivity. Qed.

Lemma shr_1_located (v : R) (mrs : shr_record) (e : Z) :
  0 <= shr_m mrs ->
  located v (shr_m mrs) e (loc_of_shr_record mrs) ->
  located v (shr_m (shr_1 mrs)) (e + 1) (loc_of_shr_record (shr_1 mrs))
  /\ 0 <= shr_m (shr_1 mrs)
  /\ shr_m (shr_1 mrs) = shr_m mrs / 2.
Proof.
  destruct mrs as [m r s]. cbn [shr_m]. intros Hm H.
  pose proof (bpow_pos e) as He.
  destruct m as [|p|p]; [| |lia].
  - destruct r, s; cbn in *; rewrite bpow_succ; repeat split; try lia; lra.
  - destruct p as [p|p|].
    + assert (Z.pos p~1 / 2 = Z.pos p).
      { rewrite Pos2Z.inj_xI. symmetry. apply (Z.div_unique _ 2 _ 1); lia. }
      destruct r, s; cbn [shr_1 shr_m loc_of_shr_record orb located] in *;
        rewrite bpow_succ; rewrite IZR_xI in H; repeat split; try lia; lra.
    + assert (Z.pos p~0 / 2 = Z.pos p).
      { rewrite Pos2Z.inj_xO. symmetry. apply (Z.div_unique _ 2 _ 0); lia. }
      destruct r, s; cbn [shr_1 shr_m loc_of_shr_record orb located] in *;
        rewrite bpow_succ; rewrite IZR_xO in H; repeat split; try lia; lra.
    + destruct r, s; cbn [shr_1 shr_m loc_of_shr_record orb located] in *;
        rewrite bpow_succ; repeat split; try lia; try reflexivity; lra.
Qed.

(** Iterating a step that moves the grid by one exponent. *)
Lemma iter_pos_located (v : R) (n : positive) :
  forall (mrs : shr_record) (e : Z),
    0 <= shr_m mrs ->
    located v (shr_m mrs) e (loc_of_shr_record mrs) ->
    located v (shr_m (iter_pos shr_1 n mrs)) (e + Zpos n)
            (loc_of_shr_record (iter_pos shr_1 n mrs))
    /\ 0 <= shr_m (iter_pos shr_1 n mrs)
    /\ shr_m (iter_pos shr_1 n mrs) = shr_m mrs / 2 ^ Zpos n.
Proof.
  induction n as [n IH|n IH|]; intros mrs e Hm H; cbn [iter_pos].
  - destruct (shr_1_located v mrs e Hm H) as (H1 & P1 & E1).
    destruct (IH _ _ P1 H1) as (H2 & P2 & E2).
    destruct (IH _ _ P2 H2) as (H3 & P3 & E3).
    replace (e + Z.pos n~1) with (e + 1 + Z.pos n + Z.pos n) by lia.
    repeat split; try assumption.
    rewrite E3, E2, E1. rewrite !Z.div_div by lia.
    f_equal. replace (Z.pos n~1) with (1 + Z.pos n + Z.pos n) by lia.
    rewrite !Z.pow_add_r by lia. change (2 ^ 1) with 2. ring.
  - destruct (IH _ _ Hm H) as (H2 & P2 & E2).
    destruct (IH _ _ P2 H2) as (H3 & P3 & E3).
    replace (e + Z.pos n~0) with (e + Z.pos n + Z.pos n) by lia.
    repeat split; try assumption.
    rewrite E3, E2. rewrite !Z.div_div by lia.
    f_equal. replace (Z.pos n~0) with (Z.pos n + Z.pos n) by lia.
    rewrite !Z.pow_add_r by lia. reflexivity.
  - destruct (shr_1_located v mrs e Hm H) as (H1 & P1 & E1).
    repeat split; assumption.
Qed.

Lemma loc_of_shr_record_of_loc (m : Z) (l : location) :
  loc_of_shr_record (shr_record_of_loc m l) = l
  /\ shr_m (shr_record_of_loc m l) = m.
Proof. destruct l as [|[| |]]; split; reflexivity. Qed.

Lemma fexp_fexp64 (k : Z) : fexp prec emax k = fexp64 k.
Proof. reflexivity. Qed.

Lemma mag_rel_mono (v1 v2 : R) (k1 k2 : Z) :
  mag_rel v1 k1 -> mag_rel v2 k2 -> (v1 <= v2)%R -> k1 <= k2.
Proof.
  intros [L1 U1] [L2 U2] Hv.
  assert (H : (bpow (k1 - 1) < bpow k2)%R) by lra.
  apply bpow_lt_inv in H. lia.
Qed.

Lemma mag_rel_unique (v : R) (k1 k2 : Z) :
  mag_rel v k1 -> mag_rel v k2 -> k1 = k2.
Proof.
  intros H1 H2.
  pose proof (mag_rel_mono _ _ _ _ H1 H2 ltac:(lra)).
  pose proof (mag_rel_mono _ _ _ _ H2 H1 ltac:(lra)). lia.
Qed.

Lemma located_mag (v : R) (p : positive) (e : Z) (l : location) :
  located v (Zpos p) e l -> mag_rel v (Zpos (digits2_pos p) + e).
Proof.
  intros H. apply located_bounds in H.
  pose proof (digits2_pos_bounds p) as [D1 D2].
  pose proof (bpow_pos e) as He.
  unfold mag_rel.
  replace (Z.pos (digits2_pos p) + e - 1) with (Z.pos (digits2_pos p) - 1 + e) by lia.
  rewrite !bpow_add.
  rewrite (bpow_IZR (Z.pos (digits2_pos p) - 1)) by lia.
  rewrite (bpow_IZR (Z.pos (digits2_pos p))) by lia.
  apply IZR_le in D1.
  assert (D3 : (IZR (Z.pos p) + 1 <= IZR (2 ^ Z.pos (digits2_pos p)))%R).
  { rewrite <- plus_IZR. apply IZR_le. lia. }
  destruct H as [H1 H2].
  split.
  - apply Rle_trans with (IZR (Z.pos p) * bpow e)%R; [|exact H1].
    apply Rmult_le_compat_r; lra.
  - apply Rlt_le_trans with ((IZR (Z.pos p) + 1) * bpow e)%R; [exact H2|].
    apply Rmult_le_compat_r; lra.
Qed.

Lemma trunc_lt_2p53 (v : R) (m e : Z) (l : location) :
  trunc v m e l -> m < 2 ^ 53.
Proof.
  intros (H & Hm & k & [L U] & ->).
  apply located_bounds in H. destruct H as [H _].
  assert (Hk : k <= fexp64 k + 53) by (unfold fexp64; lia).
  pose proof (bpow_le _ _ Hk) as Hb. rewrite bpow_add in Hb.
  pose proof (bpow_pos (fexp64 k)) as Hp.
  rewrite (bpow_IZR 53) in Hb by lia.
  assert (IZR m < IZR (2 ^ 53))%R by nra.
  apply lt_IZR. assumption.
Qed.

Lemma trunc_normal (v : R) (m e : Z) (l : location) :
  trunc v m e l -> -1074 < e -> 2 ^ 52 <= m.
Proof.
  intros (H & Hm & k & [L U] & ->) He.
  apply located_bounds in H. destruct H as [_ H].
  assert (Hk : fexp64 k = k - 53) by (unfold fexp64 in *; lia).
  rewrite Hk in *.
  replace (k - 1) with (52 + (k - 53)) in L by lia.
  rewrite bpow_add, (bpow_IZR 52) in L by lia.
  pose proof (bpow_pos (k - 53)) as Hp.
  assert (IZR (2 ^ 52) < IZR m + 1)%R by nra.
  rewrite <- plus_IZR in H0. apply lt_IZR in H0. lia.
Qed.

Lemma trunc_unique (v : R) (m1 m2 e1 e2 : Z) (l1 l2 : location) :
  trunc v m1 e1 l1 -> trunc v m2 e2 l2 -> m1 = m2 /\ e1 = e2 /\ l1 = l2.
Proof.
  intros (H1 & _ & k1 & M1 & ->) (H2 & _ & k2 & M2 & ->).
  rewrite (mag_rel_unique _ _ _ M1 M2) in *.
  destruct (located_unique _ _ _ _ _ _ H1 H2). auto.
Qed.

(** The first shift of [binary_round_aux] truncates on the grid. *)
Lemma shr_fexp_trunc (v : R) (p : positive) (e : Z) (l : location) :
  located v (Zpos p) e l ->
  e <= fexp64 (Zpos (digits2_pos p) + e) ->
  let '(mrs, e') := shr_fexp prec emax (Zpos p) e l in
  trunc v (shr_m mrs) e' (loc_of_shr_record mrs).
Proof.
  intros H He. unfold shr_fexp. cbn [Zdigits2]. rewrite fexp_fexp64.
  pose proof (located_mag _ _ _ _ H) as Hmag.
  destruct (loc_of_shr_record_of_loc (Zpos p) l) as [El Em].
  unfold shr.
  destruct (fexp64 (Z.pos (digits2_pos p) + e) - e) as [|n|n] eqn:En; [| |lia].
  - unfold trunc. rewrite El, Em. split; [exact H|]. split; [lia|].
    exists (Z.pos (digits2_pos p) + e). split; [exact Hmag|lia].
  - destruct (iter_pos_located v n (shr_record_of_loc (Zpos p) l) e) as (H1 & P1 & _).
    + rewrite Em. lia.
    + rewrite El, Em. exact H.
    + unfold trunc. split; [exact H1|]. split; [exact P1|].
      exists (Z.pos (digits2_pos p) + e). split; [exact Hmag|lia].
Qed.

Lemma binary_round_aux_canon (s : bool) (m e : Z) (l : location) :
  binary_round_aux prec emax s m e l =
  let '(mrs, e') := shr_fexp prec emax m e l in
  round_canon s (shr_m mrs) e' (loc_of_shr_record mrs).
Proof.
  unfold binary_round_aux, round_canon.
  destruct (shr_fexp prec emax m e l) as [mrs e']. reflexivity.
Qed.

Lemma round_nearest_even_cases (m : Z) (l : location) :
  round_nearest_even m l = m \/ round_nearest_even m l = m + 1.
Proof.
  destruct l as [|[| |]]; cbn; auto. destruct (Z.even m); auto.
Qed.

Lemma digits_le_53 (q : positive) : Zpos q < 2 ^ 53 -> Zpos (digits2_pos q) <= 53.
Proof.
  intros H. pose proof (digits2_pos_bounds q) as [D1 _].
  destruct (Z_le_dec (Zpos (digits2_pos q)) 53); [assumption|].
  assert (2 ^ 53 <= 2 ^ (Zpos (digits2_pos q) - 1)) by (apply Z.pow_le_mono_r; lia).
  lia.
Qed.

(** What [round_canon] returns, by the rounded mantissa. *)
Lemma round_canon_cases (s : bool) (m e : Z) (l : location) :
  -1074 <= e -> 0 <= m < 2 ^ 53 ->
  let m' := round_nearest_even m l in
  (m' = 0 /\ round_canon s m e l = S754_zero s)
  \/ (exists q, m' = Zpos q /\ Zpos q < 2 ^ 53
        /\ round_canon s m e l =
           if e <=? 971 then S754_finite s q e else S754_infinity s)
  \/ (m' = 2 ^ 53
        /\ round_canon s m e l =
           if e + 1 <=? 971 then S754_finite s (2 ^ 52) (e + 1)
           else S754_infinity s).
Proof.
  intros He Hm. cbn zeta. unfold round_canon.
  destruct (round_nearest_even_cases m l) as [E|E]; rewrite E.
  - destruct m as [|q|q]; [| |lia].
    + left. split; [reflexivity|].
      unfold shr_fexp, shr. cbn [Zdigits2]. rewrite fexp_fexp64.
      destruct (fexp64 (0 + e) - e) eqn:En;
        try reflexivity. unfold fexp64 in En. lia.
    + right. left. exists q. split; [reflexivity|]. split; [lia|].
      unfold shr_fexp, shr. cbn [Zdigits2]. rewrite fexp_fexp64.
      pose proof (digits_le_53 q ltac:(lia)).
      destruct (fexp64 (Z.pos (digits2_pos q) + e) - e) eqn:En;
        try reflexivity. unfold fexp64 in En. lia.
  - destruct (Z.eq_dec (m + 1) (2 ^ 53)) as [E2|E2].
    + right. right. split; [exact E2|]. rewrite E2.
      unfold shr_fexp, shr. rewrite fexp_fexp64.
      change (Zdigits2 (2 ^ 53)) with 54.
      replace (fexp64 (54 + e) - e) with 1 by (unfold fexp64; lia).
      reflexivity.
    + right. left. destruct (m + 1) as [|q|q] eqn:Eq; [lia| |lia].
      exists q. split; [reflexivity|]. split; [lia|].
      unfold shr_fexp, shr. cbn [Zdigits2]. rewrite fexp_fexp64.
      pose proof (digits_le_53 q ltac:(lia)).
      destruct (fexp64 (Z.pos (digits2_pos q) + e) - e) eqn:En;
        try reflexivity. unfold fexp64 in En. lia.
Qed.

Lemma round_canon_opp (m e : Z) (l : location) :
  round_canon true m e l = SFopp (round_canon false m e l).
Proof.
  unfold round_canon.
  destruct (shr_fexp prec emax (round_nearest_even m l) e loc_Exact) as [mrs e'].
  destruct (shr_m mrs); try reflexivity.
  destruct (e' <=? emax - prec); reflexivity.
Qed.

Lemma key_opp (x : spec_float) : key (SFopp x) = (- key x)%R.
Proof. destruct x as [s|s| |s m e]; try destruct s; cbn; lra. Qed.

(** The value of the rounding of [v], from its truncation. *)
Lemma round_canon_key (v : R) (m e : Z) (l : location) :
  trunc v m e l ->
  key (round_canon false m e l)
  = Rmin (IZR (round_nearest_even m l) * bpow e) (bpow 1024)
  /\ round_canon false m e l <> S754_nan.
Proof.
  intros T.
  pose proof (trunc_lt_2p53 _ _ _ _ T) as Hlt.
  pose proof (trunc_normal _ _ _ _ T) as Hnorm.
  destruct T as (H & Hm & k & Hk & He).
  assert (He' : -1074 <= e) by (rewrite He; unfold fexp64; lia).
  pose proof (bpow_pos e) as Hp.
  destruct (round_canon_cases false m e l He' (conj Hm Hlt))
    as [[E1 E2]|[(q & E1 & Hq & E2)|[E1 E2]]]; rewrite E1, E2.
  - split; [|discriminate]. cbn [key]. rewrite Rmin_left; [lra|].
    pose proof (bpow_pos 1024). lra.
  - destruct (Z.leb_spec e 971) as [Hle|Hgt].
    + split; [|discriminate]. cbn [key]. rewrite Rmin_left; [reflexivity|].
      apply Rle_trans with (IZR (2 ^ 53) * bpow e)%R.
      * apply Rmult_le_compat_r; [lra|]. apply IZR_le. lia.
      * rewrite <- (bpow_IZR 53), <- bpow_add by lia. apply bpow_le. lia.
    + split; [|discriminate]. cbn [key]. rewrite Rmin_right; [reflexivity|].
      assert (Hm52 : 2 ^ 52 <= Zpos q).
      { specialize (Hnorm ltac:(lia)).
        destruct (round_nearest_even_cases m l) as [E|E]; rewrite E in E1; lia. }
      apply Rle_trans with (IZR (2 ^ 52) * bpow e)%R.
      * rewrite <- (bpow_IZR 52), <- bpow_add by lia. apply bpow_le. lia.
      * apply Rmult_le_compat_r; [lra|]. apply IZR_le. lia.
  - destruct (Z.leb_spec (e + 1) 971) as [Hle|Hgt].
    + split; [|discriminate]. cbn [key].
      change (IZR (Z.pos (2 ^ 52))) with (IZR (2 ^ 52)).
      rewrite <- (bpow_IZR 52), <- (bpow_IZR 53), <- !bpow_add by lia.
      replace (52 + (e + 1)) with (53 + e) by lia.
      rewrite Rmin_left; [reflexivity|]. apply bpow_le. lia.
    + split; [|discriminate]. cbn [key].
      rewrite <- (bpow_IZR 53), <- !bpow_add by lia.
      rewrite Rmin_right; [reflexivity|]. apply bpow_le. lia.
Qed.

Lemma round_nearest_even_ge (m : Z) (l : location) : m <= round_nearest_even m l.
Proof. destruct (round_nearest_even_cases m l); lia. Qed.

Lemma round_nearest_even_le (m : Z) (l : location) : round_nearest_even m l <= m + 1.
Proof. destruct (round_nearest_even_cases m l); lia. Qed.

(** Rounding to nearest even is monotone on the reals. *)
Lemma round_nearest_even_mono (v1 v2 : R) (m1 m2 e1 e2 : Z) (l1 l2 : location) :
  trunc v1 m1 e1 l1 -> trunc v2 m2 e2 l2 -> (v1 <= v2)%R ->
  (IZR (round_nearest_even m1 l1) * bpow e1
   <= IZR (round_nearest_even m2 l2) * bpow e2)%R.
Proof.
  intros T1 T2 Hv.
  pose proof (trunc_lt_2p53 _ _ _ _ T1) as Hlt1.
  pose proof (trunc_normal _ _ _ _ T2) as Hnorm2.
  destruct T1 as (H1 & P1 & k1 & K1 & E1), T2 as (H2 & P2 & k2 & K2 & E2).
  pose proof (mag_rel_mono _ _ _ _ K1 K2 Hv) as Hk.
  assert (He : e1 <= e2) by (rewrite E1, E2; unfold fexp64; lia).
  pose proof (bpow_pos e1) as Hp1. pose proof (bpow_pos e2) as Hp2.
  destruct (Z.eq_dec e1 e2) as [Heq|Hne].
  - rewrite <- Heq in *. clear He Heq. apply Rmult_le_compat_r; [lra|]. apply IZR_le.
    pose proof (located_bounds _ _ _ _ H1) as B1.
    pose proof (located_bounds _ _ _ _ H2) as B2.
    pose proof (round_nearest_even_ge m2 l2).
    pose proof (round_nearest_even_le m1 l1).
    destruct (Z_lt_dec m1 m2) as [Hlt|Hge]; [lia|].
    assert (Hm : m1 = m2).
    { destruct (Z.eq_dec m1 m2); [assumption|exfalso].
      assert (Hm' : m2 + 1 <= m1) by lia.
      apply IZR_le in Hm'. rewrite plus_IZR in Hm'. nra. }
    subst m2.
    destruct l1 as [|[| |]], l2 as [|[| |]]; cbn [round_nearest_even located] in *;
      try lia; try (destruct (Z.even m1); lia); exfalso; lra.
  - assert (Hlt : e1 < e2) by lia.
    assert (Hmin : -1074 <= e1) by (rewrite E1; unfold fexp64; lia).
    specialize (Hnorm2 ltac:(lia)).
    apply Rle_trans with (IZR (2 ^ 53) * bpow e1)%R.
    + apply Rmult_le_compat_r; [lra|]. apply IZR_le.
      pose proof (round_nearest_even_le m1 l1). lia.
    + apply Rle_trans with (IZR (2 ^ 52) * bpow e2)%R.
      * rewrite <- (bpow_IZR 53), <- (bpow_IZR 52), <- !bpow_add by lia.
        apply bpow_le. lia.
      * apply Rmult_le_compat_r; [lra|]. apply IZR_le.
        pose proof (round_nearest_even_ge m2 l2). lia.
Qed.

Lemma round_canon_key_nonneg (v : R) (m e : Z) (l : location) :
  trunc v m e l -> (0 <= key (round_canon false m e l))%R.
Proof.
  intros T. destruct (round_canon_key _ _ _ _ T) as [-> _].
  destruct T as (_ & Hm & _).
  pose proof (bpow_pos e). pose proof (bpow_pos 1024).
  pose proof (round_nearest_even_ge m l).
  assert (0 <= IZR (round_nearest_even m l))%R by (apply IZR_le; lia).
  apply Rmin_glb; nra.
Qed.

Lemma rounds_not_nan (w : R) (r : spec_float) : rounds w r -> r <> S754_nan.
Proof.
  intros [[_ [s ->]]|[[_ (m & e & l & T & ->)]|[_ (m & e & l & T & ->)]]].
  - discriminate.
  - apply (round_canon_key _ _ _ _ T).
  - rewrite round_canon_opp. destruct (round_canon_key _ _ _ _ T) as [_ H].
    destruct (round_canon false m e l); try discriminate. contradiction.
Qed.

Theorem rounds_mono (w1 w2 : R) (r1 r2 : spec_float) :
  rounds w1 r1 -> rounds w2 r2 -> (w1 <= w2)%R -> (key r1 <= key r2)%R.
Proof.
  intros [[Z1 [s1 ->]]|[[Q1 (m1 & e1 & l1 & T1 & ->)]|[N1 (m1 & e1 & l1 & T1 & ->)]]]
         [[Z2 [s2 ->]]|[[Q2 (m2 & e2 & l2 & T2 & ->)]|[N2 (m2 & e2 & l2 & T2 & ->)]]]
         Hw;
    try (exfalso; lra);
    rewrite ?round_canon_opp, ?key_opp;
    try pose proof (round_canon_key_nonneg _ _ _ _ T1);
    try pose proof (round_canon_key_nonneg _ _ _ _ T2);
    cbn [key]; try lra.
  - destruct (round_canon_key _ _ _ _ T1) as [-> _].
    destruct (round_canon_key _ _ _ _ T2) as [-> _].
    pose proof (round_nearest_even_mono _ _ _ _ _ _ _ _ T1 T2 Hw).
    apply Rle_min_compat_r. assumption.
  - destruct (round_canon_key _ _ _ _ T1) as [-> _].
    destruct (round_canon_key _ _ _ _ T2) as [-> _].
    pose proof (round_nearest_even_mono _ _ _ _ _ _ _ _ T2 T1 ltac:(lra)).
    apply Ropp_le_contravar. apply Rle_min_compat_r. assumption.
Qed.

(** A valid finite float is its own rounding. *)
Lemma valid_trunc (m : positive) (e : Z) :
  bounded prec emax m e = true ->
  trunc (IZR (Zpos m) * bpow e) (Zpos m) e loc_Exact
  /\ Zpos m < 2 ^ 53 /\ -1074 <= e <= 971.
Proof.
  unfold bounded, canonical_mantissa. rewrite fexp_fexp64.
  intros H. apply andb_prop in H. destruct H as [H1 H2].
  apply Z.eqb_eq in H1. apply Z.leb_le in H2.
  change (emax - prec) with 971 in H2.
  assert (Hl : located (IZR (Zpos m) * bpow e) (Zpos m) e loc_Exact) by reflexivity.
  split; [|split].
  - split; [exact Hl|]. split; [lia|].
    exists (Zpos (digits2_pos m) + e). split; [|lia].
    apply (located_mag _ _ _ _ Hl).
  - pose proof (digits2_pos_bounds m) as [_ D2].
    assert (Zpos (digits2_pos m) <= 53) by (unfold fexp64 in H1; lia).
    assert (2 ^ Zpos (digits2_pos m) <= 2 ^ 53) by (apply Z.pow_le_mono_r; lia).
    lia.
  - unfold fexp64 in H1. lia.
Qed.

Lemma round_canon_exact (s : bool) (m : positive) (e : Z) :
  bounded prec emax m e = true ->
  round_canon s (Zpos m) e loc_Exact = S754_finite s m e.
Proof.
  intros H. destruct (valid_trunc m e H) as (T & Hlt & He).
  destruct (round_canon_cases s (Zpos m) e loc_Exact ltac:(lia) ltac:(lia))
    as [[E1 _]|[(q & E1 & _ & E2)|[E1 _]]]; cbn [round_nearest_even] in E1.
  - discriminate.
  - rewrite E2. injection E1 as <-.
    destruct (Z.leb_spec e 971); [reflexivity|lia].
  - lia.
Qed.

Theorem rounds_exact (s : bool) (m : positive) (e : Z) (r : spec_float) :
  bounded prec emax m e = true ->
  rounds (key (S754_finite s m e)) r -> r = S754_finite s m e.
Proof.
  intros Hb Hr. destruct (valid_trunc m e Hb) as (T & _ & _).
  pose proof (bpow_pos e) as Hp.
  assert (Hpos : (0 < IZR (Zpos m) * bpow e)%R).
  { apply Rmult_lt_0_compat; [apply IZR_lt; lia|exact Hp]. }
  destruct s; cbn [key] in Hr.
  - destruct Hr as [[Z1 _]|[[Q1 _]|[_ (m' & e' & l' & T' & ->)]]]; try (exfalso; lra).
    rewrite Ropp_involutive in T'.
    destruct (trunc_unique _ _ _ _ _ _ _ T T') as (<- & <- & <-).
    apply round_canon_exact. exact Hb.
  - destruct Hr as [[Z1 _]|[[_ (m' & e' & l' & T' & ->)]|[N1 _]]]; try (exfalso; lra).
    destruct (trunc_unique _ _ _ _ _ _ _ T T') as (<- & <- & <-).
    apply round_canon_exact. exact Hb.
Qed.

(** Every positive real has a magnitude. *)
Lemma bpow_exp (k : Z) : bpow k = exp (IZR k * ln 2).
Proof.
  unfold bpow. rewrite powerRZ_Rpower by lra. reflexivity.
Qed.

Lemma mag_exists (v : R) : (0 < v)%R -> exists k, mag_rel v k.
Proof.
  intros Hv.
  assert (Hln2 : (0 < ln 2)%R).
  { rewrite <- ln_1. apply ln_increasing; lra. }
  set (t := (ln v / ln 2)%R).
  destruct (archimed t) as [A1 A2].
  assert (Ht : (t * ln 2 = ln v)%R) by (unfold t; field; lra).
  clearbody t.
  exists (up t). unfold mag_rel. rewrite !bpow_exp, minus_IZR.
  rewrite <- (exp_ln v Hv).
  split.
  - destruct (Rle_lt_or_eq_dec (IZR (up t) - 1) t ltac:(lra)) as [Hlt|Heq].
    + left. apply exp_increasing. nra.
    + right. f_equal. nra.
  - apply exp_increasing. nra.
Qed.

(** [binary_round_aux] rounds the real number that its arguments locate. *)
Lemma binary_round_aux_trunc (v : R) (M E : Z) (l : location) :
  (0 < v)%R -> located v M E l -> 0 <= M ->
  E <= fexp64 (Zdigits2 M + E) -> (M = 0 -> E <= -1074) ->
  exists m e l',
    trunc v m e l'
    /\ forall s, binary_round_aux prec emax s M E l = round_canon s m e l'.
Proof.
  intros Hv H HM HE H0.
  destruct M as [|p|p]; [| |lia].
  - specialize (H0 eq_refl).
    destruct (mag_exists v Hv) as [k Hk].
    pose proof (located_bounds _ _ _ _ H) as [_ B]. rewrite Rplus_0_l, Rmult_1_l in B.
    assert (Hke : k <= E).
    { destruct Hk as [L _]. assert (Hb : (bpow (k - 1) < bpow E)%R) by lra.
      apply bpow_lt_inv in Hb. lia. }
    destruct (shr_fexp prec emax 0 E l) as [mrs e'] eqn:Es.
    exists (shr_m mrs), e', (loc_of_shr_record mrs). split.
    + unfold shr_fexp, shr in Es. cbn [Zdigits2] in Es. rewrite fexp_fexp64 in Es.
      destruct (loc_of_shr_record_of_loc 0 l) as [El Em].
      destruct (fexp64 (0 + E) - E) as [|n|n] eqn:En;
        [| |unfold fexp64 in En; lia].
      * injection Es as <- <-. rewrite El, Em.
        split; [exact H|]. split; [lia|]. exists k. split; [exact Hk|].
        unfold fexp64 in *. lia.
      * injection Es as <- <-.
        destruct (iter_pos_located v n (shr_record_of_loc 0 l) E) as (H1 & P1 & _).
        { rewrite Em. lia. }
        { rewrite El, Em. exact H. }
        split; [exact H1|]. split; [exact P1|]. exists k. split; [exact Hk|].
        unfold fexp64 in *. lia.
    + intros s. rewrite binary_round_aux_canon, Es. reflexivity.
  - pose proof (shr_fexp_trunc v p E l H HE) as T.
    destruct (shr_fexp prec emax (Z.pos p) E l) as [mrs e'] eqn:Es.
    exists (shr_m mrs), e', (loc_of_shr_record mrs). split; [exact T|].
    intros s. rewrite binary_round_aux_canon, Es. reflexivity.
Qed.

Lemma binary_round_aux_rounds (v : R) (s : bool) (M E : Z) (l : location) :
  (0 < v)%R -> located v M E l -> 0 <= M ->
  E <= fexp64 (Zdigits2 M + E) -> (M = 0 -> E <= -1074) ->
  rounds (if s then - v else v)%R (binary_round_aux prec emax s M E l).
Proof.
  intros Hv H HM HE H0.
  destruct (binary_round_aux_trunc v M E l Hv H HM HE H0) as (m & e & l' & T & Eq).
  rewrite Eq. destruct s.
  - right. right. split; [lra|]. exists m, e, l'. rewrite Ropp_involutive. auto.
  - right. left. split; [lra|]. exists m, e, l'. auto.
Qed.

(** Multiplication. *)
Lemma digits_mul (a b : positive) :
  Zpos (digits2_pos a) + Zpos (digits2_pos b) - 1 <= Zpos (digits2_pos (a * b)).
Proof.
  pose proof (digits2_pos_bounds a) as [A1 _].
  pose proof (digits2_pos_bounds b) as [B1 _].
  pose proof (digits2_pos_bounds (a * b)) as [_ C2].
  set (da := Zpos (digits2_pos a)) in *. set (db := Zpos (digits2_pos b)) in *.
  set (dc := Zpos (digits2_pos (a * b))) in *.
  destruct (Z_le_dec (da + db - 1) dc); [assumption|exfalso].
  assert (H1 : 2 ^ dc <= 2 ^ (da - 1 + (db - 1))) by (apply Z.pow_le_mono_r; lia).
  rewrite Z.pow_add_r in H1 by lia.
  rewrite Pos2Z.inj_mul in C2.
  assert (0 < 2 ^ (da - 1)) by (apply Z.pow_pos_nonneg; lia).
  assert (0 < 2 ^ (db - 1)) by (apply Z.pow_pos_nonneg; lia).
  nia.
Qed.

Lemma canonical_fexp (m : positive) (e : Z) :
  bounded prec emax m e = true ->
  e = fexp64 (Zpos (digits2_pos m) + e) /\ e <= 971.
Proof.
  unfold bounded, canonical_mantissa. rewrite fexp_fexp64. intros H.
  apply andb_prop in H. destruct H as [H1 H2].
  apply Z.eqb_eq in H1. apply Z.leb_le in H2. change (emax - prec) with 971 in H2.
  split; [lia|exact H2].
Qed.

Lemma key_finite_abs (s : bool) (m : positive) (e : Z) :
  key (S754_finite s m e)
  = (if s then - (IZR (Zpos m) * bpow e) else IZR (Zpos m) * bpow e)%R.
Proof. reflexivity. Qed.

Lemma IZR_pos_bpow_pos (m : positive) (e : Z) : (0 < IZR (Zpos m) * bpow e)%R.
Proof. apply Rmult_lt_0_compat; [apply IZR_lt; lia|apply bpow_pos]. Qed.

Theorem SFmul_rounds (sx sy : bool) (mx my : positive) (ex ey : Z) :
  bounded prec emax mx ex = true -> bounded prec emax my ey = true ->
  rounds (key (S754_finite sx mx ex) * key (S754_finite sy my ey))
         (SFmul prec emax (S754_finite sx mx ex) (S754_finite sy my ey)).
Proof.
  intros Bx By. cbn [SFmul].
  destruct (canonical_fexp _ _ Bx) as [Cx _].
  destruct (canonical_fexp _ _ By) as [Cy _].
  pose proof (digits_mul mx my) as Hd.
  pose proof (IZR_pos_bpow_pos mx ex) as Px.
  pose proof (IZR_pos_bpow_pos my ey) as Py.
  set (v := (IZR (Zpos mx) * bpow ex * (IZR (Zpos my) * bpow ey))%R).
  assert (Hv : (0 < v)%R) by (unfold v; nra).
  assert (Hl : located v (Zpos (mx * my)) (ex + ey) loc_Exact).
  { unfold located, v. rewrite Pos2Z.inj_mul, mult_IZR, bpow_add. ring. }
  pose proof (binary_round_aux_rounds v (xorb sx sy) _ _ _ Hv Hl ltac:(lia)) as Hr.
  cbn [Zdigits2] in Hr.
  specialize (Hr ltac:(unfold fexp64 in *; lia) ltac:(discriminate)).
  rewrite !key_finite_abs.
  destruct sx, sy; cbn [xorb] in Hr;
    match goal with
    | H : rounds ?a _ |- rounds ?b _ => replace b with a; [exact H|unfold v; ring]
    end.
Qed.

Lemma iter_xO_spec (m d : positive) :
  Zpos (Pos.iter xO m d) = Zpos m * 2 ^ Zpos d
  /\ Zpos (digits2_pos (Pos.iter xO m d)) = Zpos (digits2_pos m) + Zpos d.
Proof.
  apply (Pos.iter_ind _ xO m
           (fun d a => Zpos a = Zpos m * 2 ^ Zpos d
                       /\ Zpos (digits2_pos a) = Zpos (digits2_pos m) + Zpos d)).
  - cbn [digits2_pos]. split; [lia|]. rewrite Pos2Z.inj_succ. lia.
  - intros p a [H1 H2]. cbn [digits2_pos].
    rewrite !Pos2Z.inj_succ, (Pos2Z.inj_xO a).
    unfold Z.succ. rewrite Z.pow_add_r by lia. change (2 ^ 1) with 2.
    split; lia.
Qed.

Lemma shl_align_spec (m : positive) (e e' : Z) :
  let '(mz, ez) := shl_align m e e' in
  (IZR (Zpos mz) * bpow ez = IZR (Zpos m) * bpow e)%R
  /\ ez = Z.min e e'
  /\ Zpos (digits2_pos mz) + ez = Zpos (digits2_pos m) + e.
Proof.
  unfold shl_align. destruct (e' - e) as [|d|d] eqn:Ed.
  - split; [reflexivity|]. split; lia.
  - split; [reflexivity|]. split; lia.
  - destruct (iter_xO_spec m d) as [H1 H2]. rewrite H1, H2.
    split; [|split; lia].
    rewrite mult_IZR, <- bpow_IZR by lia.
    replace e with (Zpos d + e') by lia. rewrite bpow_add. ring.
Qed.

Theorem binary_round_rounds (s : bool) (m : positive) (e : Z) :
  rounds (if s then - (IZR (Zpos m) * bpow e) else IZR (Zpos m) * bpow e)%R
         (binary_round prec emax s m e).
Proof.
  unfold binary_round. rewrite fexp_fexp64.
  pose proof (shl_align_spec m e (fexp64 (Zpos (digits2_pos m) + e))) as H.
  destruct (shl_align m e _) as [mz ez]. destruct H as (Hv & He & Hd).
  rewrite <- Hv.
  apply binary_round_aux_rounds.
  - apply IZR_pos_bpow_pos.
  - reflexivity.
  - lia.
  - cbn [Zdigits2]. rewrite Hd. lia.
  - discriminate.
Qed.

Theorem binary_normalize_rounds (S e : Z) :
  rounds (IZR S * bpow e) (binary_normalize prec emax S e false).
Proof.
  destruct S as [|p|p]; cbn [binary_normalize].
  - left. split; [lra|]. exists false. reflexivity.
  - apply (binary_round_rounds false).
  - replace (IZR (Z.neg p) * bpow e)%R with (- (IZR (Z.pos p) * bpow e))%R.
    + apply (binary_round_rounds true).
    + change (Z.neg p) with (- Z.pos p). rewrite opp_IZR. ring.
Qed.

(** Addition and subtraction. *)
Lemma shl_align_fst (m : positive) (e ez : Z) :
  ez <= e ->
  (IZR (Zpos (fst (shl_align m e ez))) * bpow ez = IZR (Zpos m) * bpow e)%R.
Proof.
  intros H. pose proof (shl_align_spec m e ez) as Hs.
  destruct (shl_align m e ez) as [mz ez']. destruct Hs as (Hv & He & _).
  cbn [fst]. rewrite <- Hv. f_equal. f_equal. lia.
Qed.

Lemma IZR_cond_Zopp (s : bool) (m : Z) :
  IZR (cond_Zopp s m) = (if s then - IZR m else IZR m)%R.
Proof. destruct s; cbn [cond_Zopp]; [apply opp_IZR|reflexivity]. Qed.

Theorem SFadd_rounds (sx sy : bool) (mx my : positive) (ex ey : Z) :
  rounds (key (S754_finite sx mx ex) + key (S754_finite sy my ey))
         (SFadd prec emax (S754_finite sx mx ex) (S754_finite sy my ey)).
Proof.
  cbn [SFadd]. cbn zeta.
  set (ez := Z.min ex ey).
  pose proof (shl_align_fst mx ex ez ltac:(lia)) as Hx.
  pose proof (shl_align_fst my ey ez ltac:(lia)) as Hy.
  match goal with
  | |- rounds ?w (binary_normalize _ _ ?S _ _) =>
      replace w with (IZR S * bpow ez)%R; [apply binary_normalize_rounds|]
  end.
  rewrite plus_IZR, !IZR_cond_Zopp, !key_finite_abs.
  destruct sx, sy; lra.
Qed.

Theorem SFsub_rounds (sx sy : bool) (mx my : positive) (ex ey : Z) :
  rounds (key (S754_finite sx mx ex) - key (S754_finite sy my ey))
         (SFsub prec emax (S754_finite sx mx ex) (S754_finite sy my ey)).
Proof.
  cbn [SFsub]. cbn zeta.
  set (ez := Z.min ex ey).
  pose proof (shl_align_fst mx ex ez ltac:(lia)) as Hx.
  pose proof (shl_align_fst my ey ez ltac:(lia)) as Hy.
  match goal with
  | |- rounds ?w (binary_normalize _ _ ?S _ _) =>
      replace w with (IZR S * bpow ez)%R; [apply binary_normalize_rounds|]
  end.
  rewrite minus_IZR, !IZR_cond_Zopp, !key_finite_abs.
  destruct sx, sy; lra.
Qed.

(** The location of a remainder. *)
Lemma new_location_spec (nb k : Z) :
  0 < nb -> 0 <= k < nb ->
  match new_location nb k with
  | loc_Exact => k = 0
  | loc_Inexact Lt => 0 < k /\ 2 * k < nb
  | loc_Inexact Eq => 0 < k /\ 2 * k = nb
  | loc_Inexact Gt => 0 < k /\ nb < 2 * k
  end.
Proof.
  intros Hnb Hk. unfold new_location, new_location_even, new_location_odd.
  destruct (Z.even nb) eqn:Ev.
  - destruct (Z.eqb_spec k 0) as [->|Hk0]; [reflexivity|].
    destruct (Z.compare_spec (2 * k) nb); lia.
  - destruct (Z.eqb_spec k 0) as [->|Hk0]; [reflexivity|].
    assert (Hodd : Z.odd nb = true) by (rewrite <- Z.negb_even, Ev; reflexivity).
    apply Z.odd_spec in Hodd. destruct Hodd as [h Hh].
    destruct (Z.compare_spec (2 * k + 1) nb); lia.
Qed.

Lemma located_quotient (m' m2 q r e : Z) :
  0 < m2 -> m' = m2 * q + r -> 0 <= r < m2 ->
  located (IZR m' / IZR m2 * bpow e) q e (new_location m2 r).
Proof.
  intros Hm2 Hdiv Hr.
  pose proof (new_location_spec m2 r Hm2 Hr) as Hl.
  pose proof (bpow_pos e) as Hp.
  assert (Hm2R : (0 < IZR m2)%R) by (apply IZR_lt; lia).
  assert (Hq : (IZR m' / IZR m2 = IZR q + IZR r / IZR m2)%R).
  { rewrite Hdiv, plus_IZR, mult_IZR. field. lra. }
  rewrite Hq.
  assert (Hr0 : (0 <= IZR r / IZR m2 < 1)%R).
  { split.
    - apply Rmult_le_pos; [apply IZR_le; lia|].
      apply Rlt_le, Rinv_0_lt_compat; lra.
    - apply (Rmult_lt_reg_r (IZR m2)); [lra|].
      unfold Rdiv. rewrite Rmult_assoc, Rinv_l by lra.
      rewrite Rmult_1_r, Rmult_1_l. apply IZR_lt. lia. }
  assert (Hscale : forall c : R,
            (IZR r / IZR m2 < c <-> IZR r < c * IZR m2)%R
            /\ (c < IZR r / IZR m2 <-> c * IZR m2 < IZR r)%R).
  { intros c. split; split; intros H.
    - apply (Rmult_lt_compat_r (IZR m2)) in H; [|lra].
      unfold Rdiv in H. rewrite Rmult_assoc, Rinv_l, Rmult_1_r in H by lra. exact H.
    - apply (Rmult_lt_reg_r (IZR m2)); [lra|].
      unfold Rdiv. rewrite Rmult_assoc, Rinv_l, Rmult_1_r by lra. exact H.
    - apply (Rmult_lt_compat_r (IZR m2)) in H; [|lra].
      unfold Rdiv in H. rewrite Rmult_assoc, Rinv_l, Rmult_1_r in H by lra. exact H.
    - apply (Rmult_lt_reg_r (IZR m2)); [lra|].
      unfold Rdiv. rewrite Rmult_assoc, Rinv_l, Rmult_1_r by lra. exact H. }
  set (f := (IZR r / IZR m2)%R) in *.
  destruct (new_location m2 r) as [|[| |]]; unfold located.
  - subst r. unfold f. unfold Rdiv. rewrite Rmult_0_l. ring.
  - destruct Hl as [Hl1 Hl2].
    assert (f = 1 / 2)%R.
    { unfold f. rewrite <- Hl2, mult_IZR. field.
      apply IZR_lt in Hl1. lra. }
    rewrite H. ring.
  - destruct Hl as [Hl1 Hl2].
    assert (0 < f)%R.
    { apply (Hscale 0%R). rewrite Rmult_0_l. apply IZR_lt. lia. }
    assert (f < 1 / 2)%R.
    { apply (Hscale (1 / 2)%R).
      apply IZR_lt in Hl2. rewrite mult_IZR in Hl2. lra. }
    split; nra.
  - destruct Hl as [Hl1 Hl2].
    assert (1 / 2 < f)%R.
    { apply (Hscale (1 / 2)%R).
      apply IZR_lt in Hl2. rewrite mult_IZR in Hl2. lra. }
    split; nra.
Qed.

(** Division. *)
Theorem SFdiv_rounds (sx sy : bool) (mx my : positive) (ex ey : Z) :
  bounded prec emax mx ex = true -> bounded prec emax my ey = true ->
  rounds (key (S754_finite sx mx ex) / key (S754_finite sy my ey))
         (SFdiv prec emax (S754_finite sx mx ex) (S754_finite sy my ey)).
Proof.
  intros Bx By. cbn [SFdiv]. unfold SFdiv_core_binary. cbn [Zdigits2].
  rewrite fexp_fexp64.
  pose proof (digits2_pos_bounds mx) as [Dx1 Dx2].
  pose proof (digits2_pos_bounds my) as [Dy1 Dy2].
  set (d1 := Zpos (digits2_pos mx)) in *. set (d2 := Zpos (digits2_pos my)) in *.
  assert (Hd1 : 1 <= d1) by (unfold d1; lia).
  assert (Hd2 : 1 <= d2) by (unfold d2; lia).
  set (K := d1 + ex - (d2 + ey)).
  set (e' := Z.min (fexp64 K) (ex - ey)).
  set (s := ex - ey - e').
  assert (Hs : 0 <= s) by (unfold s, e'; lia).
  set (m' := match s with
             | 0 => Z.pos mx
             | Z.pos _ => Z.shiftl (Z.pos mx) s
             | Z.neg _ => 0
             end).
  assert (Hm' : m' = Zpos mx * 2 ^ s).
  { unfold m'. destruct s as [|p|p] eqn:Es; [lia| |lia].
    rewrite Z.shiftl_mul_pow2 by lia. reflexivity. }
  clearbody m'.
  pose proof (Z_div_mod m' (Zpos my) ltac:(lia)) as Hdiv.
  destruct (Z.div_eucl m' (Z.pos my)) as [q r]. destruct Hdiv as [Hdiv Hr].
  pose proof (IZR_pos_bpow_pos mx ex) as Px.
  pose proof (IZR_pos_bpow_pos my ey) as Py.
  set (v := (IZR (Zpos mx) * bpow ex / (IZR (Zpos my) * bpow ey))%R).
  assert (Hv : (0 < v)%R) by (unfold v; apply Rdiv_lt_0_compat; assumption).
  assert (Ev : v = (IZR m' / IZR (Zpos my) * bpow e')%R).
  { unfold v. rewrite Hm', mult_IZR, <- bpow_IZR by lia.
    replace ex with (s + ey + e') by (unfold s; lia).
    rewrite !bpow_add.
    pose proof (bpow_pos ey). pose proof (bpow_pos e'). pose proof (bpow_pos s).
    assert (0 < IZR (Zpos my))%R by (apply IZR_lt; lia).
    field. split; lra. }
  pose proof (located_quotient m' (Zpos my) q r e' ltac:(lia) Hdiv Hr) as Hl.
  rewrite <- Ev in Hl.
  assert (Hs2 : 0 < 2 ^ s) by (apply Z.pow_pos_nonneg; lia).
  assert (Hq0 : 0 <= q).
  { assert (0 <= m') by nia. nia. }
  assert (Hnorm : -1074 < e' -> 2 ^ 52 <= q).
  { intros He'.
    assert (Hf : fexp64 K = K - 53) by (unfold e', fexp64 in *; lia).
    assert (Ht : 52 <= d1 + s - d2 - 1) by (unfold s, e', K in *; lia).
    assert (2 ^ (52 + d2) <= 2 ^ (d1 - 1 + s)) by (apply Z.pow_le_mono_r; lia).
    rewrite !Z.pow_add_r in H by lia.
    assert (2 ^ 52 * Zpos my <= m') by nia.
    destruct (Z_le_dec (2 ^ 52) q); [assumption|exfalso]. nia. }
  assert (Hcond : e' <= fexp64 (Zdigits2 q + e')).
  { destruct (Z_le_dec e' (-1074)) as [Hle|Hgt]; [unfold fexp64; lia|].
    specialize (Hnorm ltac:(lia)).
    destruct q as [|pq|pq]; [lia| |lia]. cbn [Zdigits2].
    pose proof (digits2_pos_bounds pq) as [_ Dq].
    assert (53 <= Zpos (digits2_pos pq)).
    { destruct (Z_le_dec 53 (Zpos (digits2_pos pq))); [assumption|exfalso].
      assert (2 ^ Zpos (digits2_pos pq) <= 2 ^ 52) by (apply Z.pow_le_mono_r; lia).
      lia. }
    unfold fexp64. lia. }
  assert (Hzero : q = 0 -> e' <= -1074).
  { intros ->. destruct (Z_le_dec e' (-1074)); [assumption|].
    specialize (Hnorm ltac:(lia)). lia. }
  pose proof (binary_round_aux_rounds v (xorb sx sy) q e' _ Hv Hl Hq0 Hcond Hzero) as Hr'.
  rewrite !key_finite_abs.
  pose proof (bpow_pos ey) as Hpy.
  assert (Hmy : (0 < IZR (Zpos my))%R) by (apply IZR_lt; lia).
  destruct sx, sy; cbn [xorb] in Hr';
    match goal with
    | H : rounds ?a _ |- rounds ?b _ =>
        replace b with a; [exact H|unfold v; field; split; lra]
    end.
Qed.

(** ** Comparison of valid floats, through their keys *)

Lemma valid_key_bound (m : positive) (e : Z) :
  bounded prec emax m e = true -> (IZR (Zpos m) * bpow e < bpow 1024)%R.
Proof.
  intros H. destruct (valid_trunc m e H) as (_ & Hm & He).
  pose proof (bpow_pos e).
  apply Rlt_le_trans with (IZR (2 ^ 53) * bpow e)%R.
  - apply Rmult_lt_compat_r; [assumption|]. apply IZR_lt. exact Hm.
  - rewrite <- (bpow_IZR 53), <- bpow_add by lia. apply bpow_le. lia.
Qed.

Lemma canonical_compare (m1 m2 : positive) (e1 e2 : Z) :
  bounded prec emax m1 e1 = true -> bounded prec emax m2 e2 = true ->
  Rcmp (match e1 ?= e2 with
        | Lt => Lt
        | Gt => Gt
        | Eq => Pos.compare_cont Eq m1 m2
        end)
       (IZR (Zpos m1) * bpow e1) (IZR (Zpos m2) * bpow e2).
Proof.
  intros B1 B2.
  destruct (valid_trunc m1 e1 B1) as (T1 & M1 & E1).
  destruct (valid_trunc m2 e2 B2) as (T2 & M2 & E2).
  pose proof (trunc_normal _ _ _ _ T1) as N1.
  pose proof (trunc_normal _ _ _ _ T2) as N2.
  pose proof (bpow_pos e1) as P1. pose proof (bpow_pos e2) as P2.
  assert (Hexp : forall ma mb ea eb, Zpos ma < 2 ^ 53 -> 2 ^ 52 <= Zpos mb ->
            ea < eb -> (IZR (Zpos ma) * bpow ea < IZR (Zpos mb) * bpow eb)%R).
  { intros ma mb ea eb Ha Hb Hlt.
    pose proof (bpow_pos ea). pose proof (bpow_pos eb).
    apply Rlt_le_trans with (IZR (2 ^ 53) * bpow ea)%R.
    - apply Rmult_lt_compat_r; [assumption|]. apply IZR_lt. exact Ha.
    - apply Rle_trans with (IZR (2 ^ 52) * bpow eb)%R.
      + rewrite <- (bpow_IZR 53), <- (bpow_IZR 52), <- !bpow_add by lia.
        apply bpow_le. lia.
      + apply Rmult_le_compat_r; [lra|]. apply IZR_le. exact Hb. }
  destruct (Z.compare_spec e1 e2) as [Heq|Hlt|Hgt]; cbn [Rcmp].
  - subst e2. change (Pos.compare_cont Eq m1 m2) with (Pos.compare m1 m2).
    destruct (Pos.compare_spec m1 m2) as [Hm|Hm|Hm]; cbn [Rcmp].
    + subst. reflexivity.
    + apply Rmult_lt_compat_r; [assumption|]. apply IZR_lt. lia.
    + apply Rmult_lt_compat_r; [assumption|]. apply IZR_lt. lia.
  - apply Hexp; [exact M1|apply N2; lia|exact Hlt].
  - apply Hexp; [exact M2|apply N1; lia|lia].
Qed.

Theorem SFcompare_key (x y : spec_float) :
  valid_binary x = true -> valid_binary y = true ->
  x <> S754_nan -> y <> S754_nan ->
  exists c, SFcompare x y = Some c /\ Rcmp c (key x) (key y).
Proof.
  intros Vx Vy Nx Ny.
  pose proof (bpow_pos 1024) as Pinf.
  destruct x as [sx|sx| |sx mx ex], y as [sy|sy| |sy my ey];
    try contradiction; cbn [valid_binary] in Vx, Vy;
    try pose proof (valid_key_bound _ _ Vx);
    try pose proof (valid_key_bound _ _ Vy);
    try pose proof (IZR_pos_bpow_pos mx ex);
    try pose proof (IZR_pos_bpow_pos my ey);
    cbn [SFcompare key].
  - exists Eq. split; reflexivity.
  - destruct sy; eexists; (split; [reflexivity|]); cbn [Rcmp]; lra.
  - destruct sy; eexists; (split; [reflexivity|]); cbn [Rcmp]; lra.
  - destruct sx; eexists; (split; [reflexivity|]); cbn [Rcmp]; lra.
  - destruct sx, sy; eexists; (split; [reflexivity|]); cbn [Rcmp]; lra.
  - destruct sx, sy; eexists; (split; [reflexivity|]); cbn [Rcmp]; lra.
  - destruct sx; eexists; (split; [reflexivity|]); cbn [Rcmp]; lra.
  - destruct sx, sy; eexists; (split; [reflexivity|]); cbn [Rcmp]; lra.
  - pose proof (canonical_compare mx my ex ey Vx Vy) as C.
    destruct sx, sy.
    + eexists. split; [reflexivity|].
      destruct (ex ?= ey); cbn [CompOpp Rcmp] in *; try lra.
      destruct (Pos.compare_cont Eq mx my); cbn [CompOpp Rcmp] in *; lra.
    + eexists. split; [reflexivity|]. cbn [Rcmp]. lra.
    + eexists. split; [reflexivity|]. cbn [Rcmp]. lra.
    + eexists. split; [reflexivity|].
      destruct (ex ?= ey); cbn [Rcmp] in *; try lra.
      destruct (Pos.compare_cont Eq mx my); cbn [Rcmp] in *; lra.
Qed.

(** ** Primitive floats *)

Lemma is_nan_false_Prim2SF (x : float) :
  is_nan x = false <-> Prim2SF x <> S754_nan.
Proof.
  split.
  - intros H. unfold Prim2SF. rewrite H.
    destruct (is_zero x); [discriminate|].
    destruct (is_infinity x); [discriminate|].
    destruct (Z.frexp x) as [r ex].
    destruct (shr_fexp prec emax _ _ _) as [sh e'].
    destruct (shr_m sh); discriminate.
  - intros H. destruct (is_nan x) eqn:E; [|reflexivity].
    exfalso. apply H. unfold Prim2SF. rewrite E. reflexivity.
Qed.

Theorem leb_FR (x y : float) :
  is_nan x = false -> is_nan y = false ->
  ((x <=? y)%float = true <-> (FR x <= FR y)%R).
Proof.
  intros Nx Ny. apply is_nan_false_Prim2SF in Nx, Ny.
  rewrite leb_spec. unfold SFleb, FR.
  destruct (SFcompare_key _ _ (Prim2SF_valid x) (Prim2SF_valid y) Nx Ny)
    as (c & -> & Hc).
  destruct c; cbn [Rcmp] in Hc; split; intros H; try reflexivity; try lra;
    discriminate.
Qed.

Theorem ltb_FR (x y : float) :
  is_nan x = false -> is_nan y = false ->
  ((x <? y)%float = true <-> (FR x < FR y)%R).
Proof.
  intros Nx Ny. apply is_nan_false_Prim2SF in Nx, Ny.
  rewrite ltb_spec. unfold SFltb, FR.
  destruct (SFcompare_key _ _ (Prim2SF_valid x) (Prim2SF_valid y) Nx Ny)
    as (c & -> & Hc).
  destruct c; cbn [Rcmp] in Hc; split; intros H; try reflexivity; try lra;
    discriminate.
Qed.

(** ** Roundings are valid floats *)

Lemma digits_ge_53 (q : positive) : 2 ^ 52 <= Zpos q -> 53 <= Zpos (digits2_pos q).
Proof.
  intros H. pose proof (digits2_pos_bounds q) as [_ D2].
  destruct (Z_le_dec 53 (Zpos (digits2_pos q))); [assumption|exfalso].
  assert (2 ^ Zpos (digits2_pos q) <= 2 ^ 52) by (apply Z.pow_le_mono_r; lia).
  lia.
Qed.

Lemma round_canon_valid (v : R) (s : bool) (m e : Z) (l : location) :
  trunc v m e l -> valid_binary (round_canon s m e l) = true.
Proof.
  intros T.
  pose proof (trunc_lt_2p53 _ _ _ _ T) as Hlt.
  pose proof (trunc_normal _ _ _ _ T) as Hnorm.
  destruct T as (H & Hm & k & Hk & He).
  assert (He' : -1074 <= e) by (rewrite He; unfold fexp64; lia).
  destruct (round_canon_cases s m e l He' (conj Hm Hlt))
    as [[E1 E2]|[(q & E1 & Hq & E2)|[E1 E2]]]; rewrite E2.
  - reflexivity.
  - destruct (Z.leb_spec e 971) as [Hle|Hgt]; [|reflexivity].
    cbn [SpecFloat.valid_binary]. unfold bounded, canonical_mantissa.
    rewrite fexp_fexp64. apply andb_true_intro. split.
    + apply Z.eqb_eq. pose proof (digits_le_53 q Hq).
      destruct (Z_le_dec e (-1074)); [unfold fexp64; lia|].
      assert (2 ^ 52 <= Zpos q).
      { specialize (Hnorm ltac:(lia)).
        pose proof (round_nearest_even_ge m l). lia. }
      pose proof (digits_ge_53 q H1). unfold fexp64. lia.
    + apply Z.leb_le. exact Hle.
  - destruct (Z.leb_spec (e + 1) 971) as [Hle|Hgt]; [|reflexivity].
    cbn [SpecFloat.valid_binary]. unfold bounded, canonical_mantissa.
    rewrite fexp_fexp64. apply andb_true_intro. split.
    + apply Z.eqb_eq. change (Z.pos (digits2_pos (2 ^ 52))) with 53.
      unfold fexp64. lia.
    + apply Z.leb_le. exact Hle.
Qed.

Lemma rounds_valid (w : R) (r : spec_float) : rounds w r -> valid_binary r = true.
Proof.
  intros [[_ [s ->]]|[[_ (m & e & l & T & ->)]|[_ (m & e & l & T & ->)]]].
  - reflexivity.
  - apply (round_canon_valid _ _ _ _ _ T).
  - apply (round_canon_valid _ _ _ _ _ T).
Qed.

(** ** Finite numbers *)

Lemma rounds_self (x : spec_float) :
  valid_binary x = true -> SFfinite x -> rounds (key x) x.
Proof.
  intros V F. destruct x as [s|s| |s m e]; try contradiction.
  - left. split; [reflexivity|]. exists s. reflexivity.
  - cbn [SpecFloat.valid_binary] in V.
    destruct (valid_trunc m e V) as (T & _ & _).
    pose proof (IZR_pos_bpow_pos m e).
    pose proof (round_canon_exact s m e V) as Ec. cbn [key]. destruct s.
    + right. right. split; [lra|]. exists (Zpos m), e, loc_Exact.
      rewrite Ropp_involutive. split; [exact T|symmetry; exact Ec].
    + right. left. split; [lra|]. exists (Zpos m), e, loc_Exact.
      split; [exact T|symmetry; exact Ec].
Qed.

Lemma rounds_zero (s : bool) : rounds 0 (S754_zero s).
Proof. left. split; [reflexivity|]. exists s. reflexivity. Qed.

Lemma SFfinite_key_bound (x : spec_float) :
  valid_binary x = true -> SFfinite x -> (- bpow 1024 < key x < bpow 1024)%R.
Proof.
  intros V F. pose proof (bpow_pos 1024).
  destruct x as [s|s| |s m e]; try contradiction; cbn [key].
  - lra.
  - cbn [SpecFloat.valid_binary] in V.
    pose proof (valid_key_bound m e V). pose proof (IZR_pos_bpow_pos m e).
    destruct s; lra.
Qed.

Lemma SFfinite_of_bound (x : spec_float) :
  x <> S754_nan -> (- bpow 1024 < key x < bpow 1024)%R -> SFfinite x.
Proof.
  intros N B. destruct x as [s|s| |s m e]; cbn [SFfinite]; auto.
  cbn [key] in B. destruct s; lra.
Qed.

(** ** The four operations on finite numbers *)

Theorem SFmul_finite (x y : spec_float) :
  valid_binary x = true -> valid_binary y = true -> SFfinite x -> SFfinite y ->
  rounds (key x * key y) (SFmul prec emax x y).
Proof.
  intros Vx Vy Fx Fy.
  destruct x as [sx|sx| |sx mx ex], y as [sy|sy| |sy my ey]; try contradiction.
  - cbn [SFmul key]. rewrite Rmult_0_l. apply rounds_zero.
  - cbn [SFmul key]. rewrite Rmult_0_l. apply rounds_zero.
  - cbn [SFmul]. replace (key _ * key _)%R with 0%R by (cbn [key]; ring).
    apply rounds_zero.
  - apply SFmul_rounds; assumption.
Qed.

Theorem SFdiv_finite (x y : spec_float) :
  valid_binary x = true -> valid_binary y = true -> SFfinite x ->
  (exists s m e, y = S754_finite s m e) ->
  rounds (key x / key y) (SFdiv prec emax x y).
Proof.
  intros Vx Vy Fx (sy & my & ey & ->).
  destruct x as [sx|sx| |sx mx ex]; try contradiction.
  - cbn [SFdiv]. replace (key _ / key _)%R with 0%R.
    + apply rounds_zero.
    + cbn [key]. unfold Rdiv. ring.
  - apply SFdiv_rounds; assumption.
Qed.

Theorem SFadd_finite (x y : spec_float) :
  valid_binary x = true -> valid_binary y = true -> SFfinite x -> SFfinite y ->
  rounds (key x + key y) (SFadd prec emax x y).
Proof.
  intros Vx Vy Fx Fy.
  destruct x as [sx|sx| |sx mx ex], y as [sy|sy| |sy my ey]; try contradiction.
  - replace (key _ + key _)%R with 0%R by (cbn [key]; ring).
    cbn [SFadd]. destruct sx, sy; apply rounds_zero.
  - cbn [SFadd]. replace (key _ + key _)%R with (key (S754_finite sy my ey))
      by (cbn [key]; ring).
    apply rounds_self; [assumption|exact I].
  - cbn [SFadd]. replace (key _ + key _)%R with (key (S754_finite sx mx ex))
      by (cbn [key]; ring).
    apply rounds_self; [assumption|exact I].
  - apply SFadd_rounds.
Qed.

Theorem SFsub_finite (x y : spec_float) :
  valid_binary x = true -> valid_binary y = true -> SFfinite x -> SFfinite y ->
  rounds (key x - key y) (SFsub prec emax x y).
Proof.
  intros Vx Vy Fx Fy.
  destruct x as [sx|sx| |sx mx ex], y as [sy|sy| |sy my ey]; try contradiction.
  - replace (key _ - key _)%R with 0%R by (cbn [key]; ring).
    cbn [SFsub]. destruct sx, sy; apply rounds_zero.
  - cbn [SFsub]. replace (key _ - key _)%R with (key (S754_finite (negb sy) my ey)).
    + apply rounds_self; [assumption|exact I].
    + cbn [key]. destruct sy; cbn [negb]; ring.
  - cbn [SFsub]. replace (key _ - key _)%R with (key (S754_finite sx mx ex))
      by (cbn [key]; ring).
    apply rounds_self; [assumption|exact I].
  - apply SFsub_rounds.
Qed.

(** ** Arithmetic of primitive floats *)

Lemma finite_not_nan (x : float) : finite x -> is_nan x = false.
Proof.
  unfold finite. intros F. apply is_nan_false_Prim2SF.
  intros E. rewrite E in F. exact F.
Qed.

Lemma finite_FR_bound (x : float) :
  finite x -> (- bpow 1024 < FR x < bpow 1024)%R.
Proof. intros F. apply SFfinite_key_bound; [apply Prim2SF_valid|exact F]. Qed.

Lemma finite_of_FR_bound (x : float) :
  is_nan x = false -> (- bpow 1024 < FR x < bpow 1024)%R -> finite x.
Proof.
  intros N B. apply SFfinite_of_bound; [|exact B].
  apply is_nan_false_Prim2SF. exact N.
Qed.

Lemma finite_rounds_self (x : float) : finite x -> rounds (FR x) (Prim2SF x).
Proof. intros F. apply rounds_self; [apply Prim2SF_valid|exact F]. Qed.

Lemma rounds_is_nan (w : R) (r : float) : rounds w (Prim2SF r) -> is_nan r = false.
Proof. intros H. apply is_nan_false_Prim2SF. exact (rounds_not_nan _ _ H). Qed.

Lemma rounds_FR_le (w1 w2 : R) (a b : float) :
  rounds w1 (Prim2SF a) -> rounds w2 (Prim2SF b) -> (w1 <= w2)%R ->
  (FR a <= FR b)%R.
Proof. apply rounds_mono. Qed.

(** The rounding of a real between two finite floats is finite. *)
Lemma rounds_finite (w : R) (r a b : float) :
  rounds w (Prim2SF r) -> finite a -> finite b ->
  (FR a <= w <= FR b)%R ->
  finite r /\ (FR a <= FR r <= FR b)%R.
Proof.
  intros Hr Fa Fb [Ha Hb].
  pose proof (rounds_FR_le _ _ _ _ (finite_rounds_self a Fa) Hr Ha).
  pose proof (rounds_FR_le _ _ _ _ Hr (finite_rounds_self b Fb) Hb).
  pose proof (finite_FR_bound a Fa). pose proof (finite_FR_bound b Fb).
  split; [|lra].
  apply finite_of_FR_bound; [exact (rounds_is_nan _ _ Hr)|lra].
Qed.

Theorem mul_rounds (x y : float) :
  finite x -> finite y -> rounds (FR x * FR y) (Prim2SF (x * y)).
Proof.
  intros Fx Fy. rewrite mul_spec.
  apply SFmul_finite; try apply Prim2SF_valid; assumption.
Qed.

Theorem add_rounds (x y : float) :
  finite x -> finite y -> rounds (FR x + FR y) (Prim2SF (x + y)).
Proof.
  intros Fx Fy. rewrite add_spec.
  apply SFadd_finite; try apply Prim2SF_valid; assumption.
Qed.

Theorem sub_rounds (x y : float) :
  finite x -> finite y -> rounds (FR x - FR y) (Prim2SF (x - y)).
Proof.
  intros Fx Fy. rewrite sub_spec.
  apply SFsub_finite; try apply Prim2SF_valid; assumption.
Qed.

Lemma finite_nonzero (y : float) :
  finite y -> FR y <> 0%R -> exists s m e, Prim2SF y = S754_finite s m e.
Proof.
  unfold finite, FR. intros F N.
  destruct (Prim2SF y) as [s|s| |s m e]; cbn [SFfinite key] in *.
  - exfalso. apply N. reflexivity.
  - contradiction.
  - contradiction.
  - exists s, m, e. reflexivity.
Qed.

Theorem div_rounds (x y : float) :
  finite x -> finite y -> FR y <> 0%R ->
  rounds (FR x / FR y) (Prim2SF (x / y)).
Proof.
  intros Fx Fy Ny. rewrite div_spec.
  apply SFdiv_finite; try apply Prim2SF_valid; try assumption.
  apply finite_nonzero; assumption.
Qed.

(** ** Order-preserving operations *)

Lemma Rdiv_le_compat_pos (a b c : R) :
  (0 < c)%R -> (a <= b)%R -> (a / c <= b / c)%R.
Proof.
  intros Hc Hab. unfold Rdiv. apply Rmult_le_compat_r; [|exact Hab].
  apply Rlt_le, Rinv_0_lt_compat. exact Hc.
Qed.

Theorem div_le_compat (a b c : float) :
  finite a -> finite b -> finite c -> (0 < FR c)%R -> (FR a <= FR b)%R ->
  (FR (a / c) <= FR (b / c))%R
  /\ is_nan (a / c) = false /\ is_nan (b / c) = false.
Proof.
  intros Fa Fb Fc Hc Hab.
  pose proof (div_rounds a c Fa Fc ltac:(lra)) as Ra.
  pose proof (div_rounds b c Fb Fc ltac:(lra)) as Rb.
  split; [|split; eapply rounds_is_nan; eassumption].
  apply (rounds_FR_le _ _ _ _ Ra Rb). apply Rdiv_le_compat_pos; assumption.
Qed.

Theorem mul_le_compat_r (a b c : float) :
  finite a -> finite b -> finite c -> (0 <= FR c)%R -> (FR a <= FR b)%R ->
  (FR (a * c) <= FR (b * c))%R
  /\ is_nan (a * c) = false /\ is_nan (b * c) = false.
Proof.
  intros Fa Fb Fc Hc Hab.
  pose proof (mul_rounds a c Fa Fc) as Ra.
  pose proof (mul_rounds b c Fb Fc) as Rb.
  split; [|split; eapply rounds_is_nan; eassumption].
  apply (rounds_FR_le _ _ _ _ Ra Rb). apply Rmult_le_compat_r; assumption.
Qed.

Theorem sub_le_compat_r (a b c : float) :
  finite a -> finite b -> finite c -> (FR a <= FR b)%R ->
  (FR (a - c) <= FR (b - c))%R
  /\ is_nan (a - c) = false /\ is_nan (b - c) = false.
Proof.
  intros Fa Fb Fc Hab.
  pose proof (sub_rounds a c Fa Fc) as Ra.
  pose proof (sub_rounds b c Fb Fc) as Rb.
  split; [|split; eapply rounds_is_nan; eassumption].
  apply (rounds_FR_le _ _ _ _ Ra Rb). lra.
Qed.

Theorem sub_le_compat_l (a b c : float) :
  finite a -> finite b -> finite c -> (FR a <= FR b)%R ->
  (FR (c - b) <= FR (c - a))%R
  /\ is_nan (c - b) = false /\ is_nan (c - a) = false.
Proof.
  intros Fa Fb Fc Hab.
  pose proof (sub_rounds c a Fc Fa) as Ra.
  pose proof (sub_rounds c b Fc Fb) as Rb.
  split; [|split; eapply rounds_is_nan; eassumption].
  apply (rounds_FR_le _ _ _ _ Rb Ra). lra.
Qed.

Theorem add_le_compat_r (a b c : float) :
  finite a -> finite b -> finite c -> (FR a <= FR b)%R ->
  (FR (a + c) <= FR (b + c))%R
  /\ is_nan (a + c) = false /\ is_nan (b + c) = false.
Proof.
  intros Fa Fb Fc Hab.
  pose proof (add_rounds a c Fa Fc) as Ra.
  pose proof (add_rounds b c Fb Fc) as Rb.
  split; [|split; eapply rounds_is_nan; eassumption].
  apply (rounds_FR_le _ _ _ _ Ra Rb). lra.
Qed.

(** ** Integers *)

Lemma round_canon_integer (n m e : Z) (l : location) :
  0 < n <= 2 ^ 53 -> trunc (IZR n) m e l ->
  key (round_canon false m e l) = IZR n.
Proof.
  intros Hn T. destruct (round_canon_key _ _ _ _ T) as [-> _].
  destruct T as (H & Hm & k & [L U] & He).
  assert (Hk : k <= 54).
  { assert (Hb : (bpow (k - 1) < bpow 54)%R).
    { apply Rle_lt_trans with (IZR n); [exact L|].
      rewrite (bpow_IZR 54) by lia. apply IZR_lt. lia. }
    apply bpow_lt_inv in Hb. lia. }
  assert (Hgrid : exists M0, IZR n = (IZR M0 * bpow e)%R).
  { destruct (Z_le_dec e 0) as [Hle|Hgt].
    - exists (n * 2 ^ (- e)). rewrite mult_IZR, <- bpow_IZR by lia.
      rewrite Rmult_assoc, <- bpow_add. replace (- e + e) with 0 by lia.
      rewrite bpow_0. ring.
    - assert (Hk54 : k = 54) by (unfold fexp64 in He; lia).
      assert (He1 : e = 1) by (unfold fexp64 in He; lia).
      exists (2 ^ 52). rewrite He1, bpow_1.
      rewrite Hk54 in L. change (54 - 1) with 53 in L.
      rewrite (bpow_IZR 53) in L by lia.
      apply le_IZR in L. assert (Hn53 : n = 2 ^ 53) by lia. rewrite Hn53.
      rewrite <- mult_IZR. reflexivity. }
  destruct Hgrid as [M0 HM0].
  assert (Hl0 : located (IZR n) M0 e loc_Exact) by exact HM0.
  destruct (located_unique _ _ _ _ _ _ H Hl0) as [-> ->].
  cbn [round_nearest_even]. rewrite <- HM0.
  apply Rmin_left. rewrite (bpow_IZR 1024) by lia. apply IZR_le.
  assert (2 ^ 53 <= 2 ^ 1024) by (apply Z.pow_le_mono_r; lia). lia.
Qed.

Theorem rounds_integer (n : Z) (r : spec_float) :
  - 2 ^ 53 <= n <= 2 ^ 53 -> rounds (IZR n) r -> key r = IZR n.
Proof.
  intros Hn [[Z1 [s ->]]|[[Q1 (m & e & l & T & ->)]|[N1 (m & e & l & T & ->)]]].
  - rewrite Z1. reflexivity.
  - apply lt_IZR in Q1. apply round_canon_integer; [lia|exact T].
  - apply lt_IZR in N1. rewrite round_canon_opp, key_opp.
    rewrite <- opp_IZR in T.
    rewrite (round_canon_integer (- n) m e l ltac:(lia) T).
    rewrite opp_IZR. ring.
Qed.

Lemma of_Z_rounds (n : Z) : rounds (IZR n) (Prim2SF (JsNum.of_Z n)).
Proof.
  pose proof (binary_normalize_rounds n 0) as H.
  rewrite bpow_0, Rmult_1_r in H.
  unfold JsNum.of_Z. rewrite Prim2SF_SF2Prim; [exact H|].
  exact (rounds_valid _ _ H).
Qed.

Theorem FR_of_Z (n : Z) :
  - 2 ^ 53 <= n <= 2 ^ 53 -> FR (JsNum.of_Z n) = IZR n /\ finite (JsNum.of_Z n).
Proof.
  intros Hn. pose proof (of_Z_rounds n) as H.
  pose proof (rounds_integer n _ Hn H) as E. split; [exact E|].
  apply finite_of_FR_bound; [exact (rounds_is_nan _ _ H)|].
  unfold FR. rewrite E.
  assert (Hb : 2 ^ 53 < 2 ^ 1024) by (apply Z.pow_lt_mono_r; lia).
  rewrite (bpow_IZR 1024) by lia. rewrite <- opp_IZR.
  split; apply IZR_lt; lia.
Qed.

(** Floats with the same key. *)
Lemma FR_inj (x y : float) :
  finite x -> finite y -> FR x = FR y -> FR x <> 0%R -> x = y.
Proof.
  intros Fx Fy E N.
  destruct (finite_nonzero y Fy ltac:(rewrite <- E; exact N)) as (s & m & e & Ey).
  pose proof (finite_rounds_self x Fx) as Hx. rewrite E in Hx.
  unfold FR in Hx. rewrite Ey in Hx.
  pose proof (Prim2SF_valid y) as Vy. rewrite Ey in Vy.
  apply Prim2SF_inj. rewrite Ey. apply (rounds_exact s m e); assumption.
Qed.

(** ** Powers of two *)

Lemma pow2_rounds (z : Z) : rounds (bpow z) (Prim2SF (JsNum.pow2 z)).
Proof.
  unfold JsNum.pow2. rewrite Z_ldexp_spec.
  change (Prim2SF 1) with (S754_finite false (2 ^ 52) (-52)).
  cbn [SFldexp].
  pose proof (binary_round_rounds false (2 ^ 52) (-52 + z)) as H. cbn iota in H.
  replace (bpow z) with (IZR (Z.pos (2 ^ 52)) * bpow (-52 + z))%R; [exact H|].
  change (IZR (Z.pos (2 ^ 52))) with (IZR (2 ^ 52)).
  rewrite <- (bpow_IZR 52), <- bpow_add by lia. f_equal. lia.
Qed.

(** ** [Math.floor] *)

Theorem Math_floor_spec (t : float) :
  finite t ->
  exists n : Z,
    (IZR n <= FR t < IZR n + 1)%R
    /\ FR (JsNum.Math_floor t) = IZR n
    /\ finite (JsNum.Math_floor t).
Proof.
  intros Ft. pose proof (Prim2SF_valid t) as V.
  unfold JsNum.Math_floor. unfold finite, FR in *.
  destruct (Prim2SF t) as [s|s| |s m e] eqn:Et; try contradiction.
  - exists 0. rewrite Et. cbn [key SFfinite]. repeat split; try lra.
  - cbn [SpecFloat.valid_binary] in V.
    destruct (valid_trunc m e V) as (_ & Hm & He).
    pose proof (bpow_pos e) as Hp.
    destruct (Z.leb_spec 0 e) as [Hpos|Hneg].
    + exists (cond_Zopp s (Zpos m * 2 ^ e)). rewrite Et. cbn [key SFfinite].
      rewrite IZR_cond_Zopp, mult_IZR, <- bpow_IZR by lia.
      destruct s; repeat split; try lra.
    + set (d := 2 ^ (- e)).
      assert (Hd : 0 < d) by (apply Z.pow_pos_nonneg; lia).
      assert (Hde : (IZR d * bpow e = 1)%R).
      { unfold d. rewrite <- bpow_IZR, <- bpow_add by lia.
        replace (- e + e) with 0 by lia. apply bpow_0. }
      pose proof (Z.div_mod (Zpos m) d ltac:(lia)) as Hdiv.
      pose proof (Z.mod_pos_bound (Zpos m) d Hd) as Hr.
      set (q := Zpos m / d) in *. set (r := Zpos m mod d) in *.
      assert (Hq : 0 <= q) by (apply Z.div_pos; lia).
      assert (Hq53 : q < 2 ^ 53).
      { apply Z.le_lt_trans with (Zpos m); [|exact Hm].
        apply Z.div_le_upper_bound; nia. }
      assert (Hv : (IZR (Zpos m) * bpow e = IZR q + IZR r * bpow e)%R).
      { rewrite Hdiv at 1. rewrite plus_IZR, mult_IZR.
        replace ((IZR d * IZR q + IZR r) * bpow e)%R
          with (IZR q * (IZR d * bpow e) + IZR r * bpow e)%R by ring.
        rewrite Hde. ring. }
      assert (Hf : (0 <= IZR r * bpow e < 1)%R).
      { split.
        - apply Rmult_le_pos; [apply IZR_le; lia|lra].
        - rewrite <- Hde. apply Rmult_lt_compat_r; [exact Hp|].
          apply IZR_lt. lia. }
      destruct (Z.eqb_spec r 0) as [Hr0|Hr0].
      * exists (cond_Zopp s q). rewrite Et. cbn [key SFfinite].
        rewrite IZR_cond_Zopp, Hv, Hr0, Rmult_0_l.
        destruct s; repeat split; try lra.
      * assert (Hfpos : (0 < IZR r * bpow e)%R).
        { apply Rmult_lt_0_compat; [apply IZR_lt; lia|exact Hp]. }
        destruct s.
        -- exists (- (q + 1)).
           destruct (FR_of_Z (- (q + 1)) ltac:(lia)) as [E F].
           unfold FR, finite in E, F. cbn [key]. rewrite Hv.
           rewrite opp_IZR, plus_IZR in *.
           repeat split; try lra; assumption.
        -- exists q.
           destruct (FR_of_Z q ltac:(lia)) as [E F].
           unfold FR, finite in E, F. cbn [key]. rewrite Hv.
           repeat split; try lra; assumption.
Qed.

Theorem Math_floor_le_compat (a b : float) :
  finite a -> finite b -> (FR a <= FR b)%R ->
  (FR (JsNum.Math_floor a) <= FR (JsNum.Math_floor b))%R.
Proof.
  intros Fa Fb Hab.
  destruct (Math_floor_spec a Fa) as (na & [La Ua] & Ea & _).
  destruct (Math_floor_spec b Fb) as (nb & [Lb Ub] & Eb & _).
  rewrite Ea, Eb. apply IZR_le.
  assert (IZR na < IZR nb + 1)%R by lra.
  rewrite <- plus_IZR in H. apply lt_IZR in H. lia.
Qed.

(** [Math.floor] of a number between [n] and [n + 1]. *)
Theorem Math_floor_between (t : float) (n : Z) :
  finite t -> 0 < n < 2 ^ 53 ->
  (IZR n <= FR t < IZR n + 1)%R ->
  JsNum.Math_floor t = JsNum.of_Z n.
Proof.
  intros Ft Hn [L U].
  destruct (Math_floor_spec t Ft) as (n' & [L' U'] & E & F).
  assert (n' = n).
  { assert (H1 : (IZR n' < IZR n + 1)%R) by lra.
    assert (H2 : (IZR n < IZR n' + 1)%R) by lra.
    rewrite <- plus_IZR in H1, H2. apply lt_IZR in H1, H2. lia. }
  subst n'.
  destruct (FR_of_Z n ltac:(lia)) as [E' F'].
  apply FR_inj; try assumption.
  - rewrite E, E'. reflexivity.
  - rewrite E. apply not_0_IZR. lia.
Qed.

End Binary64Facts.

(** * Tile addresses and tile-local coordinates

    What the arithmetic of the tile pipeline computes, from the rounding
    theory above. *)

Import Binary64 Binary64Facts.

Ltac float_eval := vm_compute; reflexivity.

(** ** Finite numbers, by evaluation *)

Lemma finiteb_finite (x : float) : finiteb x = true -> finite x.
Proof.
  unfold finiteb, finite. destruct (Prim2SF x); cbn; intros H;
    try exact I; discriminate.
Qed.

Lemma FR_zero : FR 0 = 0%R.
Proof. reflexivity. Qed.

Lemma finite_zero : finite 0.
Proof. apply finiteb_finite. float_eval. Qed.

Lemma FR_one : FR 1 = 1%R.
Proof. change 1%float with (JsNum.of_Z 1). apply FR_of_Z. lia. Qed.

Lemma finite_one : finite 1.
Proof. apply finiteb_finite. float_eval. Qed.
(** ** Numbers between two finite numbers *)

Lemma between_intro (a x b : float) :
  finiteb a = true -> finiteb b = true ->
  (a <=? x)%float = true -> (x <=? b)%float = true -> between a x b.
Proof.
  intros Fa Fb Hax Hxb. apply finiteb_finite in Fa, Fb.
  destruct (FloatFacts.leb_not_nan _ _ Hax) as [Na Nx].
  destruct (FloatFacts.leb_not_nan _ _ Hxb) as [_ Nb].
  apply leb_FR in Hax, Hxb; try assumption.
  pose proof (finite_FR_bound a Fa). pose proof (finite_FR_bound b Fb).
  split; [|lra]. apply finite_of_FR_bound; [assumption|lra].
Qed.

Lemma between_finite (a x b : float) :
  finiteb a = true -> finiteb b = true -> is_nan x = false ->
  (FR a <= FR x <= FR b)%R -> between a x b.
Proof.
  intros Fa Fb Nx H. apply finiteb_finite in Fa, Fb.
  pose proof (finite_FR_bound a Fa). pose proof (finite_FR_bound b Fb).
  split; [|exact H]. apply finite_of_FR_bound; [assumption|lra].
Qed.

Lemma between_div (a x b c : float) :
  between a x b -> finiteb a = true -> finiteb b = true ->
  finiteb c = true -> (0 <? c)%float = true ->
  finiteb (a / c) = true -> finiteb (b / c) = true ->
  between (a / c) (x / c) (b / c).
Proof.
  intros [Fx [Hax Hxb]] Fa Fb Fc Hc Fac Fbc.
  pose proof (finiteb_finite _ Fa) as Fa'. pose proof (finiteb_finite _ Fb) as Fb'.
  pose proof (finiteb_finite _ Fc) as Fc'.
  assert (Hc' : (0 < FR c)%R).
  { rewrite <- FR_zero. apply ltb_FR; [reflexivity|apply finite_not_nan; exact Fc'|exact Hc]. }
  destruct (div_le_compat a x c Fa' Fx Fc' Hc' Hax) as (H1 & _ & N).
  destruct (div_le_compat x b c Fx Fb' Fc' Hc' Hxb) as (H2 & _ & _).
  apply between_finite; auto.
Qed.

Lemma between_mul (a x b c : float) :
  between a x b -> finiteb a = true -> finiteb b = true ->
  finiteb c = true -> (0 <=? c)%float = true ->
  finiteb (a * c) = true -> finiteb (b * c) = true ->
  between (a * c) (x * c) (b * c).
Proof.
  intros [Fx [Hax Hxb]] Fa Fb Fc Hc Fac Fbc.
  pose proof (finiteb_finite _ Fa) as Fa'. pose proof (finiteb_finite _ Fb) as Fb'.
  pose proof (finiteb_finite _ Fc) as Fc'.
  assert (Hc' : (0 <= FR c)%R).
  { rewrite <- FR_zero. apply leb_FR; [reflexivity|apply finite_not_nan; exact Fc'|exact Hc]. }
  destruct (mul_le_compat_r a x c Fa' Fx Fc' Hc' Hax) as (H1 & _ & N).
  destruct (mul_le_compat_r x b c Fx Fb' Fc' Hc' Hxb) as (H2 & _ & _).
  apply between_finite; auto.
Qed.

Lemma between_sub_l (a x b c : float) :
  between a x b -> finiteb a = true -> finiteb b = true ->
  finiteb c = true ->
  finiteb (c - b) = true -> finiteb (c - a) = true ->
  between (c - b) (c - x) (c - a).
Proof.
  intros [Fx [Hax Hxb]] Fa Fb Fc Fcb Fca.
  pose proof (finiteb_finite _ Fa) as Fa'. pose proof (finiteb_finite _ Fb) as Fb'.
  pose proof (finiteb_finite _ Fc) as Fc'.
  destruct (sub_le_compat_l a x c Fa' Fx Fc' Hax) as (H1 & N & _).
  destruct (sub_le_compat_l x b c Fx Fb' Fc' Hxb) as (H2 & _ & _).
  apply between_finite; auto.
Qed.

Lemma between_sub_r (a x b c : float) :
  between a x b -> finiteb a = true -> finiteb b = true ->
  finiteb c = true ->
  finiteb (a - c) = true -> finiteb (b - c) = true ->
  between (a - c) (x - c) (b - c).
Proof.
  intros [Fx [Hax Hxb]] Fa Fb Fc Fac Fbc.
  pose proof (finiteb_finite _ Fa) as Fa'. pose proof (finiteb_finite _ Fb) as Fb'.
  pose proof (finiteb_finite _ Fc) as Fc'.
  destruct (sub_le_compat_r a x c Fa' Fx Fc' Hax) as (H1 & _ & N).
  destruct (sub_le_compat_r x b c Fx Fb' Fc' Hxb) as (H2 & _ & _).
  apply between_finite; auto.
Qed.

(** [Math.floor] of a number between two numbers with the same floor. *)
Lemma between_floor (a x b : float) (n : Z) :
  between a x b -> 0 < n < 2 ^ 53 ->
  (JsNum.of_Z n <=? a)%float = true ->
  (b <? JsNum.of_Z (n + 1))%float = true ->
  JsNum.Math_floor x = JsNum.of_Z n.
Proof.
  intros [Fx [Hax Hxb]] Hn Ha Hb.
  destruct (FR_of_Z n ltac:(lia)) as [En Fn].
  destruct (FR_of_Z (n + 1) ltac:(lia)) as [En1 Fn1].
  destruct (FloatFacts.leb_not_nan _ _ Ha) as [_ Na].
  apply leb_FR in Ha; [|apply finite_not_nan; exact Fn|exact Na].
  assert (Nb : is_nan b = false).
  { destruct (is_nan b) eqn:E; [|reflexivity].
    rewrite ltb_spec, (FloatFacts.is_nan_Prim2SF b E) in Hb. discriminate. }
  apply ltb_FR in Hb; [|exact Nb|apply finite_not_nan; exact Fn1].
  rewrite En in Ha. rewrite En1, plus_IZR in Hb.
  apply Math_floor_between; [exact Fx|exact Hn|lra].
Qed.

(** ** The Tokyo tile *)

(** C8: [long2tileX(139.767, 10)] is 909, and [lat2tileY(35.681, 10)] is
    403 on every run-time whose [Math.log], at the sum it receives here,
    returns a number between 0.663 and 0.6688 (the logarithm is
    0.66746...). *)
Theorem tokyo_tile (libm : JsNum.Libm) :
  (let rad := 35.681 * JsNum.PI / 180 in
   let l := JsNum.Math_log libm
              (JsNum.Math_tan libm rad + 1 / JsNum.Math_cos libm rad) in
   (0.663 <=? l) = true -> (l <=? 0.6688) = true ->
   long2tileX 139.767 10 = 909 /\ lat2tileY libm 35.681 10 = 403)%float.
Proof.
  cbn zeta. intros Hlo Hhi. split; [vm_compute; reflexivity|].
  unfold lat2tileY.
  set (l := JsNum.Math_log libm _) in *.
  assert (B0 : between 0.663 l 0.6688)
    by (apply between_intro; solve [assumption|float_eval]).
  assert (B1 : between (0.663 / JsNum.PI) (l / JsNum.PI) (0.6688 / JsNum.PI))
    by (apply between_div; solve [assumption|float_eval]).
  assert (B2 : between (1 - 0.6688 / JsNum.PI) (1 - l / JsNum.PI)
                       (1 - 0.663 / JsNum.PI))
    by (apply between_sub_l; solve [assumption|float_eval]).
  assert (B3 : between ((1 - 0.6688 / JsNum.PI) / 2) ((1 - l / JsNum.PI) / 2)
                       ((1 - 0.663 / JsNum.PI) / 2))
    by (apply between_div; solve [assumption|float_eval]).
  assert (B4 : between ((1 - 0.6688 / JsNum.PI) / 2 * JsNum.pow2 10)
                       ((1 - l / JsNum.PI) / 2 * JsNum.pow2 10)
                       ((1 - 0.663 / JsNum.PI) / 2 * JsNum.pow2 10))
    by (apply between_mul; solve [assumption|float_eval]).
  rewrite (between_floor _ _ _ 403 B4 ltac:(lia)) by float_eval.
  float_eval.
Qed.

Lemma tokyo_tile_witness :
  long2tileX 139.767 10 = 909%float
  /\ lat2tileY RefMath.libm 35.681 10 = 403%float.
Proof. apply (tokyo_tile RefMath.libm); float_eval. Defined.

(** ** Small numbers stay finite *)

Lemma FR_pow2_1023 : FR (JsNum.pow2 1023) = bpow 1023.
Proof.
  unfold FR. change (Prim2SF (JsNum.pow2 1023)) with (S754_finite false (2 ^ 52) 971).
  cbn [key]. change (IZR (Z.pos (2 ^ 52))) with (IZR (2 ^ 52)).
  rewrite <- (bpow_IZR 52), <- bpow_add by lia. reflexivity.
Qed.

Lemma FR_opp (x : float) : FR (- x) = (- FR x)%R.
Proof. unfold FR. rewrite opp_spec. apply key_opp. Qed.

Lemma finite_opp (x : float) : finite x -> finite (- x).
Proof.
  unfold finite. rewrite opp_spec. destruct (Prim2SF x); cbn; auto.
Qed.

Lemma rounds_bounded_finite (w : R) (r : float) :
  rounds w (Prim2SF r) -> (- bpow 1023 <= w <= bpow 1023)%R -> finite r.
Proof.
  intros Hr Hw.
  assert (F : finite (JsNum.pow2 1023)) by (apply finiteb_finite; float_eval).
  apply (rounds_finite w r (- JsNum.pow2 1023)%float (JsNum.pow2 1023));
    [exact Hr|apply finite_opp; exact F|exact F|].
  rewrite FR_opp, FR_pow2_1023. exact Hw.
Qed.

(** ** Division by a power of two *)

Lemma div_pow2 (z : Z) (a b : float) :
  0 <= z -> finite a -> finite b -> (0 <= FR a <= FR b)%R ->
  finite (a / JsNum.pow2 z) /\ finite (b / JsNum.pow2 z)
  /\ (0 <= FR (a / JsNum.pow2 z) <= FR (b / JsNum.pow2 z))%R
  /\ (FR (b / JsNum.pow2 z) <= FR b)%R.
Proof.
  intros Hz Fa Fb [Ha Hab].
  set (p := JsNum.pow2 z).
  pose proof (pow2_rounds z) as Hp. fold p in Hp.
  assert (H1 : (1 <= FR p)%R).
  { rewrite <- FR_one.
    apply (rounds_FR_le _ _ _ _ (finite_rounds_self 1 finite_one) Hp).
    rewrite FR_one, <- bpow_0. apply bpow_le. exact Hz. }
  assert (Hquot : forall c, finite c -> (0 <= FR c)%R -> finite p ->
            rounds (FR c / FR p) (Prim2SF (c / p))
            /\ (0 <= FR c / FR p <= FR c)%R).
  { intros c Fc Hc Fp. split; [apply div_rounds; [assumption|assumption|lra]|].
    split.
    - apply Rmult_le_pos; [exact Hc|]. apply Rlt_le, Rinv_0_lt_compat. lra.
    - apply (Rmult_le_reg_r (FR p)); [lra|].
      unfold Rdiv. rewrite Rmult_assoc, Rinv_l, Rmult_1_r by lra. nra. }
  assert (F0 : finite 0) by (apply finiteb_finite; float_eval).
  destruct (Prim2SF p) as [s|s| |s m e] eqn:Ep.
  - exfalso. unfold FR in H1. rewrite Ep in H1. cbn [key] in H1. lra.
  - (* the power of two is infinite: the quotients are zero *)
    assert (Hzero : forall c, finite c -> exists s', Prim2SF (c / p) = S754_zero s').
    { intros c Fc. rewrite div_spec, Ep. unfold finite in Fc.
      destruct (Prim2SF c) as [sc|sc| |sc mc ec]; try contradiction;
        eexists; reflexivity. }
    destruct (Hzero a Fa) as [sa Ea]. destruct (Hzero b Fb) as [sb Eb].
    unfold finite, FR. rewrite Ea, Eb. cbn [SFfinite key].
    repeat split; try exact I; try lra.
    unfold FR in Ha, Hab. lra.
  - exfalso. exact (rounds_not_nan _ _ Hp eq_refl).
  - assert (Fp : finite p) by (unfold finite; rewrite Ep; exact I).
    destruct (Hquot a Fa Ha Fp) as [Ra Ba].
    destruct (Hquot b Fb ltac:(lra) Fp) as [Rb Bb].
    destruct (rounds_finite _ _ 0%float a Ra F0 Fa ltac:(rewrite FR_zero; lra)) as [Fqa Bqa].
    destruct (rounds_finite _ _ 0%float b Rb F0 Fb ltac:(rewrite FR_zero; lra)) as [Fqb Bqb].
    rewrite FR_zero in *.
    repeat split; try assumption; try lra.
    apply (rounds_FR_le _ _ _ _ Ra Rb).
    apply Rdiv_le_compat_pos; [lra|exact Hab].
Qed.

(** ** [tile2lon] is nondecreasing *)

Lemma FR_360 : FR 360 = 360%R /\ finite 360.
Proof. change 360%float with (JsNum.of_Z 360). apply FR_of_Z. lia. Qed.

Lemma FR_180 : FR 180 = 180%R /\ finite 180.
Proof. change 180%float with (JsNum.of_Z 180). apply FR_of_Z. lia. Qed.

Lemma bpow_1000_1023 : (360 * bpow 1000 <= bpow 1023)%R.
Proof.
  replace 1023 with (23 + 1000) by lia. rewrite bpow_add, (bpow_IZR 23) by lia.
  pose proof (bpow_pos 1000).
  apply Rmult_le_compat_r; [lra|]. apply IZR_le. lia.
Qed.

Lemma tile2lon_mono (z : Z) (a b : float) :
  0 <= z -> finite a -> finite b ->
  (0 <= FR a <= FR b)%R -> (FR b <= bpow 1000)%R ->
  (tile2lon a z <=? tile2lon b z)%float = true
  /\ is_nan (tile2lon a z) = false /\ is_nan (tile2lon b z) = false.
Proof.
  intros Hz Fa Fb Hab Hb. unfold tile2lon.
  destruct (div_pow2 z a b Hz Fa Fb Hab) as (Fqa & Fqb & [Hqa Hqab] & Hqb).
  destruct FR_360 as [E360 F360]. destruct FR_180 as [E180 F180].
  pose proof bpow_1000_1023 as Hbig. pose proof (bpow_pos 1023) as Hp.
  set (qa := (a / JsNum.pow2 z)%float) in *.
  set (qb := (b / JsNum.pow2 z)%float) in *.
  pose proof (mul_rounds qa 360 Fqa F360) as Rma.
  pose proof (mul_rounds qb 360 Fqb F360) as Rmb.
  rewrite E360 in Rma, Rmb.
  assert (Fma : finite (qa * 360)) by (apply (rounds_bounded_finite _ _ Rma); nra).
  assert (Fmb : finite (qb * 360)) by (apply (rounds_bounded_finite _ _ Rmb); nra).
  assert (Hm : (FR (qa * 360) <= FR (qb * 360))%R)
    by (apply (rounds_FR_le _ _ _ _ Rma Rmb); nra).
  destruct (sub_le_compat_r _ _ 180 Fma Fmb F180 Hm) as (Hs & Na & Nb).
  split; [|split; assumption].
  apply leb_FR; assumption.
Qed.

(** ** Neighbouring columns *)

Lemma column_neighbours (k : Z) :
  1 <= k <= 2 ^ 53 ->
  let x := JsNum.of_Z k in
  finite x /\ FR x = IZR k
  /\ finite (x - 1) /\ FR (x - 1) = IZR (k - 1)
  /\ (x - 1 + 1)%float = x
  /\ finite (x + 1) /\ (FR x <= FR (x + 1) <= bpow 1000)%R.
Proof.
  intros Hk x.
  destruct (FR_of_Z k ltac:(lia)) as [Ex Fx]. fold x in Ex, Fx.
  pose proof finite_one as F1.
  assert (H53 : (IZR (2 ^ 53) + 1 <= bpow 1000)%R).
  { rewrite (bpow_IZR 1000), <- plus_IZR by lia. apply IZR_le.
    assert (2 ^ 54 <= 2 ^ 1000) by (apply Z.pow_le_mono_r; lia). lia. }
  assert (H1000 : (bpow 1000 <= bpow 1023)%R) by (apply bpow_le; lia).
  pose proof (bpow_pos 1023) as Hp.
  assert (Hk1 : (1 <= IZR k <= IZR (2 ^ 53))%R) by (split; apply IZR_le; lia).
  (* x - 1 *)
  pose proof (sub_rounds x 1 Fx F1) as Rm. rewrite Ex, FR_one in Rm.
  replace (IZR k - 1)%R with (IZR (k - 1)) in Rm by (rewrite minus_IZR; reflexivity).
  pose proof (rounds_integer (k - 1) _ ltac:(lia) Rm) as Em.
  assert (Fm : finite (x - 1)).
  { apply (rounds_bounded_finite _ _ Rm). rewrite minus_IZR. lra. }
  (* x - 1 + 1 *)
  pose proof (add_rounds (x - 1) 1 Fm F1) as Rb.
  unfold FR at 1 in Rb. rewrite Em, FR_one in Rb.
  replace (IZR (k - 1) + 1)%R with (IZR k) in Rb by (rewrite minus_IZR; ring).
  pose proof (rounds_integer k _ ltac:(lia) Rb) as Eb.
  assert (Fb : finite (x - 1 + 1)) by (apply (rounds_bounded_finite _ _ Rb); lra).
  assert (Eq : (x - 1 + 1)%float = x).
  { apply FR_inj; try assumption.
    - unfold FR at 1. rewrite Eb, Ex. reflexivity.
    - unfold FR. rewrite Eb. apply not_0_IZR. lia. }
  (* x + 1 *)
  pose proof (add_rounds x 1 Fx F1) as Rp. rewrite Ex, FR_one in Rp.
  assert (Fp : finite (x + 1)) by (apply (rounds_bounded_finite _ _ Rp); lra).
  assert (Hlow : (FR x <= FR (x + 1))%R).
  { apply (rounds_FR_le _ _ _ _ (finite_rounds_self x Fx) Rp). rewrite Ex. lra. }
  assert (Hup : (FR (x + 1) <= bpow 1000)%R).
  { pose proof (pow2_rounds 1000) as R1000.
    assert (E1000 : FR (JsNum.pow2 1000) = bpow 1000).
    { unfold FR.
      change (Prim2SF (JsNum.pow2 1000)) with (S754_finite false (2 ^ 52) 948).
      cbn [key]. change (IZR (Z.pos (2 ^ 52))) with (IZR (2 ^ 52)).
      rewrite <- (bpow_IZR 52), <- bpow_add by lia. reflexivity. }
    rewrite <- E1000. apply (rounds_FR_le _ _ _ _ Rp R1000). lra. }
  repeat split; assumption.
Qed.

(** ** The features a tile keeps *)

Lemma in_tile_survivor (libm : JsNum.Libm) (geojson : GeoJson) (z : Z)
    (x y : float) (feat : Feature) :
  In feat (features geojson) -> in_tile libm z x y feat = true ->
  In feat (tile_survivors libm geojson z x y).
Proof.
  unfold in_tile, tile_survivors, tileBbox, survivors. cbv beta iota zeta.
  intros Hin Ht. apply filter_In. split; assumption.
Qed.

Lemma generateTilePbf_keeps (libm : JsNum.Libm) (geojson : GeoJson) (z : Z)
    (x y : float) (feat : Feature) :
  In feat (tile_survivors libm geojson z x y) ->
  generateTilePbf libm geojson z x y <> [].
Proof.
  rewrite generateTilePbf_survivors.
  unfold tile_survivors, tileBbox. cbv beta iota zeta.
  destruct (survivors _ _ _ _ _) as [|f fs]; [intros []|].
  intros _ H. apply (proj1 (Buffer_from_nil_iff _)) in H.
  exact (encodeLayer_nonempty _ _ _ H).
Qed.

(** C6, as stated, fails at zoom 54: column [x - 1] of [x = 2^53 + 2] is
    2^53 as a JavaScript number, whose east edge [tile2lon(2^53 + 1, 54)]
    is 0, below [tile2lon(x, 54)]; the point on the west edge of tile [x],
    at a latitude of row [y], is kept by tile [x] and dropped by tile
    [x - 1]. *)
Lemma shared_edge_counterexample :
  let x := 9007199254740994%float in
  let y := 9007199254740992%float in
  let feat := {| properties := JNull; longitude := tile2lon x 54; latitude := 0 |} in
  let geojson := {| features := [feat] |} in
  x = JsNum.of_Z (2 ^ 53 + 2)
  /\ 1 <= 2 ^ 53 + 2 <= 2 ^ 54 - 1
  /\ (tile2lat RefMath.libm (y + 1) 54 <=? latitude feat)%float = true
  /\ (latitude feat <=? tile2lat RefMath.libm y 54)%float = true
  /\ in_tile RefMath.libm 54 x y feat = true
  /\ in_tile RefMath.libm 54 (x - 1)%float y feat = false
  /\ tile_survivors RefMath.libm geojson 54 x y = [feat]
  /\ tile_survivors RefMath.libm geojson 54 (x - 1)%float y = []
  /\ generateTilePbf RefMath.libm geojson 54 x y <> []
  /\ generateTilePbf RefMath.libm geojson 54 (x - 1)%float y = [].
Proof. by_evaluation. Qed.

(** C6 (amended): for every zoom [z] and every column [x] with
    [1 <= x <= 2^z - 1] and [x <= 2^53], a feature of the collection whose
    longitude is [tile2lon(x, z)] and whose latitude is within the
    latitudes of row [y] passes the containment test of tile [(z, x, y)]
    and of tile [(z, x - 1, y)]: both tiles keep it, and both payloads are
    non-empty. *)
Theorem shared_edge_in_both_tiles (libm : JsNum.Libm) (geojson : GeoJson)
    (z k : Z) (y : float) (feat : Feature) :
  1 <= k <= 2 ^ z - 1 -> k <= 2 ^ 53 ->
  let x := JsNum.of_Z k in
  In feat (features geojson) ->
  longitude feat = tile2lon x z ->
  (tile2lat libm (y + 1) z <=? latitude feat)%float = true ->
  (latitude feat <=? tile2lat libm y z)%float = true ->
  In feat (tile_survivors libm geojson z x y)
  /\ In feat (tile_survivors libm geojson z (x - 1)%float y)
  /\ generateTilePbf libm geojson z x y <> []
  /\ generateTilePbf libm geojson z (x - 1)%float y <> [].
Proof.
  intros Hk H53 x Hfeat Hlon Hs Hn.
  assert (Hz : 1 <= z).
  { destruct (Z_le_dec 1 z); [assumption|exfalso].
    destruct z as [|p|p]; [simpl in Hk; lia|lia|].
    rewrite Z.pow_neg_r in Hk by lia. lia. }
  destruct (column_neighbours k ltac:(lia)) as (Fx & Ex & Fm & Em & Eq & Fp & Hp1 & Hp2).
  fold x in Fx, Ex, Fm, Em, Eq, Fp, Hp1, Hp2.
  assert (Hk1 : (1 <= IZR k)%R) by (apply IZR_le; lia).
  assert (Hkm : (0 <= IZR (k - 1))%R) by (apply IZR_le; lia).
  assert (Hkm' : (IZR (k - 1) <= IZR k)%R) by (apply IZR_le; lia).
  destruct (tile2lon_mono z x (x + 1) ltac:(lia) Fx Fp ltac:(lra) Hp2)
    as (Hxe & Nx & _).
  destruct (tile2lon_mono z (x - 1) x ltac:(lia) Fm Fx ltac:(rewrite Em, Ex; lra) ltac:(lra))
    as (Hwx & _ & _).
  pose proof (FloatFacts.leb_refl _ Nx) as Hrefl.
  assert (T1 : in_tile libm z x y feat = true).
  { unfold in_tile, tileBbox, in_bbox. cbv beta iota zeta.
    rewrite Hlon, Hs, Hn, Hxe, Hrefl. reflexivity. }
  assert (T2 : in_tile libm z (x - 1)%float y feat = true).
  { unfold in_tile, tileBbox, in_bbox. cbv beta iota zeta.
    rewrite Hlon, Eq, Hs, Hn, Hwx, Hrefl. reflexivity. }
  pose proof (in_tile_survivor libm geojson z x y feat Hfeat T1) as S1.
  pose proof (in_tile_survivor libm geojson z _ y feat Hfeat T2) as S2.
  split; [exact S1|]. split; [exact S2|].
  split; [exact (generateTilePbf_keeps _ _ _ _ _ _ S1)
         |exact (generateTilePbf_keeps _ _ _ _ _ _ S2)].
Qed.

Lemma shared_edge_in_both_tiles_witness :
  let x := JsNum.of_Z 909 in
  let feat := {| properties := JNull; longitude := tile2lon x 10;
                 latitude := 35.681 |} in
  let geojson := {| features := [Examples.osaka; feat] |} in
  In feat (tile_survivors RefMath.libm geojson 10 x 403)
  /\ In feat (tile_survivors RefMath.libm geojson 10 (x - 1)%float 403)
  /\ generateTilePbf RefMath.libm geojson 10 x 403 <> []
  /\ generateTilePbf RefMath.libm geojson 10 (x - 1)%float 403 <> [].
Proof.
  apply (shared_edge_in_both_tiles RefMath.libm
           {| features := [Examples.osaka;
                           {| properties := JNull;
                              longitude := tile2lon (JsNum.of_Z 909) 10;
                              latitude := 35.681 |}] |}
           10 909 403).
  - lia.
  - lia.
  - right. left. reflexivity.
  - reflexivity.
  - float_eval.
  - float_eval.
Defined.

(** ** More on finite numbers *)


Lemma rounds_of_finite (f : float) (r : spec_float) :
  finite f -> rounds (FR f) r -> key r = FR f.
Proof.
  unfold finite, FR. intros F Hr. pose proof (Prim2SF_valid f) as V.
  destruct (Prim2SF f) as [s|s| |s m e]; try contradiction.
  - cbn [key] in *.
    destruct Hr as [[_ [s' ->]]|[[Q _]|[N _]]]; [reflexivity|lra|lra].
  - rewrite (rounds_exact s m e r V Hr). reflexivity.
Qed.


Lemma finite_mul_inv (a c : float) :
  finite (a * c) -> finite c -> finite a.
Proof.
  unfold finite. rewrite mul_spec. unfold SF64mul.
  destruct (Prim2SF a) as [sa|sa| |sa ma ea], (Prim2SF c) as [sc|sc| |sc mc ec];
    cbn [SFmul SFfinite]; tauto.
Qed.

Lemma finite_div_inv (a c : float) :
  finite (a / c) -> finite c -> finite a.
Proof.
  unfold finite. rewrite div_spec. unfold SF64div.
  destruct (Prim2SF a) as [sa|sa| |sa ma ea], (Prim2SF c) as [sc|sc| |sc mc ec];
    cbn [SFdiv SFfinite]; tauto.
Qed.

(** A number between two finite numbers is finite. *)
Lemma leb_between_finite (a x b : float) :
  finite a -> finite b ->
  (a <=? x)%float = true -> (x <=? b)%float = true ->
  finite x /\ (FR a <= FR x <= FR b)%R.
Proof.
  intros Fa Fb Hax Hxb.
  destruct (FloatFacts.leb_not_nan _ _ Hax) as [Na Nx].
  destruct (FloatFacts.leb_not_nan _ _ Hxb) as [_ Nb].
  apply leb_FR in Hax, Hxb; try assumption.
  pose proof (finite_FR_bound a Fa). pose proof (finite_FR_bound b Fb).
  split; [|lra]. apply finite_of_FR_bound; [assumption|lra].
Qed.

Lemma FR_between_finite (a x b : float) :
  finite a -> finite b -> is_nan x = false ->
  (FR a <= FR x <= FR b)%R -> finite x.
Proof.
  intros Fa Fb Nx H.
  pose proof (finite_FR_bound a Fa). pose proof (finite_FR_bound b Fb).
  apply finite_of_FR_bound; [assumption|lra].
Qed.

(** ** The scaled relative position *)

Lemma FR_leb_0 (c : float) : finite c -> (0 <=? c)%float = true -> (0 <= FR c)%R.
Proof.
  intros F H. rewrite <- FR_zero.
  apply leb_FR; [reflexivity|apply finite_not_nan; exact F|exact H].
Qed.

Lemma FR_ltb_0 (c : float) : finite c -> (0 <? c)%float = true -> (0 < FR c)%R.
Proof.
  intros F H. rewrite <- FR_zero.
  apply ltb_FR; [reflexivity|apply finite_not_nan; exact F|exact H].
Qed.




(** ** Tile-local coordinates *)



Lemma finite_R : finite 20037508.34 /\ (0 <= FR 20037508.34)%R.
Proof.
  assert (F : finite 20037508.34) by (apply finiteb_finite; float_eval).
  split; [exact F|]. apply FR_leb_0; [exact F|float_eval].
Qed.

Lemma finite_180 : finite 180 /\ (0 < FR 180)%R.
Proof.
  assert (F : finite 180) by (apply finiteb_finite; float_eval).
  split; [exact F|]. apply FR_ltb_0; [exact F|float_eval].
Qed.

(** The x of [lonLatToMeters] is nondecreasing in the longitude. *)
Lemma meters_x_between (a v b : float) :
  finite (a * 20037508.34 / 180) -> finite (b * 20037508.34 / 180) ->
  (a <=? v)%float = true -> (v <=? b)%float = true ->
  finite (v * 20037508.34 / 180)
  /\ (FR (a * 20037508.34 / 180) <= FR (v * 20037508.34 / 180)
      <= FR (b * 20037508.34 / 180))%R.
Proof.
  intros Fa Fb Hav Hvb.
  destruct finite_R as [FR_ HR]. destruct finite_180 as [F180 H180].
  pose proof (finite_div_inv _ _ Fa F180) as Far.
  pose proof (finite_div_inv _ _ Fb F180) as Fbr.
  pose proof (finite_mul_inv _ _ Far FR_) as Fa0.
  pose proof (finite_mul_inv _ _ Fbr FR_) as Fb0.
  destruct (leb_between_finite a v b Fa0 Fb0 Hav Hvb) as [Fv [Hv1 Hv2]].
  destruct (mul_le_compat_r a v _ Fa0 Fv FR_ HR Hv1) as (M1 & _ & Nv).
  destruct (mul_le_compat_r v b _ Fv Fb0 FR_ HR Hv2) as (M2 & _ & _).
  pose proof (FR_between_finite _ _ _ Far Fbr Nv (conj M1 M2)) as Fvr.
  destruct (div_le_compat _ _ 180 Far Fvr F180 H180 M1) as (D1 & _ & Nd).
  destruct (div_le_compat _ _ 180 Fvr Fbr F180 H180 M2) as (D2 & _ & _).
  split; [|split; assumption].
  exact (FR_between_finite _ _ _ Fa Fb Nd (conj D1 D2)).
Qed.





(** The corners of the tile of zoom 0: the north-west corner is (0, 0),
    the south-east corner is (4096, 4096). *)
Example projectToTileCoordinates_corners :
  let '(w, s, e, n) := tileBbox RefMath.libm 0 0 0 in
  let bbox := tileBboxMeters RefMath.libm 0 0 0 in
  projectToTileCoordinates RefMath.libm w n 4096 bbox = (0, 0)%float
  /\ projectToTileCoordinates RefMath.libm e s 4096 bbox = (4096, 4096)%float.
Proof. by_evaluation. Qed.

(** * Further properties of the encoder *)

(** ** [writeVarint] on every value *)

Lemma encode_fuel_length (fuel : nat) :
  forall n, 0 <= n -> Z.log2 n <= Z.of_nat fuel ->
    List.length (Varint.encode_fuel fuel n) = varint_size n.
Proof.
  unfold varint_size.
  induction fuel as [|fuel IH]; intros n Hn Hlog; cbn [Varint.encode_fuel].
  - assert (E : Z.log2 n = 0) by (pose proof (Z.log2_nonneg n); lia).
    rewrite E. reflexivity.
  - destruct (Z.leb_spec n 127) as [Hle|Hgt].
    + assert (Z.log2 n < 7).
      { destruct (Z.eq_dec n 0) as [->|]; [simpl; lia|].
        apply Z.log2_lt_pow2; lia. }
      rewrite Z.div_small by (pose proof (Z.log2_nonneg n); lia). reflexivity.
    + assert (H7 : 7 <= Z.log2 n) by (apply (Z.log2_le_pow2 n 7); lia).
      assert (Hd : Z.log2 (n / 128) = Z.log2 n - 7).
      { change 128 with (2 ^ 7). rewrite <- Z.shiftr_div_pow2 by lia.
        rewrite Z.log2_shiftr by lia. lia. }
      cbn [List.length]. rewrite IH.
      * rewrite Hd. replace (Z.log2 n) with ((Z.log2 n - 7) + 1 * 7) at 2 by lia.
        rewrite Z.div_add by lia.
        assert (0 <= (Z.log2 n - 7) / 7) by (apply Z.div_pos; lia). lia.
      * apply Z.div_pos; lia.
      * lia.
Qed.

Lemma writeVarint_size (n : Z) :
  0 <= n < 2147483648 -> List.length (writeVarint [] n) = varint_size n.
Proof.
  intros Hn. rewrite writeVarint_encode by exact Hn.
  unfold Wire.varint, Varint.encode. apply encode_fuel_length; [lia|].
  rewrite Z2Nat.id by apply Z.log2_nonneg. lia.
Qed.

(** X1: whatever the value (negative, or beyond 32 bits), [writeVarint]
    leaves the elements of the array as they are and appends between one
    and five elements, which do not depend on the array. *)
Theorem writeVarint_appends_any (val : Z) :
  exists bs,
    (1 <= List.length bs <= 5)%nat
    /\ forall arr, writeVarint arr val = arr ++ bs.
Proof.
  exists (writeVarint [] val). split; [|intros arr; apply writeVarint_app].
  destruct (Z_gt_dec val 127) as [Hgt|Hle].
  - rewrite writeVarint_continue by exact Hgt. rewrite writeVarint_app.
    rewrite length_app. cbn [List.length app].
    set (v := Int32.sar val 7).
    assert (Hv : -16777216 <= v < 16777216).
    { unfold v, Int32.sar. change (7 mod 32) with 7.
      pose proof (Int32.wrap_range val) as Hr.
      rewrite Z.shiftr_div_pow2 by lia. change (2 ^ 7) with 128.
      split; [apply Z.div_le_lower_bound|apply Z.div_lt_upper_bound]; lia. }
    destruct (Z_lt_dec v 0) as [Hneg|Hpos].
    + rewrite writeVarint_stop by lia. cbn [List.length app]. lia.
    + rewrite writeVarint_size by lia. unfold varint_size.
      assert (Z.log2 v < 24).
      { destruct (Z.eq_dec v 0) as [->|]; [simpl; lia|].
        apply Z.log2_lt_pow2; lia. }
      assert (Z.log2 v / 7 < 4) by (apply Z.div_lt_upper_bound; lia).
      assert (0 <= Z.log2 v / 7) by (apply Z.div_pos; [apply Z.log2_nonneg|lia]).
      lia.
  - rewrite writeVarint_stop by lia. cbn [List.length app]. lia.
Qed.

(** X2: for [0 <= n < 2^31], [writeVarint] appends exactly as many bytes
    as [n] has 7-bit groups, [floor(log2 n / 7) + 1]: one byte up to 127,
    two up to 16383, and so on. *)
Theorem writeVarint_length (arr : list Z) (n : Z) :
  0 <= n < 2147483648 ->
  List.length (writeVarint arr n)
  = (List.length arr + (Z.to_nat (Z.log2 n / 7) + 1))%nat.
Proof.
  intros Hn. rewrite writeVarint_app, length_app, writeVarint_size by exact Hn.
  reflexivity.
Qed.

Lemma writeVarint_length_witness :
  List.length (writeVarint [7] 300)
  = (List.length [7] + (Z.to_nat (Z.log2 300 / 7) + 1))%nat.
Proof. apply (writeVarint_length [7] 300). lia. Defined.

(** ** ZigZag *)

Lemma zigzag_closed_form (n : Z) :
  -1073741824 <= n < 1073741824 ->
  Wire.zigzag n = if 0 <=? n then 2 * n else - 2 * n - 1.
Proof.
  intros Hn. unfold Wire.zigzag.
  rewrite Z.shiftl_mul_pow2, Z.shiftr_div_pow2 by lia.
  change (2 ^ 1) with 2. change (2 ^ 31) with 2147483648.
  destruct (Z.leb_spec 0 n) as [Hpos|Hneg].
  - rewrite Z.div_small by lia. rewrite Z.lxor_0_r. lia.
  - assert (Hq : n / 2147483648 = -1).
    { symmetry. apply (Z.div_unique n 2147483648 (-1) (n + 2147483648)); lia. }
    rewrite Hq, Z.lxor_m1_r. unfold Z.lnot. lia.
Qed.

Lemma unzigzag_even (n : Z) : unzigzag (2 * n) = n.
Proof.
  unfold unzigzag. rewrite Z.shiftr_div_pow2 by lia. change (2 ^ 1) with 2.
  replace (2 * n) with (n * 2) by lia. rewrite Z.div_mul by lia.
  change 1 with (Z.ones 1). rewrite Z.land_ones by lia. change (2 ^ 1) with 2.
  rewrite Z.mod_mul by lia. change (- 0) with 0. apply Z.lxor_0_r.
Qed.

Lemma unzigzag_odd (m : Z) : unzigzag (2 * m + 1) = - m - 1.
Proof.
  unfold unzigzag. rewrite Z.shiftr_div_pow2 by lia. change (2 ^ 1) with 2.
  replace (2 * m + 1) with (1 + m * 2) by lia.
  rewrite Z.div_add by lia. change (1 / 2) with 0.
  change 1 with (Z.ones 1) at 2. rewrite Z.land_ones by lia. change (2 ^ 1) with 2.
  rewrite Z.mod_add by lia. change (1 mod 2) with 1.
  rewrite Z.lxor_m1_r. unfold Z.lnot. lia.
Qed.

(** X3: for a coordinate whose 32-bit integer value [n] is within
    [-2^30, 2^30), [zigZagEncode] returns [2n] when [n >= 0] and
    [-2n - 1] when [n < 0], a natural number below 2^31, from which the
    reader's [(u >>> 1) ^ -(u & 1)] recovers [n]. *)
Theorem zigZagEncode_roundtrip (v : float) :
  fits_zigzag v ->
  let n := JsNum.ToInt32 v in
  zigZagEncode v = (if 0 <=? n then 2 * n else - 2 * n - 1)
  /\ 0 <= zigZagEncode v < 2147483648
  /\ unzigzag (zigZagEncode v) = n.
Proof.
  intros Hv n. destruct (zigZagEncode_wire v Hv) as [E B]. fold n in E, B.
  unfold fits_zigzag in Hv. fold n in Hv.
  rewrite E. rewrite (zigzag_closed_form n Hv) in *.
  split; [reflexivity|]. split; [exact B|].
  destruct (Z.leb_spec 0 n) as [Hpos|Hneg].
  - apply unzigzag_even.
  - replace (- 2 * n - 1) with (2 * (- n - 1) + 1) by lia.
    rewrite unzigzag_odd. lia.
Qed.

Lemma zigZagEncode_roundtrip_witness :
  let n := JsNum.ToInt32 (-3) in
  zigZagEncode (-3) = (if 0 <=? n then 2 * n else - 2 * n - 1)
  /\ 0 <= zigZagEncode (-3) < 2147483648
  /\ unzigzag (zigZagEncode (-3)) = n.
Proof.
  apply (zigZagEncode_roundtrip (-3)%float). unfold fits_zigzag.
  vm_compute. split; [discriminate|reflexivity].
Defined.

Lemma wrap_double (n : Z) :
  -2147483648 <= n < 2147483648 ->
  Int32.wrap (n * 2)
  = if n <? -1073741824 then n * 2 + 4294967296
    else if n <? 1073741824 then n * 2 else n * 2 - 4294967296.
Proof.
  intros Hn. unfold Int32.wrap.
  destruct (Z.ltb_spec n (-1073741824)); [|destruct (Z.ltb_spec n 1073741824)].
  - rewrite <- (Z.mod_add _ 1) by lia. rewrite Z.mod_small by lia. lia.
  - rewrite Z.mod_small by lia. lia.
  - rewrite <- (Z.mod_add _ (-1)) by lia. rewrite Z.mod_small by lia. lia.
Qed.

(** X4: [zigZagEncode] returns a negative number exactly when the 32-bit
    integer value of the coordinate is outside [-2^30, 2^30): the doubling
    [num << 1] then overflows 32 bits. *)
Theorem zigZagEncode_negative_iff (v : float) :
  zigZagEncode v < 0 <-> ~ fits_zigzag v.
Proof.
  unfold fits_zigzag, zigZagEncode. set (n := JsNum.ToInt32 v).
  assert (Hn : -2147483648 <= n < 2147483648) by apply Int32.wrap_range.
  unfold Int32.xor, Int32.shl, Int32.sar.
  change (1 mod 32) with 1. change (31 mod 32) with 31.
  rewrite (Int32.wrap_small n) by lia.
  rewrite Z.shiftl_mul_pow2, Z.shiftr_div_pow2 by lia.
  change (2 ^ 1) with 2. change (2 ^ 31) with 2147483648.
  pose proof (Int32.wrap_range (n * 2)) as Hw.
  rewrite (Int32.wrap_small (Int32.wrap (n * 2))) by lia.
  pose proof (wrap_double n Hn) as Hd.
  destruct (Z_lt_dec n 0) as [Hneg|Hpos].
  - assert (Hq : n / 2147483648 = -1).
    { symmetry. apply (Z.div_unique n 2147483648 (-1) (n + 2147483648)); lia. }
    rewrite Hq. change (Int32.wrap (-1)) with (-1).
    rewrite Z.lxor_m1_r. unfold Z.lnot.
    destruct (Z.ltb_spec n (-1073741824)); [lia|].
    destruct (Z.ltb_spec n 1073741824); lia.
  - rewrite Z.div_small by lia. change (Int32.wrap 0) with 0.
    rewrite Z.lxor_0_r.
    destruct (Z.ltb_spec n (-1073741824)); [lia|].
    destruct (Z.ltb_spec n 1073741824); lia.
Qed.

(** ** [writeString] *)

Lemma tag_value (field wire_type : Z) :
  0 <= field < 268435456 -> 0 <= wire_type < 8 ->
  Int32.or (Int32.shl field 3) wire_type = Z.lor (Z.shiftl field 3) wire_type
  /\ 0 <= Z.lor (Z.shiftl field 3) wire_type < 2147483648.
Proof.
  intros Hf Hw. unfold Int32.or, Int32.shl. change (3 mod 32) with 3.
  rewrite (Int32.wrap_small field) by lia.
  rewrite Z.shiftl_mul_pow2 by lia. change (2 ^ 3) with 8.
  rewrite !(Int32.wrap_small (field * 8)) by lia.
  rewrite (Int32.wrap_small wire_type) by lia.
  split; [reflexivity|].
  assert (Hland : Z.land (field * 8) wire_type = 0).
  { apply Z.bits_inj'. intros k Hk. rewrite Z.land_spec, Z.bits_0.
    destruct (Z_lt_dec k 3).
    - replace (field * 8) with (field * 2 ^ 3) by lia.
      rewrite Z.mul_pow2_bits_low by lia. reflexivity.
    - rewrite (Z.bits_above_log2 wire_type k), andb_false_r; [reflexivity|lia|].
      destruct (Z.eq_dec wire_type 0) as [->|]; [simpl; lia|].
      assert (Z.log2 wire_type < 3) by (apply Z.log2_lt_pow2; lia). lia. }
  assert (Hadd : Z.lor (field * 8) wire_type = field * 8 + wire_type).
  { rewrite <- (Z.lxor_lor _ _ Hland). symmetry. apply Z.add_nocarry_lxor.
    exact Hland. }
  rewrite Hadd. lia.
Qed.

(** X5: for a field number below 2^28 and a string of fewer than 2^31
    bytes, [writeString] appends a length-delimited field: the tag
    [(fieldNumber << 3) | 2] as a varint, the varint of the byte length,
    then the bytes; every element appended is a byte. *)
Theorem writeString_wire (arr : list Z) (fieldNumber : Z) (str : string) :
  0 <= fieldNumber < 268435456 ->
  Z.of_nat (String.length str) < 2147483648 ->
  writeString arr fieldNumber str = arr ++ Wire.string_field fieldNumber str
  /\ Forall Varint.is_byte (Wire.string_field fieldNumber str).
Proof.
  intros Hf Hlen.
  assert (Hl : List.length (utf8 str) = String.length str).
  { unfold utf8. rewrite length_map. clear. induction str as [|c s IH];
      [reflexivity|cbn; rewrite IH; reflexivity]. }
  destruct (tag_value fieldNumber 2 Hf ltac:(lia)) as [Et Bt].
  unfold writeString, Wire.string_field, Wire.length_delimited, Wire.tag.
  rewrite Et. rewrite (writeVarint_wire arr) by exact Bt.
  rewrite writeVarint_wire by (rewrite Hl; lia).
  rewrite <- !app_assoc. split; [reflexivity|].
  apply bytes_app; [apply varint_bytes; exact Bt|].
  apply bytes_app; [apply varint_bytes; rewrite Hl; lia|apply utf8_bytes].
Qed.

Lemma writeString_wire_witness :
  writeString [26; 12] 1 "myLayer" = [26; 12] ++ Wire.string_field 1 "myLayer"
  /\ Forall Varint.is_byte (Wire.string_field 1 "myLayer").
Proof. apply (writeString_wire [26; 12] 1 "myLayer"); simpl; lia. Defined.

(** * The bounding box of a collection *)

Lemma getGeoJsonBBox_bbox_from (geojson : GeoJson) :
  getGeoJsonBBox geojson = bbox_from (180, 90, -180, -90)%float (features geojson).
Proof. reflexivity. Qed.

Lemma bbox_from_cons (box : float * float * float * float) (f : Feature)
    (fs : list Feature) :
  bbox_from box (f :: fs) = bbox_from (bbox_from box [f]) fs.
Proof. reflexivity. Qed.

Lemma bbox_from_app (box : float * float * float * float) (fs gs : list Feature) :
  bbox_from box (fs ++ gs) = bbox_from (bbox_from box fs) gs.
Proof. unfold bbox_from. apply fold_left_app. Qed.

Lemma leb_trans (a b c : float) :
  (a <=? b)%float = true -> (b <=? c)%float = true -> (a <=? c)%float = true.
Proof.
  intros Hab Hbc.
  destruct (FloatFacts.leb_not_nan _ _ Hab) as [Na Nb].
  destruct (FloatFacts.leb_not_nan _ _ Hbc) as [_ Nc].
  apply leb_FR in Hab, Hbc; try assumption. apply leb_FR; try assumption. lra.
Qed.

Lemma ltb_nan_l (a b : float) : is_nan a = true -> (a <? b)%float = false.
Proof.
  intros H. rewrite ltb_spec, (FloatFacts.is_nan_Prim2SF a H). reflexivity.
Qed.

Lemma ltb_nan_r (a b : float) : is_nan b = true -> (a <? b)%float = false.
Proof.
  intros H. rewrite ltb_spec, (FloatFacts.is_nan_Prim2SF b H).
  unfold SFltb. rewrite FloatFacts.SFcompare_nan_r. reflexivity.
Qed.

(** The lower edge after one comparison [if (v < lo) lo = v]. *)
Lemma lower_step (lo v : float) :
  is_nan lo = false ->
  let lo' := if (v <? lo)%float then v else lo in
  is_nan lo' = false /\ (lo' <=? lo)%float = true
  /\ (is_nan v = false -> (lo' <=? v)%float = true)
  /\ (lo' = lo \/ lo' = v).
Proof.
  intros Nlo. cbv zeta. destruct (v <? lo)%float eqn:E.
  - pose proof (FloatFacts.ltb_leb _ _ E) as L.
    destruct (FloatFacts.leb_not_nan _ _ L) as [Nv _].
    repeat split; auto. intros _. apply FloatFacts.leb_refl. exact Nv.
  - repeat split; auto; [apply FloatFacts.leb_refl; exact Nlo|].
    intros Nv. apply FloatFacts.ltb_false_leb; assumption.
Qed.

(** The upper edge after one comparison [if (v > hi) hi = v]. *)
Lemma upper_step (hi v : float) :
  is_nan hi = false ->
  let hi' := if (hi <? v)%float then v else hi in
  is_nan hi' = false /\ (hi <=? hi')%float = true
  /\ (is_nan v = false -> (v <=? hi')%float = true)
  /\ (hi' = hi \/ hi' = v).
Proof.
  intros Nhi. cbv zeta. destruct (hi <? v)%float eqn:E.
  - pose proof (FloatFacts.ltb_leb _ _ E) as L.
    destruct (FloatFacts.leb_not_nan _ _ L) as [_ Nv].
    repeat split; auto. intros _. apply FloatFacts.leb_refl. exact Nv.
  - repeat split; auto; [apply FloatFacts.leb_refl; exact Nhi|].
    intros Nv. apply FloatFacts.ltb_false_leb; assumption.
Qed.

Lemma bbox_step (w s e n : float) (f : Feature) :
  is_nan w = false -> is_nan s = false -> is_nan e = false -> is_nan n = false ->
  exists w' s' e' n',
    bbox_from (w, s, e, n) [f] = (w', s', e', n')
    /\ box_grows (w, s, e, n) (w', s', e', n')
    /\ box_holds (w', s', e', n') f
    /\ (w' = w \/ w' = longitude f) /\ (s' = s \/ s' = latitude f)
    /\ (e' = e \/ e' = longitude f) /\ (n' = n \/ n' = latitude f).
Proof.
  intros Nw Ns Ne Nn.
  destruct (lower_step w (longitude f) Nw) as (Nw' & Lw & Hw & Cw).
  destruct (lower_step s (latitude f) Ns) as (Ns' & Ls & Hs & Cs).
  destruct (upper_step e (longitude f) Ne) as (Ne' & Le & He & Ce).
  destruct (upper_step n (latitude f) Nn) as (Nn' & Ln & Hn & Cn).
  do 4 eexists. split; [reflexivity|].
  split; [repeat split; assumption|].
  split; [split; intros N; split; auto|].
  repeat split; assumption.
Qed.

Lemma box_grows_not_nan (b b' : float * float * float * float) :
  box_grows b b' ->
  let '(w', s', e', n') := b' in
  is_nan w' = false /\ is_nan s' = false /\ is_nan e' = false /\ is_nan n' = false.
Proof.
  destruct b as [[[w s] e] n], b' as [[[w' s'] e'] n'].
  intros (H1 & H2 & H3 & H4).
  destruct (FloatFacts.leb_not_nan _ _ H1), (FloatFacts.leb_not_nan _ _ H2),
    (FloatFacts.leb_not_nan _ _ H3), (FloatFacts.leb_not_nan _ _ H4).
  repeat split; assumption.
Qed.

Lemma box_grows_trans (a b c : float * float * float * float) :
  box_grows a b -> box_grows b c -> box_grows a c.
Proof.
  destruct a as [[[w s] e] n], b as [[[w1 s1] e1] n1], c as [[[w2 s2] e2] n2].
  intros (A1 & A2 & A3 & A4) (B1 & B2 & B3 & B4).
  repeat split; eapply leb_trans; eassumption.
Qed.

Lemma box_holds_grows (b b' : float * float * float * float) (f : Feature) :
  box_grows b b' -> box_holds b f -> box_holds b' f.
Proof.
  destruct b as [[[w s] e] n], b' as [[[w' s'] e'] n'].
  intros (G1 & G2 & G3 & G4) [Hlon Hlat]. split; intros N.
  - destruct (Hlon N). split; eapply leb_trans; eassumption.
  - destruct (Hlat N). split; eapply leb_trans; eassumption.
Qed.

(** What the loop keeps, from a box without NaN. *)
Lemma bbox_from_invariant (fs : list Feature) :
  forall w s e n,
    is_nan w = false -> is_nan s = false -> is_nan e = false -> is_nan n = false ->
    box_grows (w, s, e, n) (bbox_from (w, s, e, n) fs)
    /\ (forall f, In f fs -> box_holds (bbox_from (w, s, e, n) fs) f)
    /\ (let '(w', s', e', n') := bbox_from (w, s, e, n) fs in
        (w' = w \/ exists f, In f fs /\ w' = longitude f)
        /\ (s' = s \/ exists f, In f fs /\ s' = latitude f)
        /\ (e' = e \/ exists f, In f fs /\ e' = longitude f)
        /\ (n' = n \/ exists f, In f fs /\ n' = latitude f)).
Proof.
  induction fs as [|f fs IH]; intros w s e n Nw Ns Ne Nn.
  - cbn [bbox_from fold_left].
    split; [repeat split; apply FloatFacts.leb_refl; assumption|].
    split; [intros f []|]. repeat split; left; reflexivity.
  - rewrite bbox_from_cons.
    destruct (bbox_step w s e n f Nw Ns Ne Nn)
      as (w1 & s1 & e1 & n1 & E & G & H & Cw & Cs & Ce & Cn).
    rewrite E.
    pose proof (box_grows_not_nan _ _ G) as (Nw1 & Ns1 & Ne1 & Nn1).
    destruct (IH w1 s1 e1 n1 Nw1 Ns1 Ne1 Nn1) as (G' & H' & A').
    split; [exact (box_grows_trans _ _ _ G G')|].
    split.
    + intros g [<-|Hg]; [exact (box_holds_grows _ _ _ G' H)|exact (H' g Hg)].
    + destruct (bbox_from (w1, s1, e1, n1) fs) as [[[w2 s2] e2] n2].
      destruct A' as (Aw & As & Ae & An).
      assert (Hext : forall (v v1 v0 : float) (c : Feature -> float),
                (v = v1 \/ exists g, In g fs /\ v = c g) ->
                (v1 = v0 \/ v1 = c f) ->
                v = v0 \/ exists g, In g (f :: fs) /\ v = c g).
      { intros v v1 v0 c [->|(g & Hg & ->)] Hc.
        - destruct Hc as [->| ->]; [left; reflexivity|].
          right. exists f. split; [left; reflexivity|reflexivity].
        - right. exists g. split; [right; exact Hg|reflexivity]. }
      repeat split; eapply Hext; eassumption.
Qed.

Lemma getGeoJsonBBox_facts (geojson : GeoJson) :
  proper_box (getGeoJsonBBox geojson)
  /\ (forall f, In f (features geojson) -> box_holds (getGeoJsonBBox geojson) f)
  /\ box_attained (getGeoJsonBBox geojson) (features geojson).
Proof.
  rewrite getGeoJsonBBox_bbox_from.
  destruct (bbox_from_invariant (features geojson) 180 90 (-180) (-90)
              eq_refl eq_refl eq_refl eq_refl) as (G & H & A).
  unfold proper_box, box_attained.
  destruct (bbox_from _ _) as [[[w s] e] n].
  split; [exact G|]. split; [exact H|exact A].
Qed.

(** X6: the box of [getGeoJsonBBox] holds every coordinate that is a
    number: for each feature, [west <= lon <= east] unless [lon] is NaN,
    and [south <= lat <= north] unless [lat] is NaN. *)
Theorem getGeoJsonBBox_holds (geojson : GeoJson) (f : Feature) :
  In f (features geojson) -> box_holds (getGeoJsonBBox geojson) f.
Proof. intros Hf. exact (proj1 (proj2 (getGeoJsonBBox_facts geojson)) f Hf). Qed.

Lemma getGeoJsonBBox_holds_witness :
  box_holds (getGeoJsonBBox {| features := [Examples.tokyo; Examples.osaka] |})
            Examples.osaka.
Proof.
  apply (getGeoJsonBBox_holds {| features := [Examples.tokyo; Examples.osaka] |}).
  right. left. reflexivity.
Defined.

(** X7: the box is tight: each edge returned by [getGeoJsonBBox] is the
    initial value (180, 90, -180, -90) or that coordinate of some feature
    of the collection. *)
Theorem getGeoJsonBBox_attained (geojson : GeoJson) :
  box_attained (getGeoJsonBBox geojson) (features geojson).
Proof. exact (proj2 (proj2 (getGeoJsonBBox_facts geojson))). Qed.

(** X8: whatever the input, no edge of the box is NaN, and
    [west <= 180], [south <= 90], [east >= -180], [north >= -90]; a
    feature whose two coordinates are NaN leaves the box as it is. *)
Theorem getGeoJsonBBox_proper (geojson : GeoJson) :
  proper_box (getGeoJsonBBox geojson)
  /\ forall fs1 fs2 f,
       is_nan (longitude f) = true -> is_nan (latitude f) = true ->
       getGeoJsonBBox {| features := fs1 ++ f :: fs2 |}
       = getGeoJsonBBox {| features := fs1 ++ fs2 |}.
Proof.
  split; [exact (proj1 (getGeoJsonBBox_facts geojson))|].
  intros fs1 fs2 f Nlon Nlat. rewrite !getGeoJsonBBox_bbox_from. cbn [features].
  rewrite !bbox_from_app, bbox_from_cons. f_equal.
  destruct (bbox_from _ fs1) as [[[w s] e] n].
  cbn [bbox_from fold_left].
  rewrite (ltb_nan_l _ w Nlon), (ltb_nan_r e _ Nlon),
    (ltb_nan_l _ s Nlat), (ltb_nan_r n _ Nlat). reflexivity.
Qed.

(** X9: when the collection has a feature whose coordinates are numbers,
    the box satisfies [west <= east] and [south <= north]. *)
Theorem getGeoJsonBBox_ordered (geojson : GeoJson) (f : Feature) :
  In f (features geojson) ->
  is_nan (longitude f) = false -> is_nan (latitude f) = false ->
  let '(w, s, e, n) := getGeoJsonBBox geojson in
  (w <=? e)%float = true /\ (s <=? n)%float = true.
Proof.
  intros Hf Nlon Nlat.
  pose proof (proj1 (proj2 (getGeoJsonBBox_facts geojson)) f Hf) as H.
  destruct (getGeoJsonBBox geojson) as [[[w s] e] n].
  destruct H as [Hlon Hlat].
  destruct (Hlon Nlon), (Hlat Nlat). split; eapply leb_trans; eassumption.
Qed.

Lemma getGeoJsonBBox_ordered_witness :
  let '(w, s, e, n) :=
    getGeoJsonBBox {| features := [Examples.tokyo; Examples.nan_point] |} in
  (w <=? e)%float = true /\ (s <=? n)%float = true.
Proof.
  apply (getGeoJsonBBox_ordered
           {| features := [Examples.tokyo; Examples.nan_point] |} Examples.tokyo);
    [left; reflexivity|reflexivity|reflexivity].
Defined.

(** * Tile columns and longitudes *)

(** ** Dyadic numbers are rounded to themselves *)

Lemma round_canon_dyadic (n s m e : Z) (l : location) :
  0 < n <= 2 ^ 53 -> -1074 <= s <= 970 ->
  trunc (IZR n * bpow s) m e l ->
  key (round_canon false m e l) = (IZR n * bpow s)%R.
Proof.
  intros Hn Hs T. destruct (round_canon_key _ _ _ _ T) as [-> _].
  destruct T as (H & Hm & k & [L U] & He).
  pose proof (bpow_pos s) as Ps.
  assert (Hn53 : (IZR n <= bpow 53)%R).
  { rewrite (bpow_IZR 53) by lia. apply IZR_le. lia. }
  assert (Hk : k <= 54 + s).
  { assert (Hb : (bpow (k - 1) < bpow (54 + s))%R).
    { apply Rle_lt_trans with (IZR n * bpow s)%R; [exact L|].
      apply Rle_lt_trans with (bpow 53 * bpow s)%R.
      - apply Rmult_le_compat_r; lra.
      - rewrite <- bpow_add. apply bpow_lt. lia. }
    apply bpow_lt_inv in Hb. lia. }
  assert (Hgrid : exists M0, (IZR n * bpow s)%R = (IZR M0 * bpow e)%R).
  { destruct (Z_le_dec e s) as [Hle|Hgt].
    - exists (n * 2 ^ (s - e)). rewrite mult_IZR, <- bpow_IZR by lia.
      rewrite Rmult_assoc, <- bpow_add. f_equal. f_equal. lia.
    - assert (He1 : e = s + 1) by (unfold fexp64 in He; lia).
      assert (Hk54 : k = 54 + s) by (unfold fexp64 in He; lia).
      exists (2 ^ 52). rewrite He1.
      rewrite Hk54 in L. replace (54 + s - 1) with (53 + s) in L by lia.
      rewrite bpow_add in L.
      assert (Hge : (bpow 53 <= IZR n)%R).
      { apply (Rmult_le_reg_r (bpow s)); assumption. }
      rewrite (bpow_IZR 53) in Hge by lia. apply le_IZR in Hge.
      assert (En : n = 2 ^ 53) by lia. rewrite En.
      rewrite (bpow_add s 1), bpow_1.
      change (2 ^ 53) with (2 ^ 52 * 2). rewrite mult_IZR. simpl (IZR 2). ring. }
  destruct Hgrid as [M0 HM0].
  assert (Hl0 : located (IZR n * bpow s) M0 e loc_Exact) by exact HM0.
  destruct (located_unique _ _ _ _ _ _ H Hl0) as [-> ->].
  cbn [round_nearest_even]. rewrite <- HM0.
  apply Rmin_left.
  apply Rle_trans with (bpow 53 * bpow s)%R.
  - apply Rmult_le_compat_r; lra.
  - rewrite <- bpow_add. apply bpow_le. lia.
Qed.

Theorem rounds_dyadic (n s : Z) (r : spec_float) :
  - 2 ^ 53 <= n <= 2 ^ 53 -> -1074 <= s <= 970 ->
  rounds (IZR n * bpow s) r -> key r = (IZR n * bpow s)%R.
Proof.
  intros Hn Hs Hr. pose proof (bpow_pos s) as Ps.
  destruct Hr as [[Z1 [sg ->]]|[[Q1 (m & e & l & T & ->)]|[N1 (m & e & l & T & ->)]]].
  - rewrite Z1. reflexivity.
  - assert (0 < n).
    { apply lt_IZR. apply (Rmult_lt_reg_r (bpow s)); [exact Ps|]. lra. }
    apply round_canon_dyadic; [lia|exact Hs|exact T].
  - assert (n < 0).
    { apply lt_IZR. apply (Rmult_lt_reg_r (bpow s)); [exact Ps|]. lra. }
    rewrite round_canon_opp, key_opp.
    replace (- (IZR n * bpow s))%R with (IZR (- n) * bpow s)%R in T
      by (rewrite opp_IZR; ring).
    rewrite (round_canon_dyadic (- n) s m e l ltac:(lia) Hs T).
    rewrite opp_IZR. ring.
Qed.

(** A float that rounds a dyadic number is finite and stands for it. *)
Lemma rounds_dyadic_float (n s : Z) (r : float) :
  - 2 ^ 53 <= n <= 2 ^ 53 -> -1074 <= s <= 970 ->
  rounds (IZR n * bpow s) (Prim2SF r) ->
  FR r = (IZR n * bpow s)%R /\ finite r.
Proof.
  intros Hn Hs Hr. pose proof (rounds_dyadic n s _ Hn Hs Hr) as E.
  split; [exact E|].
  apply (rounds_bounded_finite _ _ Hr).
  pose proof (bpow_pos s) as Ps.
  assert (Hb : (bpow 53 * bpow s <= bpow 1023)%R)
    by (rewrite <- bpow_add; apply bpow_le; lia).
  assert (H1 : (- bpow 53 <= IZR n <= bpow 53)%R).
  { rewrite (bpow_IZR 53), <- opp_IZR by lia. split; apply IZR_le; lia. }
  split; nra.
Qed.

(** ** Powers of two *)

Lemma FR_pow2 (z : Z) :
  -1021 <= z <= 1023 -> FR (JsNum.pow2 z) = bpow z /\ finite (JsNum.pow2 z).
Proof.
  intros Hz. pose proof (pow2_rounds z) as H.
  replace (bpow z) with (IZR (2 ^ 53) * bpow (z - 53))%R in H |- *.
  - apply rounds_dyadic_float; [lia|lia|exact H].
  - rewrite <- (bpow_IZR 53), <- bpow_add by lia. f_equal. lia.
Qed.

(** From zoom 0 on, [Math.pow(2, z)] is a positive number or [Infinity]. *)
Lemma pow2_shape (z : Z) :
  0 <= z ->
  (exists m e, Prim2SF (JsNum.pow2 z) = S754_finite false m e)
  \/ Prim2SF (JsNum.pow2 z) = S754_infinity false.
Proof.
  intros Hz. pose proof (pow2_rounds z) as H.
  assert (H1 : (1 <= FR (JsNum.pow2 z))%R).
  { rewrite <- FR_one.
    apply (rounds_FR_le _ _ _ _ (finite_rounds_self 1 finite_one) H).
    rewrite FR_one, <- bpow_0. apply bpow_le. exact Hz. }
  pose proof (rounds_not_nan _ _ H) as Nn.
  unfold FR in H1.
  destruct (Prim2SF (JsNum.pow2 z)) as [s|s| |s m e]; cbn [key] in H1.
  - lra.
  - right. destruct s; [|reflexivity]. pose proof (bpow_pos 1024). lra.
  - contradiction.
  - left. destruct s; [|eauto].
    assert (0 < IZR (Z.pos m) * bpow e)%R.
    { apply Rmult_lt_0_compat; [apply IZR_lt; lia|apply bpow_pos]. }
    lra.
Qed.

Lemma zero_div_pow2 (z : Z) : 0 <= z -> (0 / JsNum.pow2 z)%float = 0%float.
Proof.
  intros Hz. apply Prim2SF_inj. rewrite div_spec.
  destruct (pow2_shape z Hz) as [(m & e & ->)| ->]; reflexivity.
Qed.

Lemma zero_mul_pow2 (z : Z) : 0 <= z <= 1023 -> (0 * JsNum.pow2 z)%float = 0%float.
Proof.
  intros Hz. apply Prim2SF_inj. rewrite mul_spec.
  destruct (FR_pow2 z ltac:(lia)) as [E F].
  destruct (pow2_shape z ltac:(lia)) as [(m & e & Ep)|Ep].
  - rewrite Ep. reflexivity.
  - unfold finite in F. rewrite Ep in F. contradiction.
Qed.

Lemma FR_pow2_pos (z : Z) : -1021 <= z <= 1023 -> (0 < FR (JsNum.pow2 z))%R.
Proof. intros Hz. rewrite (proj1 (FR_pow2 z Hz)). apply bpow_pos. Qed.

Lemma pow2_div_self (z : Z) :
  0 <= z <= 1023 -> (JsNum.pow2 z / JsNum.pow2 z)%float = 1%float.
Proof.
  intros Hz. destruct (FR_pow2 z ltac:(lia)) as [E F].
  pose proof (FR_pow2_pos z ltac:(lia)) as P.
  pose proof (div_rounds _ _ F F ltac:(lra)) as H.
  replace (FR (JsNum.pow2 z) / FR (JsNum.pow2 z))%R with (IZR 1) in H
    by (field; lra).
  pose proof (rounds_integer 1 _ ltac:(lia) H) as K.
  apply FR_inj.
  - apply (rounds_bounded_finite _ _ H). pose proof (bpow_pos 1023).
    assert (bpow 0 <= bpow 1023)%R by (apply bpow_le; lia).
    rewrite bpow_0 in *. lra.
  - exact finite_one.
  - unfold FR at 1. rewrite K, FR_one. reflexivity.
  - unfold FR. rewrite K. lra.
Qed.

Lemma one_mul (p : float) : finite p -> FR p <> 0%R -> (1 * p)%float = p.
Proof.
  intros F N. pose proof (mul_rounds 1 p finite_one F) as H.
  rewrite FR_one, Rmult_1_l in H.
  pose proof (rounds_of_finite p _ F H) as K.
  apply FR_inj; [|exact F|exact K|unfold FR; rewrite K; exact N].
  apply finite_of_FR_bound; [exact (rounds_is_nan _ _ H)|].
  unfold FR. rewrite K. exact (finite_FR_bound p F).
Qed.

Lemma Math_floor_pow2 (z : Z) :
  0 <= z <= 1023 -> JsNum.Math_floor (JsNum.pow2 z) = JsNum.pow2 z.
Proof.
  intros Hz. destruct (FR_pow2 z ltac:(lia)) as [E F].
  pose proof (FR_pow2_pos z ltac:(lia)) as P.
  destruct (Math_floor_spec _ F) as (n & [L U] & En & Fn).
  rewrite E, (bpow_IZR z) in L, U by lia.
  assert (Hn : n = 2 ^ z).
  { assert (H1 : (IZR n < IZR (2 ^ z + 1))%R) by (rewrite plus_IZR; lra).
    assert (H2 : (IZR (2 ^ z) < IZR (n + 1))%R) by (rewrite plus_IZR; lra).
    apply lt_IZR in H1, H2. lia. }
  apply FR_inj; [exact Fn|exact F| |].
  - rewrite En, E, Hn, bpow_IZR by lia. reflexivity.
  - rewrite En, Hn. apply not_0_IZR. pose proof (Z.pow_pos_nonneg 2 z). lia.
Qed.

(** ** The ends of the world *)

Lemma tile2lon_zero (z : Z) : 0 <= z -> tile2lon 0 z = (-180)%float.
Proof.
  intros Hz. unfold tile2lon. rewrite zero_div_pow2 by exact Hz.
  vm_compute. reflexivity.
Qed.

Lemma tile2lon_pow2 (z : Z) :
  0 <= z <= 1023 -> tile2lon (JsNum.pow2 z) z = 180%float.
Proof.
  intros Hz. unfold tile2lon. rewrite pow2_div_self by exact Hz.
  vm_compute. reflexivity.
Qed.

Lemma long2tileX_m180 (z : Z) : 0 <= z <= 1023 -> long2tileX (-180) z = 0%float.
Proof.
  intros Hz. unfold long2tileX.
  replace ((-180 + 180) / 360)%float with 0%float by (vm_compute; reflexivity).
  rewrite zero_mul_pow2 by exact Hz. vm_compute. reflexivity.
Qed.

Lemma long2tileX_180 (z : Z) :
  0 <= z <= 1023 -> long2tileX 180 z = JsNum.pow2 z.
Proof.
  intros Hz. unfold long2tileX.
  replace ((180 + 180) / 360)%float with 1%float by (vm_compute; reflexivity).
  destruct (FR_pow2 z ltac:(lia)) as [E F].
  pose proof (FR_pow2_pos z ltac:(lia)) as P.
  rewrite one_mul by (assumption || lra). apply Math_floor_pow2. exact Hz.
Qed.

(** X10: for every zoom from 0 to 1023, column 0 starts at longitude
    -180 and column [2^z] (one past the last) starts at 180, exactly; and
    going back, [long2tileX(-180, z)] is 0 while [long2tileX(180, z)] is
    [2^z], one past the last column. *)
Theorem world_ends (z : Z) :
  0 <= z <= 1023 ->
  tile2lon 0 z = (-180)%float
  /\ tile2lon (JsNum.pow2 z) z = 180%float
  /\ long2tileX (-180) z = 0%float
  /\ long2tileX 180 z = JsNum.pow2 z.
Proof.
  intros Hz. split; [apply tile2lon_zero; lia|].
  split; [apply tile2lon_pow2; exact Hz|].
  split; [apply long2tileX_m180; exact Hz|apply long2tileX_180; exact Hz].
Qed.

Lemma world_ends_witness :
  tile2lon 0 18 = (-180)%float
  /\ tile2lon (JsNum.pow2 18) 18 = 180%float
  /\ long2tileX (-180) 18 = 0%float
  /\ long2tileX 180 18 = JsNum.pow2 18.
Proof. apply (world_ends 18). lia. Defined.

(** ** Order *)

Lemma leb_finite_FR (lo x hi : float) :
  finiteb lo = true -> finiteb hi = true ->
  (lo <=? x)%float = true -> (x <=? hi)%float = true ->
  finite x /\ (FR lo <= FR x <= FR hi)%R.
Proof.
  intros Fl Fh. apply leb_between_finite; apply finiteb_finite; assumption.
Qed.

(** X11: [tile2lon] is nondecreasing in the column, at every zoom from 0
    on: for numbers [0 <= a <= b <= 2^1000],
    [tile2lon(a, z) <= tile2lon(b, z)]. *)
Theorem tile2lon_nondecreasing (z : Z) (a b : float) :
  0 <= z ->
  (0 <=? a)%float = true -> (a <=? b)%float = true ->
  (b <=? JsNum.pow2 1000)%float = true ->
  (tile2lon a z <=? tile2lon b z)%float = true.
Proof.
  intros Hz H0 Hab Hb.
  pose proof (leb_trans _ _ _ H0 Hab) as H0b.
  pose proof (leb_trans _ _ _ Hab Hb) as Ha.
  destruct (leb_finite_FR 0 a (JsNum.pow2 1000) eq_refl eq_refl H0 Ha) as [Fa [A1 A2]].
  destruct (leb_finite_FR 0 b (JsNum.pow2 1000) eq_refl eq_refl H0b Hb) as [Fb [B1 B2]].
  rewrite FR_zero in *. rewrite (proj1 (FR_pow2 1000 ltac:(lia))) in *.
  assert (Hle : (FR a <= FR b)%R).
  { apply leb_FR; [apply finite_not_nan..|]; assumption. }
  exact (proj1 (tile2lon_mono z a b Hz Fa Fb (conj A1 Hle) B2)).
Qed.

Lemma tile2lon_nondecreasing_witness :
  (tile2lon 908 10 <=? tile2lon 909 10)%float = true.
Proof. apply (tile2lon_nondecreasing 10 908 909); [lia|reflexivity..]. Defined.

Lemma of_Z_succ (k : Z) :
  0 <= k < 2 ^ 53 -> (JsNum.of_Z k + 1)%float = JsNum.of_Z (k + 1).
Proof.
  intros Hk.
  destruct (FR_of_Z k ltac:(lia)) as [Ek Fk].
  destruct (FR_of_Z (k + 1) ltac:(lia)) as [Ek1 Fk1].
  pose proof (add_rounds _ _ Fk finite_one) as H.
  rewrite Ek, FR_one, <- (plus_IZR k 1) in H.
  destruct (rounds_dyadic_float (k + 1) 0 _ ltac:(lia) ltac:(lia)
              ltac:(rewrite bpow_0, Rmult_1_r; exact H)) as [E F].
  rewrite bpow_0, Rmult_1_r in E.
  apply FR_inj; [exact F|exact Fk1|rewrite E, Ek1; reflexivity|].
  rewrite E. apply not_0_IZR. lia.
Qed.

Lemma column_longitudes (z k : Z) :
  0 <= z <= 1000 -> 0 <= k < 2 ^ z -> k < 2 ^ 53 ->
  (-180 <=? tile2lon (JsNum.of_Z k) z)%float = true
  /\ (tile2lon (JsNum.of_Z k) z <=? tile2lon (JsNum.of_Z k + 1) z)%float = true
  /\ (tile2lon (JsNum.of_Z k + 1) z <=? 180)%float = true.
Proof.
  intros Hz Hk H53.
  rewrite of_Z_succ by lia.
  destruct (FR_of_Z k ltac:(lia)) as [Ek Fk].
  destruct (FR_of_Z (k + 1) ltac:(lia)) as [Ek1 Fk1].
  destruct (FR_pow2 z ltac:(lia)) as [Ep Fp].
  assert (H2z : (IZR (k + 1) <= bpow z)%R).
  { rewrite (bpow_IZR z) by lia. apply IZR_le. lia. }
  assert (Hz1000 : (bpow z <= bpow 1000)%R) by (apply bpow_le; lia).
  assert (Hk0 : (0 <= IZR k)%R) by (apply IZR_le; lia).
  assert (Hk1 : (IZR k <= IZR (k + 1))%R) by (apply IZR_le; lia).
  destruct (tile2lon_mono z 0 (JsNum.of_Z k) ltac:(lia) finite_zero Fk
              ltac:(rewrite FR_zero, Ek; lra) ltac:(rewrite Ek; lra)) as (L1 & _ & _).
  destruct (tile2lon_mono z (JsNum.of_Z k) (JsNum.of_Z (k + 1)) ltac:(lia) Fk Fk1
              ltac:(rewrite Ek, Ek1; lra) ltac:(rewrite Ek1; lra)) as (L2 & _ & _).
  destruct (tile2lon_mono z (JsNum.of_Z (k + 1)) (JsNum.pow2 z) ltac:(lia) Fk1 Fp
              ltac:(rewrite Ek1, Ep; lra) ltac:(rewrite Ep; lra)) as (L3 & _ & _).
  rewrite tile2lon_zero in L1 by lia. rewrite tile2lon_pow2 in L3 by lia.
  auto.
Qed.

(** X12: at every zoom [z <= 1000], for every column [0 <= x < 2^z]
    below 2^53, the box of tile [(z, x, y)] has
    [-180 <= west <= east <= 180]. *)
Theorem tileBbox_longitudes (libm : JsNum.Libm) (z k : Z) (y : float) :
  0 <= z <= 1000 -> 0 <= k < 2 ^ z -> k < 2 ^ 53 ->
  let '(w, s, e, n) := tileBbox libm z (JsNum.of_Z k) y in
  (-180 <=? w)%float = true /\ (w <=? e)%float = true
  /\ (e <=? 180)%float = true.
Proof.
  intros Hz Hk H53. unfold tileBbox. cbv beta iota zeta.
  apply column_longitudes; assumption.
Qed.

Lemma tileBbox_longitudes_witness :
  let '(w, s, e, n) := tileBbox RefMath.libm 10 (JsNum.of_Z 909) 403 in
  (-180 <=? w)%float = true /\ (w <=? e)%float = true
  /\ (e <=? 180)%float = true.
Proof.
  apply (tileBbox_longitudes RefMath.libm 10 909 403); [lia|simpl; lia|simpl; lia].
Defined.

(** ** [long2tileX] *)

Lemma long2tileX_chain (z : Z) (a b : float) :
  0 <= z <= 1023 -> finite a -> finite b ->
  (FR (-180) <= FR a)%R -> (FR a <= FR b)%R -> (FR b <= FR 180)%R ->
  finite (long2tileX a z) /\ finite (long2tileX b z)
  /\ (FR (long2tileX a z) <= FR (long2tileX b z))%R.
Proof.
  intros Hz Fa Fb Hlo Hab Hhi.
  destruct FR_180 as [E180 F180]. destruct FR_360 as [E360 F360].
  destruct (FR_pow2 z ltac:(lia)) as [Ep Fp].
  pose proof (FR_pow2_pos z ltac:(lia)) as Pp.
  assert (Fm : finite (-180)) by (apply finiteb_finite; reflexivity).
  assert (F0 : finite (-180 + 180)) by (apply finiteb_finite; reflexivity).
  assert (F1 : finite (180 + 180)) by (apply finiteb_finite; reflexivity).
  assert (step : forall u v, finite u -> finite v -> (FR (-180) <= FR u)%R ->
            (FR u <= FR v)%R -> (FR v <= FR 180)%R ->
            finite (JsNum.Math_floor ((u + 180) / 360 * JsNum.pow2 z))
            /\ finite (JsNum.Math_floor ((v + 180) / 360 * JsNum.pow2 z))
            /\ (FR (JsNum.Math_floor ((u + 180) / 360 * JsNum.pow2 z))
                <= FR (JsNum.Math_floor ((v + 180) / 360 * JsNum.pow2 z)))%R).
  { intros u v Fu Fv Hu Huv Hv.
    (* sums *)
    destruct (add_le_compat_r (-180) u 180 Fm Fu F180 Hu) as (S1 & _ & Nu).
    destruct (add_le_compat_r u v 180 Fu Fv F180 Huv) as (S2 & _ & Nv).
    destruct (add_le_compat_r v 180 180 Fv F180 F180 Hv) as (S3 & _ & _).
    assert (Fsu : finite (u + 180))
      by (apply (FR_between_finite (-180 + 180) _ (180 + 180)); auto; lra).
    assert (Fsv : finite (v + 180))
      by (apply (FR_between_finite (-180 + 180) _ (180 + 180)); auto; lra).
    (* quotients *)
    assert (P360 : (0 < FR 360)%R) by (rewrite E360; lra).
    destruct (div_le_compat _ _ 360 F0 Fsu F360 P360 S1) as (Q1 & _ & Nqu).
    destruct (div_le_compat _ _ 360 Fsu Fsv F360 P360 S2) as (Q2 & _ & Nqv).
    destruct (div_le_compat _ _ 360 Fsv F1 F360 P360 S3) as (Q3 & _ & _).
    assert (Fq0 : finite ((-180 + 180) / 360)) by (apply finiteb_finite; reflexivity).
    assert (Fq1 : finite ((180 + 180) / 360)) by (apply finiteb_finite; reflexivity).
    assert (Fqu : finite ((u + 180) / 360))
      by (apply (FR_between_finite ((-180 + 180) / 360) _ ((180 + 180) / 360));
          auto; lra).
    assert (Fqv : finite ((v + 180) / 360))
      by (apply (FR_between_finite ((-180 + 180) / 360) _ ((180 + 180) / 360));
          auto; lra).
    (* products *)
    destruct (mul_le_compat_r _ _ (JsNum.pow2 z) Fq0 Fqu Fp ltac:(lra) Q1) as (M1 & _ & Nmu).
    destruct (mul_le_compat_r _ _ (JsNum.pow2 z) Fqu Fqv Fp ltac:(lra) Q2) as (M2 & _ & Nmv).
    destruct (mul_le_compat_r _ _ (JsNum.pow2 z) Fqv Fq1 Fp ltac:(lra) Q3) as (M3 & _ & _).
    replace ((-180 + 180) / 360)%float with 0%float in M1 by (vm_compute; reflexivity).
    replace ((180 + 180) / 360)%float with 1%float in M3 by (vm_compute; reflexivity).
    rewrite zero_mul_pow2 in M1 by exact Hz.
    rewrite one_mul in M3 by (assumption || lra).
    assert (Fmu : finite ((u + 180) / 360 * JsNum.pow2 z))
      by (apply (FR_between_finite 0 _ (JsNum.pow2 z)); auto using finite_zero; lra).
    assert (Fmv : finite ((v + 180) / 360 * JsNum.pow2 z))
      by (apply (FR_between_finite 0 _ (JsNum.pow2 z)); auto using finite_zero; lra).
    destruct (Math_floor_spec _ Fmu) as (nu & _ & _ & Ffu).
    destruct (Math_floor_spec _ Fmv) as (nv & _ & _ & Ffv).
    split; [exact Ffu|]. split; [exact Ffv|].
    apply Math_floor_le_compat; assumption. }
  unfold long2tileX. apply step; assumption.
Qed.

Lemma long2tileX_nondecreasing_aux (z : Z) (lon1 lon2 : float) :
  0 <= z <= 1023 ->
  (-180 <=? lon1)%float = true -> (lon1 <=? lon2)%float = true ->
  (lon2 <=? 180)%float = true ->
  (0 <=? long2tileX lon1 z)%float = true
  /\ (long2tileX lon1 z <=? long2tileX lon2 z)%float = true
  /\ (long2tileX lon2 z <=? JsNum.pow2 z)%float = true.
Proof.
  intros Hz Hlo H12 Hhi.
  pose proof (leb_trans _ _ _ Hlo H12) as Hlo2.
  pose proof (leb_trans _ _ _ H12 Hhi) as Hhi1.
  destruct (leb_finite_FR (-180) lon1 180 eq_refl eq_refl Hlo Hhi1) as [F1 [A1 A2]].
  destruct (leb_finite_FR (-180) lon2 180 eq_refl eq_refl Hlo2 Hhi) as [F2 [B1 B2]].
  assert (Fm : finite (-180)) by (apply finiteb_finite; reflexivity).
  destruct FR_180 as [E180 F180].
  assert (H12' : (FR lon1 <= FR lon2)%R).
  { apply leb_FR; [apply finite_not_nan..|]; assumption. }
  destruct (long2tileX_chain z (-180) lon1 Hz Fm F1 ltac:(lra) A1 A2) as (G0 & G1 & L01).
  destruct (long2tileX_chain z lon1 lon2 Hz F1 F2 A1 H12' B2) as (_ & G2 & L12).
  destruct (long2tileX_chain z lon2 180 Hz F2 F180 B1 B2 ltac:(lra)) as (_ & G3 & L23).
  rewrite long2tileX_m180 in L01, G0 by exact Hz.
  rewrite long2tileX_180 in L23, G3 by exact Hz.
  split; [|split]; (apply leb_FR; [apply finite_not_nan; assumption..|assumption]).
Qed.

(** X13: on longitudes from -180 to 180 and zooms from 0 to 1023,
    [long2tileX] is nondecreasing and stays within [0, 2^z]: for
    [-180 <= lon1 <= lon2 <= 180],
    [0 <= long2tileX(lon1, z) <= long2tileX(lon2, z) <= 2^z]. *)
Theorem long2tileX_nondecreasing (z : Z) (lon1 lon2 : float) :
  0 <= z <= 1023 ->
  (-180 <=? lon1)%float = true -> (lon1 <=? lon2)%float = true ->
  (lon2 <=? 180)%float = true ->
  (0 <=? long2tileX lon1 z)%float = true
  /\ (long2tileX lon1 z <=? long2tileX lon2 z)%float = true
  /\ (long2tileX lon2 z <=? JsNum.pow2 z)%float = true.
Proof. apply long2tileX_nondecreasing_aux. Qed.

Lemma long2tileX_nondecreasing_witness :
  (0 <=? long2tileX 135.5 10)%float = true
  /\ (long2tileX 135.5 10 <=? long2tileX 139.767 10)%float = true
  /\ (long2tileX 139.767 10 <=? JsNum.pow2 10)%float = true.
Proof.
  apply (long2tileX_nondecreasing 10 135.5 139.767); [lia|reflexivity..].
Defined.

(** ** From a column to its west edge and back *)

Lemma bpow_opp_inv (z : Z) : bpow z = (/ bpow (- z))%R.
Proof.
  pose proof (bpow_pos (- z)) as P.
  apply (Rmult_eq_reg_r (bpow (- z))); [|lra].
  rewrite <- bpow_add, Rinv_l by lra.
  replace (z + - z) with 0 by lia. apply bpow_0.
Qed.

Lemma edge_column (z k : Z) :
  0 <= z <= 44 -> 0 < k <= 2 ^ z ->
  long2tileX (tile2lon (JsNum.of_Z k) z) z = JsNum.of_Z k.
Proof.
  intros Hz Hk.
  assert (Hzb : 2 ^ z <= 2 ^ 44) by (apply Z.pow_le_mono_r; lia).
  destruct (FR_of_Z k ltac:(lia)) as [Ek Fk].
  destruct (FR_pow2 z ltac:(lia)) as [Ep Fp].
  destruct FR_360 as [E360 F360]. destruct FR_180 as [E180 F180].
  set (B := bpow (- z)).
  assert (PB : (0 < B)%R) by apply bpow_pos.
  assert (HBz : bpow z = (/ B)%R) by apply bpow_opp_inv.
  assert (H2z : IZR (2 ^ z) = (/ B)%R) by (rewrite <- bpow_IZR by lia; exact HBz).
  assert (Hs : -1074 <= - z <= 970) by lia.
  unfold long2tileX, tile2lon.
  set (x := JsNum.of_Z k) in *. set (p := JsNum.pow2 z) in *.
  (* x / 2^z *)
  pose proof (div_rounds x p Fk Fp ltac:(rewrite Ep, HBz; apply Rinv_neq_0_compat; lra)) as R1.
  replace (FR x / FR p)%R with (IZR k * B)%R in R1
    by (rewrite Ek, Ep, HBz; field; lra).
  destruct (rounds_dyadic_float k (- z) _ ltac:(lia) Hs R1) as [E1 F1].
  fold B in E1. set (q := (x / p)%float) in *.
  (* ... * 360 *)
  pose proof (mul_rounds q 360 F1 F360) as R2.
  replace (FR q * FR 360)%R with (IZR (360 * k) * B)%R in R2
    by (rewrite E1, E360, mult_IZR; ring).
  destruct (rounds_dyadic_float (360 * k) (- z) _ ltac:(lia) Hs R2) as [E2 F2].
  fold B in E2. set (a := (q * 360)%float) in *.
  (* ... - 180 *)
  pose proof (sub_rounds a 180 F2 F180) as R3.
  replace (FR a - FR 180)%R with (IZR (360 * k - 180 * 2 ^ z) * B)%R in R3
    by (rewrite E2, E180, minus_IZR, !mult_IZR, H2z; field; lra).
  destruct (rounds_dyadic_float (360 * k - 180 * 2 ^ z) (- z) _ ltac:(lia) Hs R3)
    as [E3 F3].
  fold B in E3. set (lon := (a - 180)%float) in *.
  (* lon + 180 *)
  pose proof (add_rounds lon 180 F3 F180) as R4.
  replace (FR lon + FR 180)%R with (IZR (360 * k) * B)%R in R4
    by (rewrite E3, E180, minus_IZR, !mult_IZR, H2z; field; lra).
  destruct (rounds_dyadic_float (360 * k) (- z) _ ltac:(lia) Hs R4) as [E4 F4].
  fold B in E4. set (b := (lon + 180)%float) in *.
  (* ... / 360 *)
  pose proof (div_rounds b 360 F4 F360 ltac:(rewrite E360; lra)) as R5.
  replace (FR b / FR 360)%R with (IZR k * B)%R in R5
    by (rewrite E4, E360, mult_IZR; field).
  destruct (rounds_dyadic_float k (- z) _ ltac:(lia) Hs R5) as [E5 F5].
  fold B in E5. set (c := (b / 360)%float) in *.
  (* ... * 2^z *)
  pose proof (mul_rounds c p F5 Fp) as R6.
  replace (FR c * FR p)%R with (IZR k * bpow 0)%R in R6
    by (rewrite E5, Ep, HBz, bpow_0; field; lra).
  destruct (rounds_dyadic_float k 0 _ ltac:(lia) ltac:(lia) R6) as [E6 F6].
  rewrite bpow_0, Rmult_1_r in E6.
  apply Math_floor_between; [exact F6|lia|rewrite E6; lra].
Qed.

(** X14: at every zoom [z <= 44], the west edge of column [x] maps back
    to [x]: [long2tileX(tile2lon(x, z), z) = x] for every integer
    [0 <= x <= 2^z]. *)
Theorem long2tileX_tile2lon (z k : Z) :
  0 <= z <= 44 -> 0 <= k <= 2 ^ z ->
  long2tileX (tile2lon (JsNum.of_Z k) z) z = JsNum.of_Z k.
Proof.
  intros Hz Hk. destruct (Z.eq_dec k 0) as [->|Hne].
  - change (JsNum.of_Z 0) with 0%float.
    rewrite tile2lon_zero by lia. apply long2tileX_m180. lia.
  - apply edge_column; [exact Hz|lia].
Qed.

Lemma long2tileX_tile2lon_witness :
  long2tileX (tile2lon (JsNum.of_Z 909) 10) 10 = JsNum.of_Z 909.
Proof. apply (long2tileX_tile2lon 10 909); simpl; lia. Defined.

(** ** The clamp keeps the order *)

Lemma FR_Math_min (a b : float) :
  is_nan a = false -> is_nan b = false ->
  is_nan (JsNum.Math_min a b) = false
  /\ FR (JsNum.Math_min a b) = Rmin (FR a) (FR b).
Proof.
  intros Na Nb. unfold JsNum.Math_min. rewrite Na, Nb. cbn [orb].
  destruct (a <? b)%float eqn:E1.
  - apply ltb_FR in E1; try assumption.
    split; [exact Na|]. rewrite Rmin_left; lra.
  - destruct (b <? a)%float eqn:E2.
    + apply ltb_FR in E2; try assumption.
      split; [exact Nb|]. rewrite Rmin_right; lra.
    + assert (H1 : ~ (FR a < FR b)%R)
        by (intros H; apply ltb_FR in H; try assumption; congruence).
      assert (H2 : ~ (FR b < FR a)%R)
        by (intros H; apply ltb_FR in H; try assumption; congruence).
      destruct (get_sign a); (split; [assumption|]);
        [rewrite Rmin_left|rewrite Rmin_right]; lra.
Qed.

Lemma FR_Math_max (a b : float) :
  is_nan a = false -> is_nan b = false ->
  is_nan (JsNum.Math_max a b) = false
  /\ FR (JsNum.Math_max a b) = Rmax (FR a) (FR b).
Proof.
  intros Na Nb. unfold JsNum.Math_max. rewrite Na, Nb. cbn [orb].
  destruct (a <? b)%float eqn:E1.
  - apply ltb_FR in E1; try assumption.
    split; [exact Nb|]. rewrite Rmax_right; lra.
  - destruct (b <? a)%float eqn:E2.
    + apply ltb_FR in E2; try assumption.
      split; [exact Na|]. rewrite Rmax_left; lra.
    + assert (H1 : ~ (FR a < FR b)%R)
        by (intros H; apply ltb_FR in H; try assumption; congruence).
      assert (H2 : ~ (FR b < FR a)%R)
        by (intros H; apply ltb_FR in H; try assumption; congruence).
      destruct (get_sign a); (split; [assumption|]);
        [rewrite Rmax_right|rewrite Rmax_left]; lra.
Qed.

Lemma clamp_index_mono (u v : float) (z : Z) :
  0 <= z <= 24 -> is_nan u = false -> is_nan v = false ->
  (FR u <= FR v)%R ->
  (clamp_index u z <=? clamp_index v z)%float = true.
Proof.
  intros Hz Nu Nv Huv. unfold clamp_index.
  destruct (maxIndex_facts z Hz) as (Em & Nm & _). rewrite Em.
  set (m := JsNum.of_Z (2 ^ z - 1)) in *.
  destruct (FR_Math_min u m Nu Nm) as [N1 E1].
  destruct (FR_Math_min v m Nv Nm) as [N2 E2].
  destruct (FR_Math_max 0 _ eq_refl N1) as [N3 E3].
  destruct (FR_Math_max 0 _ eq_refl N2) as [N4 E4].
  apply leb_FR; [assumption..|]. rewrite E3, E4, E1, E2.
  apply Rle_max_compat_l. apply Rle_min_compat_r. exact Huv.
Qed.

Lemma getTileRangeFromBBox_clamp (libm : JsNum.Libm)
    (west south east north : float) (z : Z) :
  getTileRangeFromBBox libm (west, south, east, north) z
  = (clamp_index (long2tileX west z) z, clamp_index (long2tileX east z) z,
     clamp_index (lat2tileY libm north z) z, clamp_index (lat2tileY libm south z) z).
Proof. reflexivity. Qed.

Lemma columns_in_range (west east : float) (z : Z) :
  0 <= z <= 24 ->
  (-180 <=? west)%float = true -> (west <=? east)%float = true ->
  (east <=? 180)%float = true ->
  (clamp_index (long2tileX west z) z <=? clamp_index (long2tileX east z) z)%float
  = true
  /\ forall lon, (west <=? lon)%float = true -> (lon <=? east)%float = true ->
       (clamp_index (long2tileX west z) z
        <=? clamp_index (long2tileX lon z) z)%float = true
       /\ (clamp_index (long2tileX lon z) z
           <=? clamp_index (long2tileX east z) z)%float = true.
Proof.
  intros Hz Hlo Hwe Hhi.
  assert (mono : forall a b, (-180 <=? a)%float = true -> (a <=? b)%float = true ->
            (b <=? 180)%float = true ->
            (clamp_index (long2tileX a z) z <=? clamp_index (long2tileX b z) z)%float
            = true).
  { intros a b Ha Hab Hb.
    destruct (long2tileX_nondecreasing_aux z a b ltac:(lia) Ha Hab Hb) as (_ & L & _).
    destruct (FloatFacts.leb_not_nan _ _ L) as [Na Nb].
    apply clamp_index_mono; [exact Hz|exact Na|exact Nb|].
    apply leb_FR; assumption. }
  split; [apply mono; assumption|].
  intros lon H1 H2. split; apply mono; try assumption.
  - exact (leb_trans _ _ _ H2 Hhi).
  - exact (leb_trans _ _ _ Hlo H1).
Qed.

(** X15: for a box with [-180 <= west <= east <= 180] and a zoom from 0
    to 24, the column range of [getTileRangeFromBBox] is not empty
    ([xMin <= xMax]) and holds the clamped column of every longitude of
    the box. *)
Theorem getTileRangeFromBBox_columns (libm : JsNum.Libm)
    (west south east north : float) (z : Z) :
  0 <= z <= 24 ->
  (-180 <=? west)%float = true -> (west <=? east)%float = true ->
  (east <=? 180)%float = true ->
  let '(xMin, xMax, yMin, yMax) :=
    getTileRangeFromBBox libm (west, south, east, north) z in
  (xMin <=? xMax)%float = true
  /\ forall lon, (west <=? lon)%float = true -> (lon <=? east)%float = true ->
       (xMin <=? clamp_index (long2tileX lon z) z)%float = true
       /\ (clamp_index (long2tileX lon z) z <=? xMax)%float = true.
Proof.
  intros Hz Hlo Hwe Hhi. rewrite getTileRangeFromBBox_clamp.
  apply columns_in_range; assumption.
Qed.

Lemma getTileRangeFromBBox_columns_witness :
  let '(xMin, xMax, yMin, yMax) :=
    getTileRangeFromBBox RefMath.libm (135.5, 34.7, 139.767, 35.681)%float 10 in
  (xMin <=? xMax)%float = true
  /\ forall lon, (135.5 <=? lon)%float = true -> (lon <=? 139.767)%float = true ->
       (xMin <=? clamp_index (long2tileX lon 10) 10)%float = true
       /\ (clamp_index (long2tileX lon 10) 10 <=? xMax)%float = true.
Proof.
  apply (getTileRangeFromBBox_columns RefMath.libm 135.5 34.7 139.767 35.681 10);
    [lia|reflexivity..].
Defined.

Lemma clamp_ends (z : Z) :
  0 <= z <= 24 ->
  clamp_index (long2tileX (-180) z) z = 0%float
  /\ clamp_index (long2tileX 180 z) z = JsNum.of_Z (2 ^ z - 1)
  /\ (1 <= z -> (JsNum.of_Z (2 ^ z - 1) <=? 0)%float = false).
Proof.
  intros Hz. rewrite <- (Z2Nat.id z) by lia.
  assert (Hn : (Z.to_nat z <= 24)%nat) by lia.
  revert Hn. generalize (Z.to_nat z). intros n.
  do 25 (destruct n as [|n];
         [intros _; split; [vm_compute; reflexivity|];
          split; [vm_compute; reflexivity|];
          intros H1; first [vm_compute; reflexivity|exfalso; simpl in H1; lia]|]).
  intros Hn. lia.
Qed.

(** X16: at every zoom from 0 to 24, whatever the latitudes, the
    longitudes of the whole world give all the columns ([xMin = 0],
    [xMax = 2^z - 1]), and the box of the empty collection gives
    [xMin = 2^z - 1] and [xMax = 0]: from zoom 1 on, no column at all. *)
Theorem getTileRangeFromBBox_x_ends (libm : JsNum.Libm) (south north : float)
    (z : Z) :
  0 <= z <= 24 ->
  (let '(xMin, xMax, yMin, yMax) :=
     getTileRangeFromBBox libm (-180, south, 180, north)%float z in
   xMin = 0%float /\ xMax = JsNum.of_Z (2 ^ z - 1))
  /\ (let '(xMin, xMax, yMin, yMax) :=
        getTileRangeFromBBox libm (getGeoJsonBBox {| features := [] |}) z in
      xMin = JsNum.of_Z (2 ^ z - 1) /\ xMax = 0%float
      /\ (1 <= z -> (xMin <=? xMax)%float = false)).
Proof.
  intros Hz.
  change (getGeoJsonBBox {| features := [] |}) with (180, 90, -180, -90)%float.
  rewrite !getTileRangeFromBBox_clamp.
  destruct (clamp_ends z Hz) as (H1 & H2 & H3). rewrite H1, H2. auto.
Qed.

Lemma getTileRangeFromBBox_x_ends_witness :
  (let '(xMin, xMax, yMin, yMax) :=
     getTileRangeFromBBox RefMath.libm (-180, -85, 180, 85)%float 9 in
   xMin = 0%float /\ xMax = JsNum.of_Z (2 ^ 9 - 1))
  /\ (let '(xMin, xMax, yMin, yMax) :=
        getTileRangeFromBBox RefMath.libm (getGeoJsonBBox {| features := [] |}) 9 in
      xMin = JsNum.of_Z (2 ^ 9 - 1) /\ xMax = 0%float
      /\ (1 <= 9 -> (xMin <=? xMax)%float = false)).
Proof. apply (getTileRangeFromBBox_x_ends RefMath.libm (-85) 85 9). lia. Defined.

(** * The tile builder on its survivors *)

Lemma survivors_idempotent (fs : list Feature) (w s e n : float) :
  survivors (survivors fs w s e n) w s e n = survivors fs w s e n.
Proof.
  unfold survivors. induction fs as [|f fs IH]; [reflexivity|].
  cbn [filter].
  destruct (in_bbox (longitude f) (latitude f) w s e n) eqn:E; [|exact IH].
  cbn [filter]. rewrite E, IH. reflexivity.
Qed.

(** X17: [generateTilePbf] depends on the collection only through the
    features that pass the containment test of the tile: the payload of a
    collection is the payload of its survivors, in their input order.
    Clipping beforehand changes nothing. *)
Theorem generateTilePbf_of_survivors (libm : JsNum.Libm) (geojson : GeoJson)
    (z : Z) (x y : float) :
  generateTilePbf libm geojson z x y
  = generateTilePbf libm {| features := tile_survivors libm geojson z x y |} z x y.
Proof.
  rewrite !generateTilePbf_survivors. unfold tile_survivors, tileBbox.
  cbv beta iota zeta. cbn [features]. rewrite survivors_idempotent. reflexivity.
Qed.



(** * The script *)

(** ** The loop on a number *)

Lemma for_number_stops (fuel : nat) (v to : float)
    (body : float -> option (list FsCall)) :
  (v <=? to)%float = false -> for_number (S fuel) v to body = Some [].
Proof. intros H. cbn [for_number]. rewrite H. reflexivity. Qed.

Lemma of_Z_leb (a b : Z) :
  - 2 ^ 53 <= a <= 2 ^ 53 -> - 2 ^ 53 <= b <= 2 ^ 53 ->
  (JsNum.of_Z a <=? JsNum.of_Z b)%float = (a <=? b).
Proof.
  intros Ha Hb.
  destruct (FR_of_Z a Ha) as [Ea Fa]. destruct (FR_of_Z b Hb) as [Eb Fb].
  pose proof (leb_FR _ _ (finite_not_nan _ Fa) (finite_not_nan _ Fb)) as H.
  rewrite Ea, Eb in H.
  destruct (Z.leb_spec a b) as [Hle|Hgt].
  - apply H. apply IZR_le. exact Hle.
  - destruct (JsNum.of_Z a <=? JsNum.of_Z b)%float; [|reflexivity].
    pose proof (proj1 H eq_refl) as Hr. apply le_IZR in Hr. lia.
Qed.

Lemma for_number_total (body : float -> option (list FsCall)) (b : Z) :
  (forall v, exists calls, body v = Some calls) ->
  b < 2 ^ 53 ->
  forall fuel a,
    0 <= a <= 2 ^ 53 -> - 2 ^ 53 <= b ->
    (Z.to_nat (b - a + 1) < fuel)%nat ->
    exists calls, for_number fuel (JsNum.of_Z a) (JsNum.of_Z b) body = Some calls.
Proof.
  intros Hbody Hb. induction fuel as [|fuel IH]; intros a Ha Hb' Hfuel; [lia|].
  cbn [for_number]. rewrite of_Z_leb by lia.
  destruct (Z.leb_spec a b) as [Hle|Hgt]; [|eauto].
  destruct (Hbody (JsNum.of_Z a)) as [c1 ->].
  rewrite of_Z_succ by lia.
  destruct (IH (a + 1) ltac:(lia) Hb' ltac:(lia)) as [c2 ->]. eauto.
Qed.

Lemma for_number_Forall (P : FsCall -> Prop)
    (body : float -> option (list FsCall)) (to : float) :
  (forall v calls, body v = Some calls -> Forall P calls) ->
  forall fuel v calls,
    for_number fuel v to body = Some calls -> Forall P calls.
Proof.
  intros Hbody. induction fuel as [|fuel IH]; intros v calls H; [discriminate|].
  cbn [for_number] in H. destruct (v <=? to)%float.
  - destruct (body v) as [c1|] eqn:E1; [|discriminate].
    destruct (for_number fuel (v + 1) to body) as [c2|] eqn:E2; [|discriminate].
    injection H as <-. apply Forall_app. split; [exact (Hbody _ _ E1)|exact (IH _ _ E2)].
  - injection H as <-. constructor.
Qed.

(** ** The clamped indices are NaN or whole numbers *)

Lemma Math_max_zero_shape (u : float) :
  is_nan u = false ->
  (JsNum.Math_max 0 u = u /\ (0 <? u)%float = true) \/ JsNum.Math_max 0 u = 0%float.
Proof.
  intros Nu. unfold JsNum.Math_max. rewrite Nu.
  change (is_nan 0) with false. cbn [orb].
  destruct (0 <? u)%float; [left; split; reflexivity|].
  right. destruct (u <? 0)%float; reflexivity.
Qed.

Lemma Math_floor_shape (t : float) :
  is_nan (JsNum.Math_floor t) = true
  \/ (exists n : Z, FR (JsNum.Math_floor t) = IZR n
                    /\ is_nan (JsNum.Math_floor t) = false)
  \/ (FR (JsNum.Math_floor t) = bpow 1024 /\ is_nan (JsNum.Math_floor t) = false)
  \/ (FR (JsNum.Math_floor t) = (- bpow 1024)%R
      /\ is_nan (JsNum.Math_floor t) = false).
Proof.
  destruct (Prim2SF t) as [s|s| |s m e] eqn:E.
  - right. left. exists 0.
    assert (F : finite t) by (unfold finite; rewrite E; exact I).
    unfold JsNum.Math_floor. rewrite E. unfold FR. rewrite E. split; [reflexivity|].
    exact (finite_not_nan t F).
  - assert (Ef : JsNum.Math_floor t = t) by (unfold JsNum.Math_floor; rewrite E; reflexivity).
    assert (N : is_nan t = false).
    { apply is_nan_false_Prim2SF. rewrite E. discriminate. }
    rewrite Ef. unfold FR. rewrite E. cbn [key].
    destruct s; [right; right; right|right; right; left]; split; auto.
  - left. assert (Ef : JsNum.Math_floor t = t) by (unfold JsNum.Math_floor; rewrite E; reflexivity).
    rewrite Ef. destruct (is_nan t) eqn:N; [reflexivity|].
    apply is_nan_false_Prim2SF in N. rewrite E in N. contradiction.
  - right. left.
    assert (F : finite t) by (unfold finite; rewrite E; exact I).
    destruct (Math_floor_spec t F) as (n & _ & En & Fn).
    exists n. split; [exact En|exact (finite_not_nan _ Fn)].
Qed.

Lemma clamp_index_shape (t : float) (z : Z) :
  0 <= z <= 24 ->
  is_nan (clamp_index (JsNum.Math_floor t) z) = true
  \/ exists a, 0 <= a <= 2 ^ z - 1
               /\ clamp_index (JsNum.Math_floor t) z = JsNum.of_Z a.
Proof.
  intros Hz. unfold clamp_index.
  destruct (maxIndex_facts z Hz) as (Em & Nm & _). rewrite Em.
  assert (HM : 0 <= 2 ^ z - 1 < 2 ^ 24).
  { assert (2 ^ z <= 2 ^ 24) by (apply Z.pow_le_mono_r; lia).
    pose proof (Z.pow_pos_nonneg 2 z). lia. }
  destruct (FR_of_Z (2 ^ z - 1) ltac:(lia)) as [EM FM].
  set (M := 2 ^ z - 1) in *. set (m := JsNum.of_Z M) in *.
  set (u := JsNum.Math_floor t).
  assert (Hb : (IZR M < bpow 1024)%R).
  { rewrite (bpow_IZR 1024) by lia. apply IZR_lt.
    assert (2 ^ 24 < 2 ^ 1024) by (apply Z.pow_lt_mono_r; lia). lia. }
  assert (H0M : (0 <= IZR M)%R) by (apply IZR_le; lia).
  assert (Hkey : is_nan u = true
                 \/ (is_nan u = false
                     /\ exists a, 0 <= a <= M /\ Rmax 0 (Rmin (FR u) (IZR M)) = IZR a)).
  { destruct (Math_floor_shape t) as [N|[(n & En & N)|[[E N]|[E N]]]]; fold u in N.
    - left. exact N.
    - right. split; [exact N|]. fold u in En. rewrite En.
      exists (Z.max 0 (Z.min n M)). split; [lia|].
      destruct (Z_le_dec n M) as [Hle|Hgt].
      + rewrite Rmin_left by (apply IZR_le; lia). rewrite Z.min_l by lia.
        destruct (Z_le_dec 0 n).
        * rewrite Rmax_right by (apply IZR_le; lia). rewrite Z.max_r by lia. reflexivity.
        * rewrite Rmax_left by (apply IZR_le; lia). rewrite Z.max_l by lia. reflexivity.
      + rewrite Rmin_right by (apply IZR_le; lia). rewrite Z.min_r by lia.
        rewrite Rmax_right by lra. rewrite Z.max_r by lia. reflexivity.
    - right. split; [exact N|]. fold u in E. rewrite E. exists M. split; [lia|].
      rewrite Rmin_right by lra. apply Rmax_right. lra.
    - right. split; [exact N|]. fold u in E. rewrite E. exists 0. split; [lia|].
      pose proof (bpow_pos 1024). rewrite Rmin_left by lra. apply Rmax_left. lra. }
  destruct Hkey as [N|(N & a & Ha & Ea)].
  - left. rewrite clamp_nan by exact N. reflexivity.
  - right. exists a. split; [exact Ha|].
    destruct (FR_Math_min u m N Nm) as [N1 E1].
    destruct (FR_Math_max 0 _ eq_refl N1) as [N3 E3].
    rewrite E1, FR_zero, EM in E3. rewrite Ea in E3.
    destruct (Z.eq_dec a 0) as [->|Hne].
    + change (JsNum.of_Z 0) with 0%float.
      destruct (Math_max_zero_shape _ N1) as [[Eu Hu]|E0]; [|exact E0].
      apply ltb_FR in Hu; [|reflexivity|exact N1].
      rewrite Eu in E3. rewrite FR_zero, E3 in Hu. lra.
    + destruct (FR_of_Z a ltac:(lia)) as [Eza Fza].
      apply FR_inj; [|exact Fza|rewrite E3, Eza; reflexivity|].
      * apply finite_of_FR_bound; [exact N3|]. rewrite E3.
        assert (0 <= IZR a <= IZR M)%R by (split; apply IZR_le; lia).
        pose proof (bpow_pos 1024). lra.
      * rewrite E3. apply not_0_IZR. exact Hne.
Qed.

Lemma for_number_clamped (body : float -> option (list FsCall))
    (t1 t2 : float) (z : Z) :
  0 <= z <= 24 ->
  (forall v, exists calls, body v = Some calls) ->
  exists calls,
    for_number (Z.to_nat (2 ^ z + 1))
      (clamp_index (JsNum.Math_floor t1) z) (clamp_index (JsNum.Math_floor t2) z)
      body = Some calls.
Proof.
  intros Hz Hbody.
  assert (H2z : 0 < 2 ^ z <= 2 ^ 24).
  { split; [apply Z.pow_pos_nonneg; lia|apply Z.pow_le_mono_r; lia]. }
  assert (Hfuel : exists f, Z.to_nat (2 ^ z + 1) = S f).
  { exists (Z.to_nat (2 ^ z)). lia. }
  destruct (clamp_index_shape t1 z Hz) as [N1|(a & Ha & ->)].
  - destruct Hfuel as [f ->]. exists []. apply for_number_stops.
    apply FloatFacts.leb_nan_l. exact N1.
  - destruct (clamp_index_shape t2 z Hz) as [N2|(b & Hb & ->)].
    + destruct Hfuel as [f ->]. exists []. apply for_number_stops.
      apply FloatFacts.leb_nan_r. exact N2.
    + apply for_number_total; [exact Hbody|lia|lia|lia|lia].
Qed.

(** ** The script as a whole *)

Lemma each_zoom_total (body : Z -> option (list FsCall)) (zs : list Z) :
  (forall z, In z zs -> exists calls, body z = Some calls) ->
  exists calls, each_zoom zs body = Some calls.
Proof.
  induction zs as [|z zs IH]; intros H; cbn [each_zoom]; [eauto|].
  destruct (H z (or_introl eq_refl)) as [c ->].
  destruct IH as [c' ->]; [intros z' Hz'; apply H; right; exact Hz'|]. eauto.
Qed.

Lemma each_zoom_Forall (P : FsCall -> Prop) (body : Z -> option (list FsCall))
    (zs : list Z) :
  (forall z calls, In z zs -> body z = Some calls -> Forall P calls) ->
  forall calls, each_zoom zs body = Some calls -> Forall P calls.
Proof.
  induction zs as [|z zs IH]; intros H calls E; cbn [each_zoom] in E.
  - injection E as <-. constructor.
  - destruct (body z) as [c|] eqn:Ez; [|discriminate].
    destruct (each_zoom zs body) as [c'|] eqn:Ezs; [|discriminate].
    injection E as <-. apply Forall_app. split.
    + exact (H z c (or_introl eq_refl) Ez).
    + apply IH; [|reflexivity]. intros z' cs Hz'. apply H. right. exact Hz'.
Qed.

Lemma zooms_range (z : Z) : In z zooms -> minzoom <= z <= maxzoom.
Proof.
  unfold zooms, minzoom, maxzoom. cbn [In].
  intros H. repeat (destruct H as [<-|H]; [lia|]). contradiction.
Qed.

Lemma zoom_calls_total (libm : JsNum.Libm) (geojson : GeoJson)
    (bbox : float * float * float * float) (z : Z) :
  0 <= z <= 24 -> exists calls, zoom_calls libm geojson bbox z = Some calls.
Proof.
  intros Hz. destruct bbox as [[[west south] east] north].
  unfold zoom_calls. rewrite getTileRangeFromBBox_clamp. cbv zeta.
  unfold long2tileX, lat2tileY.
  apply for_number_clamped; [exact Hz|].
  intros x. unfold column_calls.
  destruct (for_number_clamped (fun y => Some (tile_calls libm geojson z x y))
              ((1 - JsNum.Math_log libm
                      (JsNum.Math_tan libm (north * JsNum.PI / 180)
                       + 1 / JsNum.Math_cos libm (north * JsNum.PI / 180))
                    / JsNum.PI) / 2 * JsNum.pow2 z)%float
              ((1 - JsNum.Math_log libm
                      (JsNum.Math_tan libm (south * JsNum.PI / 180)
                       + 1 / JsNum.Math_cos libm (south * JsNum.PI / 180))
                    / JsNum.PI) / 2 * JsNum.pow2 z)%float
              z Hz ltac:(eauto)) as [c E].
  cbv zeta in E |- *. rewrite E. eauto.
Qed.

(** X19: the script always comes to an end: for every collection and
    every run-time, the loops on the columns and rows of a zoom stop
    within [2^z] rounds, since the clamped indices are NaN or whole
    numbers from 0 to [2^z - 1]. *)
Theorem main_terminates (libm : JsNum.Libm) (geojson : GeoJson) :
  exists calls, main libm geojson = Some calls.
Proof.
  unfold main. destruct (getGeoJsonBBox geojson) as [[[west south] east] north].
  apply each_zoom_total. intros z Hz. apply zoom_calls_total.
  pose proof (zooms_range z Hz). unfold minzoom, maxzoom in *. lia.
Qed.

Lemma tile_calls_ok (libm : JsNum.Libm) (geojson : GeoJson) (z : Z) (x y : float) :
  minzoom <= z <= maxzoom ->
  Forall (call_ok libm geojson) (tile_calls libm geojson z x y).
Proof.
  intros Hz. unfold tile_calls. cbv zeta.
  destruct (generateTilePbf libm geojson z x y) as [|b bs] eqn:E.
  - constructor.
  - cbn [List.length]. rewrite Nat2Z.inj_succ.
    destruct (Z.eqb_spec (Z.succ (Z.of_nat (List.length bs))) 0) as [H0|_]; [lia|].
    constructor; [|constructor]. cbn [call_ok]. rewrite E.
    split; [exact Hz|]. split; [reflexivity|discriminate].
Qed.

(** X20: the script never writes an empty file, and nothing outside the
    zooms 9 to 18: every file it writes holds the payload of
    [generateTilePbf] for the tile of its path, and that payload is not
    empty; every directory it makes is the column of one of these
    zooms. *)
Theorem main_calls_ok (libm : JsNum.Libm) (geojson : GeoJson)
    (calls : list FsCall) :
  main libm geojson = Some calls -> Forall (call_ok libm geojson) calls.
Proof.
  unfold main. destruct (getGeoJsonBBox geojson) as [[[west south] east] north].
  apply each_zoom_Forall. intros z cs Hz.
  pose proof (zooms_range z Hz) as Hr.
  unfold zoom_calls.
  destruct (getTileRangeFromBBox libm (west, south, east, north) z)
    as [[[xMin xMax] yMin] yMax].
  cbv zeta. apply for_number_Forall. intros x cx.
  unfold column_calls.
  destruct (for_number _ yMin yMax _) as [cy|] eqn:Ey; [|discriminate].
  intros H. injection H as <-. constructor; [exact Hr|].
  revert Ey. apply for_number_Forall. intros y c H. injection H as <-.
  apply tile_calls_ok. exact Hr.
Qed.

Lemma main_calls_ok_witness :
  Forall (call_ok RefMath.libm {| features := [Examples.tokyo] |})
         (match main RefMath.libm {| features := [Examples.tokyo] |} with
          | Some calls => calls
          | None => []
          end).
Proof.
  apply (main_calls_ok RefMath.libm {| features := [Examples.tokyo] |}).
  vm_compute. reflexivity.
Defined.

(** ** Directories before files *)

Lemma dirs_first_mono (calls : list FsCall) :
  forall made made',
    (forall p, In p made -> In p made') ->
    dirs_first made calls -> dirs_first made' calls.
Proof.
  induction calls as [|[z x|z x y d] rest IH]; intros made made' Hsub;
    cbn [dirs_first].
  - auto.
  - apply IH. intros p [<-|Hp]; [left; reflexivity|right; apply Hsub; exact Hp].
  - intros [Hin Hrest]. split; [apply Hsub; exact Hin|exact (IH _ _ Hsub Hrest)].
Qed.

Lemma dirs_first_app (c1 c2 : list FsCall) :
  forall made, dirs_first made c1 -> dirs_first made c2 -> dirs_first made (c1 ++ c2).
Proof.
  induction c1 as [|[z x|z x y d] rest IH]; intros made H1 H2;
    cbn [dirs_first app] in *.
  - exact H2.
  - apply IH; [exact H1|].
    apply (dirs_first_mono c2 made); [intros p Hp; right; exact Hp|exact H2].
  - destruct H1 as [Hin Hrest]. split; [exact Hin|exact (IH _ Hrest H2)].
Qed.

Lemma for_number_closed (Q : list FsCall -> Prop)
    (body : float -> option (list FsCall)) (to : float) :
  Q [] -> (forall a b, Q a -> Q b -> Q (a ++ b)) ->
  (forall v calls, body v = Some calls -> Q calls) ->
  forall fuel v calls, for_number fuel v to body = Some calls -> Q calls.
Proof.
  intros Hnil Happ Hbody. induction fuel as [|fuel IH]; intros v calls H;
    [discriminate|].
  cbn [for_number] in H. destruct (v <=? to)%float.
  - destruct (body v) as [c1|] eqn:E1; [|discriminate].
    destruct (for_number fuel (v + 1) to body) as [c2|] eqn:E2; [|discriminate].
    injection H as <-. apply Happ; [exact (Hbody _ _ E1)|exact (IH _ _ E2)].
  - injection H as <-. exact Hnil.
Qed.

Lemma each_zoom_closed (Q : list FsCall -> Prop)
    (body : Z -> option (list FsCall)) (zs : list Z) :
  Q [] -> (forall a b, Q a -> Q b -> Q (a ++ b)) ->
  (forall z calls, body z = Some calls -> Q calls) ->
  forall calls, each_zoom zs body = Some calls -> Q calls.
Proof.
  intros Hnil Happ Hbody. induction zs as [|z zs IH]; intros calls E;
    cbn [each_zoom] in E.
  - injection E as <-. exact Hnil.
  - destruct (body z) as [c|] eqn:Ez; [|discriminate].
    destruct (each_zoom zs body) as [c'|] eqn:Ezs; [|discriminate].
    injection E as <-. apply Happ; [exact (Hbody _ _ Ez)|exact (IH _ eq_refl)].
Qed.

Lemma column_calls_dirs_first (libm : JsNum.Libm) (fuel : nat) (geojson : GeoJson)
    (z : Z) (yMin yMax x : float) (calls : list FsCall) :
  column_calls libm fuel geojson z yMin yMax x = Some calls ->
  dirs_first [] calls.
Proof.
  unfold column_calls.
  destruct (for_number fuel yMin yMax _) as [cy|] eqn:Ey; [|discriminate].
  intros H. injection H as <-. cbn [dirs_first].
  revert Ey. apply (for_number_closed (dirs_first [(z, x)])).
  - exact I.
  - intros a b. apply dirs_first_app.
  - intros y c H. injection H as <-. unfold tile_calls. cbv zeta.
    destruct (Z.of_nat _ =? 0); cbn [dirs_first]; [exact I|].
    split; [left; reflexivity|exact I].
Qed.

(** X21: the script writes a file only after it has made the directory
    of its column: in the sequence of calls, every [writeFileSync] for a
    tile [(z, x, y)] comes after the [mkdirSync] of [(z, x)]. *)
Theorem main_dirs_first (libm : JsNum.Libm) (geojson : GeoJson)
    (calls : list FsCall) :
  main libm geojson = Some calls -> dirs_first [] calls.
Proof.
  unfold main. destruct (getGeoJsonBBox geojson) as [[[west south] east] north].
  apply (each_zoom_closed (dirs_first []));
    [exact I|intros a b; apply dirs_first_app|].
  intros z cs. unfold zoom_calls.
  destruct (getTileRangeFromBBox libm (west, south, east, north) z)
    as [[[xMin xMax] yMin] yMax].
  cbv zeta. apply (for_number_closed (dirs_first []));
    [exact I|intros a b; apply dirs_first_app|].
  intros x cx. apply column_calls_dirs_first.
Qed.

Lemma main_dirs_first_witness :
  dirs_first []
    (match main RefMath.libm {| features := [Examples.tokyo] |} with
     | Some calls => calls
     | None => []
     end).
Proof.
  apply (main_dirs_first RefMath.libm {| features := [Examples.tokyo] |}).
  vm_compute. reflexivity.
Defined.

(** ** No feature, no call *)

Lemma zoom_calls_empty (libm : JsNum.Libm) (z : Z) :
  1 <= z <= 24 ->
  zoom_calls libm {| features := [] |} (180, 90, -180, -90)%float z = Some [].
Proof.
  intros Hz. unfold zoom_calls. rewrite getTileRangeFromBBox_clamp. cbv zeta.
  destruct (clamp_ends z ltac:(lia)) as (H1 & H2 & H3). rewrite H1, H2.
  assert (Hfuel : exists f, Z.to_nat (2 ^ z + 1) = S f).
  { exists (Z.to_nat (2 ^ z)). pose proof (Z.pow_pos_nonneg 2 z). lia. }
  destruct Hfuel as [f ->]. apply for_number_stops. apply H3. lia.
Qed.

(** X22: on a collection without features the script makes no directory
    and writes no file, on every run-time: at each zoom the column range
    is empty ([xMin = 2^z - 1 > 0 = xMax]). *)
Theorem main_empty (libm : JsNum.Libm) :
  main libm {| features := [] |} = Some [].
Proof.
  unfold main.
  change (getGeoJsonBBox {| features := [] |}) with (180, 90, -180, -90)%float.
  cbv iota beta. unfold zooms. cbn [each_zoom].
  rewrite !zoom_calls_empty by lia. reflexivity.
Qed.

(** * More on the pipeline *)

(** X23: at every zoom [z <= 1000], for every column [0 <= x < 2^z]
    below 2^53, the Mercator box of tile [(z, x, y)] has
    [minX <= maxX], on every run-time: the width that
    [projectToTileCoordinates] divides by is never negative. *)
Theorem tileBboxMeters_width (libm : JsNum.Libm) (z k : Z) (y : float) :
  0 <= z <= 1000 -> 0 <= k < 2 ^ z -> k < 2 ^ 53 ->
  let '(minX, minY, maxX, maxY) := tileBboxMeters libm z (JsNum.of_Z k) y in
  (minX <=? maxX)%float = true.
Proof.
  intros Hz Hk H53.
  unfold tileBboxMeters, tileBbox, lonLatToMeters. cbv beta iota zeta.
  destruct (column_longitudes z k Hz Hk H53) as (L1 & L2 & L3).
  set (w := tile2lon (JsNum.of_Z k) z) in *.
  set (e := tile2lon (JsNum.of_Z k + 1) z) in *.
  assert (Fa : finite (-180 * 20037508.34 / 180)) by (apply finiteb_finite; reflexivity).
  assert (Fb : finite (180 * 20037508.34 / 180)) by (apply finiteb_finite; reflexivity).
  destruct (meters_x_between (-180) w 180 Fa Fb L1 (leb_trans _ _ _ L2 L3))
    as (Fw & _ & _).
  destruct (meters_x_between w e 180 Fw Fb L2 L3) as (Fe & Hwe & _).
  apply leb_FR; [apply finite_not_nan..|]; assumption.
Qed.

Lemma tileBboxMeters_width_witness :
  let '(minX, minY, maxX, maxY) :=
    tileBboxMeters RefMath.libm 10 (JsNum.of_Z 909) 403 in
  (minX <=? maxX)%float = true.
Proof.
  apply (tileBboxMeters_width RefMath.libm 10 909 403); [lia|simpl; lia|simpl; lia].
Defined.

Lemma zigZagEncode_not_finite (v : float) :
  finiteb v = false -> zigZagEncode v = 0.
Proof.
  intros H. unfold zigZagEncode, JsNum.ToInt32, JsNum.to_integer.
  unfold finiteb in H. destruct (Prim2SF v); try discriminate; reflexivity.
Qed.

(** X24: a tile-local coordinate that is NaN or infinite is encoded as
    the coordinate 0: [encodeFeature] gives the same bytes as for 0, with
    no sign of the failure. *)
Theorem encodeFeature_not_finite (props : Json) (x y : float) :
  (finiteb x = false ->
   encodeFeature {| tf_properties := props; tf_coordinates := (x, y) |}
   = encodeFeature {| tf_properties := props; tf_coordinates := (0%float, y) |})
  /\ (finiteb y = false ->
      encodeFeature {| tf_properties := props; tf_coordinates := (x, y) |}
      = encodeFeature {| tf_properties := props; tf_coordinates := (x, 0%float) |}).
Proof.
  split; intros H; unfold encodeFeature, createPointGeometryCommand;
    cbn [tf_coordinates]; rewrite (zigZagEncode_not_finite _ H);
    change (zigZagEncode 0) with 0; reflexivity.
Qed.

(** X25: when every longitude of the collection is a number from -180
    to 180, the column range that [getTileRangeFromBBox] computes from
    the box of [getGeoJsonBBox], at a zoom from 0 to 24, holds the
    clamped column of every feature. *)
Theorem columns_cover_features (libm : JsNum.Libm) (geojson : GeoJson)
    (z : Z) (f : Feature) :
  0 <= z <= 24 ->
  (forall g, In g (features geojson) ->
     (-180 <=? longitude g)%float = true /\ (longitude g <=? 180)%float = true) ->
  In f (features geojson) ->
  let '(xMin, xMax, yMin, yMax) :=
    getTileRangeFromBBox libm (getGeoJsonBBox geojson) z in
  (xMin <=? clamp_index (long2tileX (longitude f) z) z)%float = true
  /\ (clamp_index (long2tileX (longitude f) z) z <=? xMax)%float = true.
Proof.
  intros Hz Hall Hf.
  destruct (getGeoJsonBBox_facts geojson) as (_ & Hholds & Hatt).
  pose proof (Hholds f Hf) as Hbox.
  destruct (getGeoJsonBBox geojson) as [[[w s] e] n].
  rewrite getTileRangeFromBBox_clamp.
  destruct (Hall f Hf) as [Hf1 Hf2].
  destruct (FloatFacts.leb_not_nan _ _ Hf1) as [_ Nf].
  destruct Hbox as [Hlon _]. destruct (Hlon Nf) as [Hwf Hfe].
  destruct Hatt as (Aw & _ & Ae & _).
  assert (Hw : (-180 <=? w)%float = true).
  { destruct Aw as [->|(g & Hg & ->)]; [reflexivity|exact (proj1 (Hall g Hg))]. }
  assert (He : (e <=? 180)%float = true).
  { destruct Ae as [->|(g & Hg & ->)]; [reflexivity|exact (proj2 (Hall g Hg))]. }
  pose proof (leb_trans _ _ _ Hwf Hfe) as Hwe.
  exact (proj2 (columns_in_range w e z Hz Hw Hwe He) (longitude f) Hwf Hfe).
Qed.

Lemma columns_cover_features_witness :
  let '(xMin, xMax, yMin, yMax) :=
    getTileRangeFromBBox RefMath.libm
      (getGeoJsonBBox {| features := [Examples.tokyo; Examples.osaka] |}) 10 in
  (xMin <=? clamp_index (long2tileX (longitude Examples.osaka) 10) 10)%float = true
  /\ (clamp_index (long2tileX (longitude Examples.osaka) 10) 10 <=? xMax)%float
     = true.
Proof.
  apply (columns_cover_features RefMath.libm
           {| features := [Examples.tokyo; Examples.osaka] |} 10 Examples.osaka).
  - lia.
  - intros g [<-|[<-|[]]]; split; reflexivity.
  - right. left. reflexivity.
Defined.

(** * Beyond the ranges *)

Lemma wrap_high (n : Z) :
  2147483648 <= n < 4294967296 -> Int32.wrap n = n - 4294967296.
Proof.
  intros Hn. unfold Int32.wrap.
  rewrite <- (Z.mod_add _ (-1)) by lia. rewrite Z.mod_small by lia. lia.
Qed.

(** X26: beyond the values it encodes well, [writeVarint] still returns: a value
    up to 127, negative values included, is appended as it is, as one
    element; a value [n] in [2^31, 2^32) gives exactly two elements, the
    byte [n mod 128 + 128] and then the negative number
    [(n - 2^32) / 128]. *)
Theorem writeVarint_out_of_range (arr : list Z) (n : Z) :
  (n <= 127 -> writeVarint arr n = arr ++ [n])
  /\ (2147483648 <= n < 4294967296 ->
      writeVarint arr n = arr ++ [n mod 128 + 128; (n - 4294967296) / 128]
      /\ (n - 4294967296) / 128 < 0).
Proof.
  split; [apply writeVarint_stop|]. intros Hn.
  pose proof (wrap_high n Hn) as Hw.
  assert (Hneg : (n - 4294967296) / 128 < 0)
    by (apply Z.div_lt_upper_bound; lia).
  split; [|exact Hneg].
  rewrite writeVarint_continue by lia.
  assert (Hsar : Int32.sar n 7 = (n - 4294967296) / 128).
  { unfold Int32.sar. rewrite Hw. change (7 mod 32) with 7.
    rewrite Z.shiftr_div_pow2 by lia. reflexivity. }
  assert (Hbyte : Int32.or (Int32.and n 127) 128 = n mod 128 + 128).
  { unfold Int32.or, Int32.and. rewrite Hw.
    change (Int32.wrap 127) with 127. change (Int32.wrap 128) with 128.
    rewrite land_low_bits.
    replace ((n - 4294967296) mod 128) with (n mod 128).
    - pose proof (Z.mod_pos_bound n 128 ltac:(lia)).
      rewrite Int32.wrap_small by lia. apply lor_high_bit; lia.
    - replace (n - 4294967296) with (n + (-33554432) * 128) by lia.
      rewrite Z.mod_add by lia. reflexivity. }
  rewrite Hsar, Hbyte, writeVarint_stop by lia.
  rewrite <- app_assoc. reflexivity.
Qed.

(** X27: [(1 << z) - 1] is [2^z - 1] for every zoom from 0 to 30; at
    zoom 31 the shift overflows, the bound is negative, and the clamp of
    [getTileRangeFromBBox] sends every index that is a number to 0. *)
Theorem maxIndex_overflow :
  (forall z, 0 <= z <= 30 -> Int32.shl 1 z - 1 = 2 ^ z - 1)
  /\ Int32.shl 1 31 - 1 = -2147483649
  /\ forall v, is_nan v = false -> clamp_index v 31 = 0%float.
Proof.
  split; [|split; [reflexivity|]].
  - intros z Hz. unfold Int32.shl. change (Int32.wrap 1) with 1.
    rewrite Z.mod_small by lia. rewrite Z.shiftl_mul_pow2, Z.mul_1_l by lia.
    assert (0 < 2 ^ z <= 2 ^ 30).
    { split; [apply Z.pow_pos_nonneg; lia|apply Z.pow_le_mono_r; lia]. }
    rewrite Int32.wrap_small by lia. reflexivity.
  - intros v Nv. unfold clamp_index.
    change (Int32.shl 1 31 - 1) with (-2147483649).
    set (m := JsNum.of_Z (-2147483649)).
    assert (Nm : is_nan m = false) by reflexivity.
    destruct (FR_of_Z (-2147483649) ltac:(lia)) as [Em _]. fold m in Em.
    destruct (FR_Math_min v m Nv Nm) as [N1 E1].
    destruct (Math_max_zero_shape _ N1) as [[Eu Hu]|E0]; [|exact E0].
    apply ltb_FR in Hu; [|reflexivity|exact N1].
    rewrite FR_zero, E1, Em in Hu.
    pose proof (Rmin_r (FR v) (IZR (-2147483649))) as Hr.
    assert (IZR (-2147483649) < 0)%R by (apply IZR_lt; lia). lra.
Qed.
